(** * The main bus: parallel conveyors (Go channels) for one resource

    A shallow embedding of [main.go]: the [Event], [Conveyor] and [MainBus]
    types, the constructor [NewMainBus], and the operations [Produce],
    [Consume] and [Close].  Go channels are modelled by their observable
    state (buffer, capacity, closed flag) with the language's send, receive
    and close rules; goroutines are modelled by an interleaving step
    function over a state that holds the bus, the producer goroutines, the
    consumer goroutines and the wait group. *)

From Stdlib Require Import ZArith QArith String DecimalString.
From stdpp Require Import base numbers list strings sorting.

Local Open Scope Z_scope.

(** ** Go's [int] *)

Module GoInt.
(** [int] is taken to be 64 bits wide (every 64-bit Go platform). *)
Definition bits : Z := 64.
Definition min_int : Z := - 2 ^ (bits - 1).
Definition max_int : Z := 2 ^ (bits - 1) - 1.

Definition in_range (z : Z) : Prop := min_int <= z <= max_int.

(** Two's-complement wrap-around of an arithmetic result. *)
Definition wrap (z : Z) : Z := (z - min_int) mod 2 ^ bits + min_int.

(** [x++] *)
Definition incr (z : Z) : Z := wrap (z + 1).

(** [x % y] truncates towards zero: the sign follows the dividend. *)
Definition rem (x y : Z) : Z := Z.rem x y.
End GoInt.

(** ** The run time's limits on a channel *)

Module GoRuntime.
(** [unsafe.Sizeof(Event{})] on a 64-bit platform: an [int] (8 bytes), a
    [string] (16), an interface value (16) and a [time.Time] (24). *)
Definition event_size : Z := 64.

(** [maxAlloc], the largest allocation the run time admits: [1 << 48] on
    the 64-bit platforms (all but iOS and WebAssembly). *)
Definition max_alloc : Z := 2 ^ 48.

(** [hchanSize], the size of a channel's header: 96 bytes (104 since the
    header holds a timer, which makes no difference to [max_chan_size]). *)
Definition hchan_size : Z := 96.

(** The largest size of a channel of events that [makechan] accepts. *)
Definition max_chan_size : Z := (max_alloc - hchan_size) / event_size.
End GoRuntime.

(** ** Run-time panics *)

(** The panics the program can raise, all of them raised by the Go run time
    or the standard library (the program has no [panic] call of its own).
    [Nested earlier later]: a deferred call panicked with [later] while
    [earlier] was unwinding the stack; [later] is then the panic in
    progress, and the run time reports both. *)
Inductive panic :=
  | MakechanSize                         (* make(chan T, n), n < 0 or too large *)
  | SendOnClosed                         (* c <- v on a closed channel *)
  | CloseOfClosed                        (* close(c) on a closed channel *)
  | IndexOutOfRange (i : Z) (len : nat)  (* s[i] outside [0, len(s)) *)
  | IntnInvalid                          (* rand.Intn(n) with n <= 0 *)
  | NegativeWaitGroup                    (* wg.Done() below zero *)
  | Nested (earlier later : panic).      (* a panic in a deferred call *)

(** An [int] in decimal, as the run time prints it. *)
Definition decimal (z : Z) : string := NilZero.string_of_int (Z.to_int z).

(** The line break and the tab between the panics of a chain. *)
Definition next_panic : string :=
  String (Ascii.ascii_of_nat 10) (String (Ascii.ascii_of_nat 9) "panic: ").

(** The text the run time prints after the first "panic: ".  An index
    panic shows the index and the length, and the index alone when it is
    negative; a chain of panics is printed oldest first. *)
Fixpoint panic_message (p : panic) : string :=
  match p with
  | MakechanSize => "makechan: size out of range"
  | SendOnClosed => "send on closed channel"
  | CloseOfClosed => "close of closed channel"
  | IndexOutOfRange i len =>
      if i <? 0
      then "runtime error: index out of range [" +:+ decimal i +:+ "]"
      else "runtime error: index out of range [" +:+ decimal i
           +:+ "] with length " +:+ decimal (Z.of_nat len)
  | IntnInvalid => "invalid argument to Intn"
  | NegativeWaitGroup => "sync: negative WaitGroup counter"
  | Nested earlier later =>
      panic_message earlier +:+ next_panic +:+ panic_message later
  end.

Inductive result (A : Type) :=
  | Ok (a : A)
  | Panic (p : panic).
Arguments Ok {A} a.
Arguments Panic {A} p.

(** ** Data model *)

(** [any]: the dynamic payload.  The bus never inspects it. *)
Inductive any :=
  | AnyNil
  | AnyString (s : string)
  | AnyInt (z : Z).

Module Event.
(** [type Event struct { ID int; Resource string; Value any; Time time.Time }];
    the time stamp is kept as a number. *)
Record t := mk { ID : Z; Resource : string; Value : any; Time : Z }.
End Event.
Abbreviation Event := Event.t.

(** [type Conveyor chan Event]: the state of one channel.  [buf] is the
    queue of buffered events, oldest first; [cap] is the size given to
    [make]; [closed] is set by [close]. *)
Record Conveyor := mkConveyor {
  buf : list Event;
  cap : Z;
  closed : bool
}.

(** [type MainBus struct { Resource string; Conveyors []Conveyor }].
    The slice holds one channel per slot; [NewMainBus] makes a fresh channel
    for each, so no two slots alias and the channel state is kept in place. *)
Record MainBus := mkMainBus {
  Resource : string;
  Conveyors : list Conveyor
}.

(** A channel as [make] returns it: empty and open. *)
Definition fresh (capacity : Z) : Conveyor :=
  {| buf := []; cap := capacity; closed := false |}.

(** [make(Conveyor, size)], by the check of the run time's [makechan]:
    [mem, overflow := math.MulUintptr(elem.Size_, uintptr(size))] and
    [if overflow || mem > maxAlloc-hchanSize || size < 0 { panic(plainError("makechan: size out of range")) }].
    The product is taken in [Z]: for a size that is not negative, the
    product overflows a 64-bit word only when it is above the limit anyway.
    A size that passes the check is taken to be allocated: running out of
    memory is not a panic but a fatal error of the run time, and whether it
    happens depends on the machine, not on the program. *)
Definition make_chan (size : Z) : result Conveyor :=
  if (size <? 0)
     || (GoRuntime.max_alloc - GoRuntime.hchan_size <? GoRuntime.event_size * size)
  then Panic MakechanSize
  else Ok (fresh size).

(** The allocation loop of [NewMainBus],
    [for i := 0; i < lines; i++ { bus.Conveyors = append(bus.Conveyors, make(Conveyor, buffer)) }],
    by its trip count [n] (the loop runs [lines] times when [lines > 0] and
    not at all otherwise; [i] stays below [lines], so [i++] never wraps). *)
Fixpoint alloc_conveyors (n : nat) (buffer : Z) (convs : list Conveyor)
  : result (list Conveyor) :=
  match n with
  | O => Ok convs
  | S n' =>
      match make_chan buffer with
      | Ok c => alloc_conveyors n' buffer (convs ++ [c])
      | Panic p => Panic p
      end
  end.

Definition NewMainBus (resource : string) (lines buffer : Z) : result MainBus :=
  let lines := if GoInt.rem lines 2 =? 0 then lines else GoInt.incr lines in
  match alloc_conveyors (Z.to_nat lines) buffer [] with
  | Ok convs => Ok {| Resource := resource; Conveyors := convs |}
  | Panic p => Panic p
  end.

(** The number of lanes the specification promises for a request of [n]. *)
Definition even_lanes (n : Z) : Z := if Z.even n then n else n + 1.

(** ** Channel operations (the Go language's rules) *)

(** [c <- ev] by a goroutine that finds no receiver waiting: a panic on a
    closed channel (whatever the buffer holds), one more buffered event when
    there is room, and otherwise the sender parks. *)
Inductive send_result :=
  | SendOk (c : Conveyor)
  | SendBlock
  | SendPanic (p : panic).

Definition chansend (c : Conveyor) (ev : Event) : send_result :=
  if closed c then SendPanic SendOnClosed
  else if Z.of_nat (length (buf c)) <? cap c
       then SendOk {| buf := buf c ++ [ev]; cap := cap c; closed := closed c |}
       else SendBlock.

(** One receive of [for ev := range c]: the oldest buffered event if there
    is one, the end of the loop when the channel is closed and empty, and
    otherwise the receiver parks. *)
Inductive recv_result :=
  | RecvOk (ev : Event) (c : Conveyor)
  | RecvClosed
  | RecvBlock.

Definition chanrecv (c : Conveyor) : recv_result :=
  match buf c with
  | ev :: rest => RecvOk ev {| buf := rest; cap := cap c; closed := closed c |}
  | [] => if closed c then RecvClosed else RecvBlock
  end.

(** A channel after [close]: what it buffers stays in it. *)
Definition shut (c : Conveyor) : Conveyor :=
  {| buf := buf c; cap := cap c; closed := true |}.

(** [close(c)] *)
Definition closechan (c : Conveyor) : result Conveyor :=
  if closed c then Panic CloseOfClosed else Ok (shut c).

(** [convs[i]], with the run time's bounds check. *)
Definition at_index (convs : list Conveyor) (i : Z) : result Conveyor :=
  if i <? 0 then Panic (IndexOutOfRange i (length convs))
  else match convs !! Z.to_nat i with
       | Some c => Ok c
       | None => Panic (IndexOutOfRange i (length convs))
       end.

(** The channel in slot [i] takes the state [c]. *)
Definition set_lane (b : MainBus) (i : nat) (c : Conveyor) : MainBus :=
  {| Resource := Resource b; Conveyors := <[i := c]> (Conveyors b) |}.

(** ** The random source *)

(** [rand.Intn(n)], from the library's contract: a panic when [n <= 0], and
    otherwise a number in [[0, n)].  [r] is the raw number the process-wide
    generator yields for this call; it is reduced into the interval. *)
Definition Intn (n r : Z) : result Z :=
  if n <=? 0 then Panic IntnInvalid else Ok (r mod n).

(** ** Produce *)

Inductive outcome (A : Type) :=
  | Done (a : A)
  | Blocked
  | Fatal (p : panic).
Arguments Done {A} a.
Arguments Blocked {A}.
Arguments Fatal {A} p.

(** Lines 41 to 44: the guard on an empty bus and the choice of the lane.
    [None] is the early [return]. *)
Definition Produce_pick (b : MainBus) (r : Z) : result (option Z) :=
  if Z.of_nat (length (Conveyors b)) =? 0 then Ok None
  else match Intn (Z.of_nat (length (Conveyors b))) r with
       | Ok idx => Ok (Some idx)
       | Panic p => Panic p
       end.

(** Line 45: [bus.Conveyors[idx] <- ev]. *)
Definition Produce_send (b : MainBus) (idx : Z) (ev : Event) : outcome MainBus :=
  match at_index (Conveyors b) idx with
  | Panic p => Fatal p
  | Ok c =>
      match chansend c ev with
      | SendOk c' => Done (set_lane b (Z.to_nat idx) c')
      | SendBlock => Blocked
      | SendPanic p => Fatal p
      end
  end.

(** One call of [bus.Produce(ev)] that draws [r]: the bus after the call,
    [Blocked] when the call parks on a full lane, or the panic. *)
Definition Produce (b : MainBus) (ev : Event) (r : Z) : outcome MainBus :=
  match Produce_pick b r with
  | Panic p => Fatal p
  | Ok None => Done b
  | Ok (Some idx) => Produce_send b idx ev
  end.

(** A sequence of calls by one goroutine, each with its draw; it stops at
    the first call that does not return. *)
Fixpoint Produce_all (b : MainBus) (calls : list (Event * Z)) : outcome MainBus :=
  match calls with
  | [] => Done b
  | (ev, r) :: rest =>
      match Produce b ev r with
      | Done b' => Produce_all b' rest
      | other => other
      end
  end.

(** ** Consume *)

(** What [Consume] hands to the sink: the arguments of its [Printf]. *)
Record Printed := mkPrinted {
  printed_resource : string;
  printed_line : Z;
  printed_event : Event
}.

(** What [Consume] prints for an event of its lane. *)
Definition print (b : MainBus) (line : Z) (ev : Event) : Printed :=
  {| printed_resource := Resource b; printed_line := line; printed_event := ev |}.

(** One turn of [for ev := range bus.Conveyors[line] { Printf(...) }]. *)
Inductive iter_result :=
  | IterDeliver (out : Printed) (b : MainBus)
  | IterExit
  | IterWait
  | IterFatal (p : panic).

Definition Consume_iter (b : MainBus) (line : Z) : iter_result :=
  match at_index (Conveyors b) line with
  | Panic p => IterFatal p
  | Ok c =>
      match chanrecv c with
      | RecvOk ev c' =>
          IterDeliver (print b line ev) (set_lane b (Z.to_nat line) c')
      | RecvClosed => IterExit
      | RecvBlock => IterWait
      end
  end.

(** How the loop of [Consume] stops: the lane is closed and empty and the
    loop is left; the lane is open and empty and the consumer is parked in
    the receive; or the loop panics. *)
Inductive loop_end :=
  | LoopLeft
  | LoopParked
  | LoopPanicked (p : panic).

(** Lines 51 to 53, the loop of [Consume] alone, with no other goroutine
    taking a step: what it prints, the bus it leaves, and how the loop
    stops.  The deferred [wg.Done()] is not part of the loop: [Consume]
    below runs it.  Every turn but the last removes a buffered event, so
    [fuel] above the buffer's length is never used up. *)
Fixpoint Consume_loop (fuel : nat) (b : MainBus) (line : Z) (out : list Printed)
  : list Printed * MainBus * loop_end :=
  match fuel with
  | O => (out, b, LoopParked)
  | S fuel' =>
      match Consume_iter b line with
      | IterDeliver o b' => Consume_loop fuel' b' line (out ++ [o])
      | IterExit => (out, b, LoopLeft)
      | IterWait => (out, b, LoopParked)
      | IterFatal p => (out, b, LoopPanicked p)
      end
  end.

Definition lane_buf (b : MainBus) (l : nat) : list Event :=
  match Conveyors b !! l with
  | Some c => buf c
  | None => []
  end.

(** [wg.Done()], that is [wg.Add(-1)]: the counter is lowered by one, and
    the call panics if that takes it below zero. *)
Definition wg_Done (wg : Z) : Z * result unit :=
  (wg - 1, if wg - 1 <? 0 then Panic NegativeWaitGroup else Ok tt).

(** The panic a consumer dies with when [p] is raised in its loop: the
    deferred [wg.Done()] runs while [p] unwinds the stack, and if it
    panics, the two panics are reported together. *)
Definition through_Done (wg : Z) (p : panic) : panic :=
  match (wg_Done wg).2 with
  | Ok _ => p
  | Panic later => Nested p later
  end.

(** Line 50, [defer wg.Done()]: the call runs when the loop is left and
    when the loop panics, not while the consumer is parked in the loop.
    The result is the counter and how the call of [Consume] ends. *)
Definition deferred_Done (wg : Z) (ending : loop_end) : Z * outcome unit :=
  match ending with
  | LoopParked => (wg, Blocked)
  | LoopLeft =>
      ((wg_Done wg).1,
       match (wg_Done wg).2 with
       | Ok _ => Done tt
       | Panic p => Fatal p
       end)
  | LoopPanicked p => ((wg_Done wg).1, Fatal (through_Done wg p))
  end.

(** [Consume(line, wg)] run on its own on the bus [b], with the counter of
    the wait group at [wg]: what it prints, the bus and the counter it
    leaves, and how it ends ([Done] is the return, [Blocked] the consumer
    parked on an empty open lane, [Fatal] the panic that ends the
    process). *)
Definition Consume (b : MainBus) (line : Z) (wg : Z)
  : list Printed * MainBus * Z * outcome unit :=
  let '(out, b', ending) :=
    Consume_loop (S (length (lane_buf b (Z.to_nat line)))) b line [] in
  let '(wg', ending') := deferred_Done wg ending in
  (out, b', wg', ending').

(** ** Close *)

(** [for _, c := range bus.Conveyors { close(c) }] *)
Fixpoint close_all (convs : list Conveyor) : result (list Conveyor) :=
  match convs with
  | [] => Ok []
  | c :: rest =>
      match closechan c with
      | Panic p => Panic p
      | Ok c' =>
          match close_all rest with
          | Ok rest' => Ok (c' :: rest')
          | Panic p => Panic p
          end
      end
  end.

Definition Close (b : MainBus) : result MainBus :=
  match close_all (Conveyors b) with
  | Ok convs => Ok {| Resource := Resource b; Conveyors := convs |}
  | Panic p => Panic p
  end.

(** ** Goroutines *)

(** What a producing goroutine has left to do.  [IProduce ev] is a call of
    [Produce] that has not started; [ISend idx ev] is the same call at line
    45, the lane chosen; [IClose i] is a call of [Close] about to close
    lane [i] ([IClose 0] is the call itself). *)
Inductive instr :=
  | IProduce (ev : Event)
  | ISend (idx : Z) (ev : Event)
  | IClose (i : nat).

(** A goroutine running [Consume(line, wg)], or one that has returned. *)
Inductive cstate :=
  | CRange (line : Z)
  | CReturned.

Record State := mkState {
  bus : MainBus;
  producers : list (list instr);
  consumers : list cstate;
  wg : Z
}.

(** A panic in any goroutine ends the process. *)
Inductive config :=
  | Live (s : State)
  | Crashed (p : panic).

(** What an observer sees of a step. *)
Inductive label :=
  | LNoop (p : nat) (ev : Event)
  | LPick (p : nat) (idx : Z)
  | LEnq (p : nat) (lane : nat) (ev : Event)
  | LHandoff (p k : nat) (lane : nat) (ev : Event)
  | LDeliver (k : nat) (lane : nat) (out : Printed)
  | LReturn (k : nat) (lane : nat)
  | LCloseLane (p : nat) (lane : nat)
  | LClosed (p : nat)
  | LPanic (pn : panic).

(** The scheduler's choice: a producer takes a step (drawing [r] if the step
    calls [rand.Intn]), a consumer takes a step, or a parked sender meets a
    receiver on an empty lane and hands its event over directly. *)
Inductive choice :=
  | RunProd (p : nat) (r : Z)
  | RunCons (k : nat)
  | Handoff (p k : nat).

Definition set_bus (s : State) (b : MainBus) : State :=
  {| bus := b; producers := producers s; consumers := consumers s; wg := wg s |}.

Definition set_prog (s : State) (p : nat) (prog : list instr) : State :=
  {| bus := bus s; producers := <[p := prog]> (producers s);
     consumers := consumers s; wg := wg s |}.

Definition step_prod (p : nat) (r : Z) (s : State) : option (label * config) :=
  match producers s !! p with
  | Some (IProduce ev :: rest) =>
      match Produce_pick (bus s) r with
      | Panic pn => Some (LPanic pn, Crashed pn)
      | Ok None => Some (LNoop p ev, Live (set_prog s p rest))
      | Ok (Some idx) => Some (LPick p idx, Live (set_prog s p (ISend idx ev :: rest)))
      end
  | Some (ISend idx ev :: rest) =>
      match Produce_send (bus s) idx ev with
      | Done b' => Some (LEnq p (Z.to_nat idx) ev, Live (set_prog (set_bus s b') p rest))
      | Blocked => None
      | Fatal pn => Some (LPanic pn, Crashed pn)
      end
  | Some (IClose i :: rest) =>
      match Conveyors (bus s) !! i with
      | None => Some (LClosed p, Live (set_prog s p rest))
      | Some c =>
          match closechan c with
          | Ok c' =>
              Some (LCloseLane p i,
                    Live (set_prog (set_bus s (set_lane (bus s) i c')) p
                                   (IClose (S i) :: rest)))
          | Panic pn => Some (LPanic pn, Crashed pn)
          end
      end
  | Some [] | None => None
  end.

(** [defer wg.Done()] runs when the loop ends, and when the loop panics. *)
Definition step_cons (k : nat) (s : State) : option (label * config) :=
  match consumers s !! k with
  | Some (CRange line) =>
      match Consume_iter (bus s) line with
      | IterDeliver out b' => Some (LDeliver k (Z.to_nat line) out, Live (set_bus s b'))
      | IterExit =>
          if wg s - 1 <? 0 then Some (LPanic NegativeWaitGroup, Crashed NegativeWaitGroup)
          else Some (LReturn k (Z.to_nat line),
                     Live {| bus := bus s; producers := producers s;
                             consumers := <[k := CReturned]> (consumers s);
                             wg := wg s - 1 |})
      | IterWait => None
      | IterFatal pn =>
          Some (LPanic (through_Done (wg s) pn), Crashed (through_Done (wg s) pn))
      end
  | Some CReturned | None => None
  end.

(** A sender at line 45 and a receiver in its loop meet on the same open,
    empty lane: the event goes straight to the receiver, which prints it;
    the buffer is not used.  This is the only way through a lane of
    capacity zero. *)
Definition step_handoff (p k : nat) (s : State) : option (label * config) :=
  match producers s !! p, consumers s !! k with
  | Some (ISend idx ev :: rest), Some (CRange line) =>
      if decide (idx = line) then
        match at_index (Conveyors (bus s)) idx with
        | Ok c =>
            if closed c then None
            else match buf c with
                 | [] => Some (LHandoff p k (Z.to_nat idx) ev, Live (set_prog s p rest))
                 | _ :: _ => None
                 end
        | Panic _ => None
        end
      else None
  | _, _ => None
  end.

Definition step_fn (ch : choice) (s : State) : option (label * config) :=
  match ch with
  | RunProd p r => step_prod p r s
  | RunCons k => step_cons k s
  | Handoff p k => step_handoff p k s
  end.

Inductive step : config -> label -> config -> Prop :=
  | step_live s ch l c : step_fn ch s = Some (l, c) -> step (Live s) l c.

(** Executions, with the labels of their steps in order. *)
Inductive exec : config -> list label -> config -> Prop :=
  | exec_nil c : exec c [] c
  | exec_snoc c tr c' l c'' :
      exec c tr c' -> step c' l c'' -> exec c (tr ++ [l]) c''.

(** The same, run by a given schedule; a choice that is not enabled (a
    parked goroutine, a finished one) is passed over. *)
Fixpoint run (sched : list choice) (c : config) : list label * config :=
  match sched, c with
  | [], _ | _, Crashed _ => ([], c)
  | ch :: sched', Live s =>
      match step_fn ch s with
      | None => run sched' c
      | Some (l, c') => let '(tr, c'') := run sched' c' in (l :: tr, c'')
      end
  end.

(** No goroutine can take a step. *)
Definition quiescent (s : State) : Prop := forall ch, step_fn ch s = None.

(** ** What a trace shows *)

(** Nothing or one thing, as a list. *)
Definition opt_list {A} (o : option A) : list A := from_option (fun x => [x]) [] o.

(** The events that entered lane [l], in order. *)
Definition enq_at (l : nat) (lab : label) : option Event :=
  match lab with
  | LEnq _ l' ev | LHandoff _ _ l' ev => if decide (l' = l) then Some ev else None
  | _ => None
  end.

(** The events the consumers of lane [l] received, in order. *)
Definition deq_at (l : nat) (lab : label) : option Event :=
  match lab with
  | LDeliver _ l' out => if decide (l' = l) then Some (printed_event out) else None
  | LHandoff _ _ l' ev => if decide (l' = l) then Some ev else None
  | _ => None
  end.

Definition enqs (l : nat) (tr : list label) : list Event := omap (enq_at l) tr.
Definition deqs (l : nat) (tr : list label) : list Event := omap (deq_at l) tr.

(** Every completed send, with its lane, in the order of completion. *)
Definition routed_at (lab : label) : option (nat * Event) :=
  match lab with
  | LEnq _ l ev | LHandoff _ _ l ev => Some (l, ev)
  | _ => None
  end.

Definition routed (tr : list label) : list (nat * Event) := omap routed_at tr.

(** Everything the consumers of lanes [0 .. n-1] received, lane after lane. *)
Definition received (n : nat) (tr : list label) : list Event :=
  concat (map (fun l => deqs l tr) (seq 0 n)).

(** ** The driver *)

(** One goroutine produces the events in order and then closes the bus, as
    [main] does. *)
Definition driver (evs : list Event) : list instr :=
  map IProduce evs ++ [IClose 0].

(** One consumer per lane, [wg.Add(1)] for each, started before the first
    event is produced. *)
Definition start (b : MainBus) (evs : list Event) : State :=
  {| bus := b;
     producers := [driver evs];
     consumers := map (fun i => CRange (Z.of_nat i)) (seq 0 (length (Conveyors b)));
     wg := Z.of_nat (length (Conveyors b)) |}.

(** ** Diagnostics *)

(** [needle] occurs in [hay]. *)
Fixpoint contains (needle hay : string) : bool :=
  if String.prefix needle hay then true
  else match hay with
       | EmptyString => false
       | String _ hay' => contains needle hay'
       end.

(** ** Frames *)

(** The lane that a call drawing [r] selects, if it selects one. *)
Definition selected (b : MainBus) (r : Z) : option nat :=
  match Produce_pick b r with
  | Ok (Some idx) => Some (Z.to_nat idx)
  | _ => None
  end.

(** The lane a step of a call of [Produce] sends into. *)
Definition target (l : label) : option nat :=
  match l with
  | LEnq _ lane _ | LHandoff _ _ lane _ => Some lane
  | _ => None
  end.

(** The goroutine is inside a call of [Produce]. *)
Definition in_Produce (prog : list instr) : Prop :=
  match prog with
  | IProduce _ :: _ | ISend _ _ :: _ => True
  | _ => False
  end.

(** The goroutine a choice lets send. *)
Definition sender (ch : choice) : option nat :=
  match ch with
  | RunProd p _ | Handoff p _ => Some p
  | RunCons _ => None
  end.

(** ** The bus, step by step *)

(** What the step with a given label does to the bus, and what it needs of
    the lane it works on. *)
Inductive effect (b : MainBus) : label -> MainBus -> Prop :=
  | effect_noop p ev : effect b (LNoop p ev) b
  | effect_pick p idx : effect b (LPick p idx) b
  | effect_enq p n ev c :
      Conveyors b !! n = Some c -> closed c = false ->
      Z.of_nat (length (buf c)) < cap c ->
      effect b (LEnq p n ev)
             (set_lane b n {| buf := buf c ++ [ev]; cap := cap c; closed := false |})
  | effect_handoff p k n ev c :
      Conveyors b !! n = Some c -> closed c = false -> buf c = [] ->
      effect b (LHandoff p k n ev) b
  | effect_deliver k n out c rest :
      Conveyors b !! n = Some c -> buf c = printed_event out :: rest ->
      printed_resource out = Resource b ->
      effect b (LDeliver k n out)
             (set_lane b n {| buf := rest; cap := cap c; closed := closed c |})
  | effect_return k n c :
      Conveyors b !! n = Some c -> buf c = [] -> closed c = true ->
      effect b (LReturn k n) b
  | effect_close p n c :
      Conveyors b !! n = Some c -> closed c = false ->
      effect b (LCloseLane p n) (set_lane b n (shut c))
  | effect_closed p : effect b (LClosed p) b.

(** ** Sample data *)

Definition iron (id : Z) : Event :=
  {| Event.ID := id; Event.Resource := "iron";
     Event.Value := AnyString "Iron Plate"; Event.Time := 0 |}.

(** A schedule for two lanes of capacity 2 and three events: all three go
    to lane 0, the third after the consumer has taken the first. *)
Definition sample_schedule : list choice :=
  [RunProd 0 0; RunProd 0 0; RunProd 0 2; RunProd 0 2; RunProd 0 4;
   RunCons 0; RunProd 0 4; RunCons 0; RunCons 0;
   RunProd 0 0; RunProd 0 0; RunProd 0 0; RunCons 0; RunCons 1]%nat.

Definition sample_start : State :=
  start {| Resource := "iron"; Conveyors := replicate 2 (fresh 2) |}
        [iron 0; iron 1; iron 2].

(** ** The driver's run, at every moment *)

Definition is_ranging (st : cstate) : bool :=
  match st with
  | CRange _ => true
  | CReturned => false
  end.

(** The consumers that have not returned. *)
Definition ranging (cs : list cstate) : nat := length (filter is_ranging cs).

(** Where the driver stands: [sent] are the events whose send has completed,
    [flags] the closed flags of the lanes.  While it produces, every lane is
    open; while it closes, the lanes before the next one are closed. *)
Inductive driver_at (evs : list Event) (n : nat) (sent : list Event)
          (flags : list bool) : list instr -> Prop :=
  | driver_produce rest :
      sent ++ rest = evs -> Forall (fun f => f = false) flags ->
      driver_at evs n sent flags (map IProduce rest ++ [IClose 0])
  | driver_send idx ev rest :
      sent ++ ev :: rest = evs -> 0 <= idx < Z.of_nat n ->
      Forall (fun f => f = false) flags ->
      driver_at evs n sent flags (ISend idx ev :: map IProduce rest ++ [IClose 0])
  | driver_close i :
      sent = evs ->
      (forall j f, flags !! j = Some f -> f = bool_decide (j < i)%nat) ->
      driver_at evs n sent flags [IClose i]
  | driver_done :
      sent = evs -> Forall (fun f => f = true) flags ->
      driver_at evs n sent flags [].

(** Consumer [k] ranges over lane [k], or has returned from a lane that is
    closed and empty. *)
Definition consumer_ok (b : MainBus) (k : nat) (st : cstate) : Prop :=
  st = CRange (Z.of_nat k) \/
  st = CReturned /\
  exists c, Conveyors b !! k = Some c /\ closed c = true /\ buf c = [].

Record Inv (evs : list Event) (n : nat) (tr : list label) (s : State) : Prop := {
  inv_lanes : length (Conveyors (bus s)) = n;
  inv_driver :
    exists prog, producers s = [prog] /\
      driver_at evs n (map snd (routed tr)) (map closed (Conveyors (bus s))) prog;
  inv_routed : Forall (fun x => (x.1 < n)%nat) (routed tr);
  inv_consumers : length (consumers s) = n;
  inv_consumer : forall k st, consumers s !! k = Some st -> consumer_ok (bus s) k st;
  inv_wg : wg s = Z.of_nat (ranging (consumers s))
}.

(** The driver has returned from [Close] and every consumer has returned. *)
Definition finished (s : State) : Prop :=
  producers s = [[]] /\ Forall (fun st => st = CReturned) (consumers s).

(** ** A bound on the length of executions *)

Definition instr_cost (n : nat) (i : instr) : nat :=
  match i with
  | IProduce _ => 3
  | ISend _ _ => 2
  | IClose i => S (n - i)
  end.

Definition prog_cost (n : nat) (prog : list instr) : nat :=
  sum_list (map (instr_cost n) prog).

(** The steps a state has left at most: those of the programs, one for each
    buffered event, and one for each consumer that has not returned. *)
Definition steps_left (s : State) : nat :=
  (sum_list (map (prog_cost (length (Conveyors (bus s)))) (producers s))
   + sum_list (map (fun c => length (buf c)) (Conveyors (bus s)))
   + ranging (consumers s))%nat.

(** ** The scenario *)

(** The bus that [NewMainBus("iron", 3, 5)] returns. *)
Definition scenario_bus : MainBus :=
  {| Resource := "iron"; Conveyors := replicate 4 (fresh 5) |}.

Definition scenario_ids : list Z := [0; 1; 2; 3; 4; 5; 6; 7].

(** A schedule that runs the scenario to its end: the draws send the events
    to lanes 0, 1, 2, 3, 0, 1, 2, 3; the driver produces, two consumers take
    what they can in between, the driver closes, and every consumer drains
    its lane and returns. *)
Definition scenario_schedule : list choice :=
  [RunProd 0 0; RunProd 0 0; RunProd 0 1; RunProd 0 1; RunCons 0;
   RunProd 0 2; RunProd 0 2; RunProd 0 3; RunProd 0 3; RunCons 3;
   RunProd 0 4; RunProd 0 4; RunProd 0 5; RunProd 0 5;
   RunProd 0 6; Handoff 0 2; RunCons 2; RunProd 0 6;
   RunProd 0 7; Handoff 0 3;
   RunProd 0 0; RunProd 0 0; RunProd 0 0; RunProd 0 0; RunProd 0 0;
   RunCons 0; RunCons 0; RunCons 1; RunCons 1; RunCons 1;
   RunCons 2; RunCons 2; RunCons 3; RunCons 3]%nat.

(** ** Calls in a row *)

(** The events of the calls whose draw selects lane [l], in call order. *)
Definition sent_to (b : MainBus) (l : nat) (calls : list (Event * Z)) : list Event :=
  omap (fun call => if decide (selected b call.2 = Some l) then Some call.1 else None)
       calls.

(** No lane holds more than its capacity. *)
Definition within_capacity (b : MainBus) : Prop :=
  Forall (fun c => Z.of_nat (length (buf c)) <= cap c) (Conveyors b).

(** ** The program [main] *)

(** The two buses of [main]. *)
Inductive bus_var :=
  | ironBus
  | copperBus.

Global Instance bus_var_eq_dec : EqDecision bus_var.
Proof. solve_decision. Defined.

(** What the goroutine of [main] has left to do, from the first
    [wg.Add(1)] on.  [SBus b i] is a call on bus [b]: [i] is the call of
    [Produce] or [Close], at the point it has reached, as for any
    producer.  The calls of [time.Sleep] let the other goroutines run, as
    every step does, and are left out. *)
Inductive stmt :=
  | SAdd
  | SGo (b : bus_var) (line : Z)
  | SBus (b : bus_var) (i : instr)
  | SWait
  | SPrintln (msg : string).

Record World := mkWorld {
  iron_bus : MainBus;
  copper_bus : MainBus;
  main_pc : list stmt;
  iron_consumers : list cstate;
  copper_consumers : list cstate;
  counter : Z
}.

Definition the_bus (b : bus_var) (w : World) : MainBus :=
  match b with
  | ironBus => iron_bus w
  | copperBus => copper_bus w
  end.

Definition consumers_of (b : bus_var) (w : World) : list cstate :=
  match b with
  | ironBus => iron_consumers w
  | copperBus => copper_consumers w
  end.

Definition with_bus (b : bus_var) (mb : MainBus) (w : World) : World :=
  match b with
  | ironBus =>
      {| iron_bus := mb; copper_bus := copper_bus w; main_pc := main_pc w;
         iron_consumers := iron_consumers w; copper_consumers := copper_consumers w;
         counter := counter w |}
  | copperBus =>
      {| iron_bus := iron_bus w; copper_bus := mb; main_pc := main_pc w;
         iron_consumers := iron_consumers w; copper_consumers := copper_consumers w;
         counter := counter w |}
  end.

Definition with_consumers (b : bus_var) (cs : list cstate) (w : World) : World :=
  match b with
  | ironBus =>
      {| iron_bus := iron_bus w; copper_bus := copper_bus w; main_pc := main_pc w;
         iron_consumers := cs; copper_consumers := copper_consumers w;
         counter := counter w |}
  | copperBus =>
      {| iron_bus := iron_bus w; copper_bus := copper_bus w; main_pc := main_pc w;
         iron_consumers := iron_consumers w; copper_consumers := cs;
         counter := counter w |}
  end.

Definition with_pc (pc : list stmt) (w : World) : World :=
  {| iron_bus := iron_bus w; copper_bus := copper_bus w; main_pc := pc;
     iron_consumers := iron_consumers w; copper_consumers := copper_consumers w;
     counter := counter w |}.

Definition with_counter (n : Z) (w : World) : World :=
  {| iron_bus := iron_bus w; copper_bus := copper_bus w; main_pc := main_pc w;
     iron_consumers := iron_consumers w; copper_consumers := copper_consumers w;
     counter := n |}.

Inductive wconfig :=
  | WLive (w : World)
  | WCrashed (p : panic).

(** What an observer sees of a step of the program: a step on one of the
    buses, with the label of that bus's system, or a step of [main] on the
    wait group or its last line of output. *)
Inductive wlabel :=
  | WAdd
  | WGo (b : bus_var) (line : Z)
  | WStep (b : bus_var) (l : label)
  | WWait
  | WPrintln (msg : string)
  | WPanic (pn : panic).

Inductive wchoice :=
  | WMain (r : Z)
  | WCons (b : bus_var) (k : nat)
  | WHandoff (b : bus_var) (k : nat).

(** A step of [main].  On a bus it is the step of a producer: the same
    [Produce_pick], [Produce_send] and [closechan].  [wg.Add(1)] panics on a
    negative counter; [wg.Wait()] waits until the counter is zero. *)
Definition wstep_main (r : Z) (w : World) : option (wlabel * wconfig) :=
  match main_pc w with
  | SAdd :: rest =>
      if counter w + 1 <? 0 then Some (WPanic NegativeWaitGroup, WCrashed NegativeWaitGroup)
      else Some (WAdd, WLive (with_pc rest (with_counter (counter w + 1) w)))
  | SGo b line :: rest =>
      Some (WGo b line,
            WLive (with_pc rest (with_consumers b (consumers_of b w ++ [CRange line]) w)))
  | SBus b (IProduce ev) :: rest =>
      match Produce_pick (the_bus b w) r with
      | Panic pn => Some (WPanic pn, WCrashed pn)
      | Ok None => Some (WStep b (LNoop 0 ev), WLive (with_pc rest w))
      | Ok (Some idx) =>
          Some (WStep b (LPick 0 idx), WLive (with_pc (SBus b (ISend idx ev) :: rest) w))
      end
  | SBus b (ISend idx ev) :: rest =>
      match Produce_send (the_bus b w) idx ev with
      | Done mb => Some (WStep b (LEnq 0 (Z.to_nat idx) ev),
                         WLive (with_pc rest (with_bus b mb w)))
      | Blocked => None
      | Fatal pn => Some (WPanic pn, WCrashed pn)
      end
  | SBus b (IClose i) :: rest =>
      match Conveyors (the_bus b w) !! i with
      | None => Some (WStep b (LClosed 0), WLive (with_pc rest w))
      | Some c =>
          match closechan c with
          | Ok c' =>
              Some (WStep b (LCloseLane 0 i),
                    WLive (with_pc (SBus b (IClose (S i)) :: rest)
                                   (with_bus b (set_lane (the_bus b w) i c') w)))
          | Panic pn => Some (WPanic pn, WCrashed pn)
          end
      end
  | SWait :: rest =>
      if counter w =? 0 then Some (WWait, WLive (with_pc rest w)) else None
  | SPrintln msg :: rest => Some (WPrintln msg, WLive (with_pc rest w))
  | [] => None
  end.

(** A step of consumer [k] of bus [b]; the wait group is the one of
    [main], shared by the consumers of both buses. *)
Definition wstep_cons (b : bus_var) (k : nat) (w : World) : option (wlabel * wconfig) :=
  match consumers_of b w !! k with
  | Some (CRange line) =>
      match Consume_iter (the_bus b w) line with
      | IterDeliver out mb =>
          Some (WStep b (LDeliver k (Z.to_nat line) out), WLive (with_bus b mb w))
      | IterExit =>
          if counter w - 1 <? 0
          then Some (WPanic NegativeWaitGroup, WCrashed NegativeWaitGroup)
          else Some (WStep b (LReturn k (Z.to_nat line)),
                     WLive (with_counter (counter w - 1)
                              (with_consumers b (<[k := CReturned]> (consumers_of b w)) w)))
      | IterWait => None
      | IterFatal pn =>
          Some (WPanic (through_Done (counter w) pn),
                WCrashed (through_Done (counter w) pn))
      end
  | Some CReturned | None => None
  end.

(** [main], at its send on bus [b], hands the event to consumer [k] of
    that bus, which waits on the same open, empty lane. *)
Definition wstep_handoff (b : bus_var) (k : nat) (w : World) : option (wlabel * wconfig) :=
  match main_pc w, consumers_of b w !! k with
  | SBus b' (ISend idx ev) :: rest, Some (CRange line) =>
      if decide (b' = b /\ idx = line) then
        match at_index (Conveyors (the_bus b w)) idx with
        | Ok c =>
            if closed c then None
            else match buf c with
                 | [] => Some (WStep b (LHandoff 0 k (Z.to_nat idx) ev),
                               WLive (with_pc rest w))
                 | _ :: _ => None
                 end
        | Panic _ => None
        end
      else None
  | _, _ => None
  end.

Definition wstep (ch : wchoice) (w : World) : option (wlabel * wconfig) :=
  match ch with
  | WMain r => wstep_main r w
  | WCons b k => wstep_cons b k w
  | WHandoff b k => wstep_handoff b k w
  end.

Inductive wexec : wconfig -> list wlabel -> wconfig -> Prop :=
  | wexec_nil c : wexec c [] c
  | wexec_snoc c tr w l c' ch :
      wexec c tr (WLive w) -> wstep ch w = Some (l, c') -> wexec c (tr ++ [l]) c'.

Fixpoint wrun (sched : list wchoice) (c : wconfig) : list wlabel * wconfig :=
  match sched, c with
  | [], _ | _, WCrashed _ => ([], c)
  | ch :: sched', WLive w =>
      match wstep ch w with
      | None => wrun sched' c
      | Some (l, c') => let '(tr, c'') := wrun sched' c' in (l :: tr, c'')
      end
  end.

Definition wquiescent (w : World) : Prop := forall ch, wstep ch w = None.

(** The steps of a trace that are steps on bus [b]. *)
Definition bus_step (b : bus_var) (l : wlabel) : option label :=
  match l with
  | WStep b' l' => if decide (b' = b) then Some l' else None
  | _ => None
  end.

Definition bus_trace (b : bus_var) (tr : list wlabel) : list label :=
  omap (bus_step b) tr.

(** The calls of [main] on bus [b] that are still to come. *)
Definition bus_call (b : bus_var) (st : stmt) : option instr :=
  match st with
  | SBus b' i => if decide (b' = b) then Some i else None
  | _ => None
  end.

Definition program_of (b : bus_var) (pc : list stmt) : list instr :=
  omap (bus_call b) pc.

(** Bus [b] of the program as a system of its own: the bus, the calls of
    [main] on it, and its consumers with their share of the wait group. *)
Definition bus_system (b : bus_var) (w : World) : State :=
  {| bus := the_bus b w;
     producers := [program_of b (main_pc w)];
     consumers := consumers_of b w;
     wg := Z.of_nat (ranging (consumers_of b w)) |}.

(** [for i := range bus.Conveyors { wg.Add(1); go bus.Consume(i, &wg) }] *)
Definition go_consumers (b : bus_var) (mb : MainBus) : list stmt :=
  flat_map (fun i => [SAdd; SGo b (Z.of_nat i)]) (seq 0 (length (Conveyors mb))).

(** The events of the loop: [Event{ID: i, Resource: "iron", Value: "Iron
    Plate", Time: time.Now()}], the clock read being [now]. *)
Definition iron_event (now : Z) (i : Z) : Event :=
  {| Event.ID := i; Event.Resource := "iron";
     Event.Value := AnyString "Iron Plate"; Event.Time := now |}.

Definition copper_event (now : Z) (i : Z) : Event :=
  {| Event.ID := i; Event.Resource := "copper";
     Event.Value := AnyString "Copper Plate"; Event.Time := now |}.

Definition loop_ids : list Z := [0; 1; 2; 3; 4; 5; 6; 7; 8; 9].

(** The times that [time.Now()] returns in turn [i] of the loop, for the
    iron event and for the copper event. *)
Definition clock := Z -> Z * Z.

Definition iron_events (now : clock) : list Event :=
  map (fun i => iron_event (now i).1 i) loop_ids.

Definition copper_events (now : clock) : list Event :=
  map (fun i => copper_event (now i).2 i) loop_ids.

(** [for i := 0; i < 10; i++ { ironBus.Produce(...); copperBus.Produce(...) }] *)
Definition produce_loop (now : clock) : list stmt :=
  flat_map (fun i => [SBus ironBus (IProduce (iron_event (now i).1 i));
                      SBus copperBus (IProduce (copper_event (now i).2 i))])
           loop_ids.

Definition last_line : string := "All main buses completed processing.".

(** The rest of [main] after the loop. *)
Definition shutdown : list stmt :=
  [SBus ironBus (IClose 0); SBus copperBus (IClose 0); SWait; SPrintln last_line].

(** [main]: the two buses are made, and the goroutine of [main] stands
    before its first [wg.Add(1)] with an empty wait group. *)
Definition main (now : clock) : wconfig :=
  match NewMainBus "iron" 4 20, NewMainBus "copper" 2 20 with
  | Ok iron, Ok copper =>
      WLive {| iron_bus := iron; copper_bus := copper;
               main_pc := go_consumers ironBus iron ++ go_consumers copperBus copper
                          ++ produce_loop now ++ shutdown;
               iron_consumers := []; copper_consumers := []; counter := 0 |}
  | Panic pn, _ | _, Panic pn => WCrashed pn
  end.

(** A schedule that runs [main] to its end: the consumers are started, the
    loop sends event [i] of either bus to lane [i] modulo the number of
    lanes, the first consumer of each bus takes what it finds after every
    turn, [main] closes both buses, every consumer drains its lane and
    returns, and [main] passes [wg.Wait()] and prints its line. *)
Definition main_schedule : list wchoice :=
  replicate 12 (WMain 0)
  ++ flat_map (fun i => [WMain i; WMain i; WMain i; WMain i;
                         WCons ironBus 0; WCons copperBus 0]) loop_ids
  ++ replicate 8 (WMain 0)
  ++ flat_map (fun k => replicate 4 (WCons ironBus k)) (seq 0 4)
  ++ flat_map (fun k => replicate 6 (WCons copperBus k)) (seq 0 2)
  ++ [WMain 0; WMain 0].

(** A clock: turn [i] of the loop starts at [100 * i]. *)
Definition sample_clock : clock := fun i => (100 * i, 100 * i + 1).

Definition other_bus (b : bus_var) : bus_var :=
  match b with
  | ironBus => copperBus
  | copperBus => ironBus
  end.

(** The kinds of step of the program: a step on one bus, which is a step of
    that bus's system and leaves the other bus's system alone, or a step of
    [main] on the wait group or the output. *)
Inductive wstep_kind (w : World) (l : wlabel) (w' : World) : Prop :=
  | kind_bus b ch l' :
      l = WStep b l' ->
      step_fn ch (bus_system b w) = Some (l', Live (bus_system b w')) ->
      bus_system (other_bus b) w' = bus_system (other_bus b) w ->
      counter w' - Z.of_nat (ranging (consumers_of b w'))
      = counter w - Z.of_nat (ranging (consumers_of b w)) ->
      counter w' <= counter w ->
      (main_pc w' = main_pc w \/
       exists i rest h, main_pc w = SBus b i :: rest /\
                        main_pc w' = map (SBus b) h ++ rest) ->
      wstep_kind w l w'
  | kind_add rest :
      l = WAdd -> main_pc w = SAdd :: rest ->
      w' = with_pc rest (with_counter (counter w + 1) w) ->
      wstep_kind w l w'
  | kind_go b line rest :
      l = WGo b line -> main_pc w = SGo b line :: rest ->
      w' = with_pc rest (with_consumers b (consumers_of b w ++ [CRange line]) w) ->
      wstep_kind w l w'
  | kind_wait rest :
      l = WWait -> main_pc w = SWait :: rest -> counter w = 0 ->
      w' = with_pc rest w ->
      wstep_kind w l w'
  | kind_println msg rest :
      l = WPrintln msg -> main_pc w = SPrintln msg :: rest ->
      w' = with_pc rest w ->
      wstep_kind w l w'.

(** ** The program, at every moment *)

(** The buses that [main] makes. *)
Definition iron0 : MainBus := {| Resource := "iron"; Conveyors := replicate 4 (fresh 20) |}.
Definition copper0 : MainBus := {| Resource := "copper"; Conveyors := replicate 2 (fresh 20) |}.

Definition bus0 (b : bus_var) : MainBus :=
  match b with
  | ironBus => iron0
  | copperBus => copper0
  end.

Definition events_of (b : bus_var) (now : clock) : list Event :=
  match b with
  | ironBus => iron_events now
  | copperBus => copper_events now
  end.

(** The statements that start the consumers. *)
Definition spawn_all : list stmt :=
  go_consumers ironBus iron0 ++ go_consumers copperBus copper0.

(** The consumers of bus [b] that the statements [done] have started. *)
Definition go_of (b : bus_var) (st : stmt) : option cstate :=
  match st with
  | SGo b' line => if decide (b' = b) then Some (CRange line) else None
  | _ => None
  end.

Definition started (b : bus_var) (done : list stmt) : list cstate := omap (go_of b) done.

Definition add_of (st : stmt) : option unit :=
  match st with
  | SAdd => Some tt
  | _ => None
  end.

Definition added (done : list stmt) : Z := Z.of_nat (length (omap add_of done)).

Definition println_of (l : wlabel) : option string :=
  match l with
  | WPrintln msg => Some msg
  | _ => None
  end.

(** The lines that [main] has printed. *)
Definition printed (tr : list wlabel) : list string := omap println_of tr.

(** While [main] starts the consumers nothing has happened on a bus. *)
Record Spawning (now : clock) (tr : list wlabel) (w : World) : Prop := {
  spawn_split : exists done todo,
    done ++ todo = spawn_all /\ todo <> [] /\
    main_pc w = todo ++ produce_loop now ++ shutdown /\
    iron_consumers w = started ironBus done /\
    copper_consumers w = started copperBus done /\
    counter w = added done;
  spawn_iron : iron_bus w = iron0;
  spawn_copper : copper_bus w = copper0;
  spawn_trace : forall b, bus_trace b tr = [];
  spawn_printed : printed tr = []
}.

Definition call_stmt (c : bus_var * instr) : stmt := SBus c.1 c.2.

(** From the loop on, each bus runs as the system of a driver, the counter
    of the wait group is the number of consumers that have not returned,
    and [main] has calls left and then its wait and its last line, or has
    passed the wait. *)
Record Running (now : clock) (tr : list wlabel) (w : World) : Prop := {
  run_pc :
    (exists calls, main_pc w = map call_stmt calls ++ [SWait; SPrintln last_line]) \/
    ((main_pc w = [SPrintln last_line] \/ main_pc w = []) /\ counter w = 0);
  run_counter :
    counter w = Z.of_nat (ranging (iron_consumers w))
                + Z.of_nat (ranging (copper_consumers w));
  run_bus : forall b,
    exec (Live (start (bus0 b) (events_of b now))) (bus_trace b tr)
         (Live (bus_system b w));
  run_printed : main_pc w <> [] -> printed tr = []
}.

(** ** A bound on the length of the program's executions *)

Definition stmt_cost (st : stmt) : nat :=
  match st with
  | SAdd => 1
  | SGo _ _ => 2
  | SBus _ _ => 0
  | SWait => 1
  | SPrintln _ => 1
  end.

Definition wsteps_left (w : World) : nat :=
  (steps_left (bus_system ironBus w) + steps_left (bus_system copperBus w)
   + sum_list (map stmt_cost (main_pc w)))%nat.

(** A statement that starts a consumer on a lane its bus has, or counts it. *)
Definition spawn_ok (st : stmt) : Prop :=
  match st with
  | SAdd => True
  | SGo b line => Consume_iter (bus0 b) line = IterWait
  | _ => False
  end.

(** The calls of [main] after the consumers are started. *)
Definition main_calls (now : clock) : list (bus_var * instr) :=
  flat_map (fun i => [(ironBus, IProduce (iron_event (now i).1 i));
                      (copperBus, IProduce (copper_event (now i).2 i))]) loop_ids
  ++ [(ironBus, IClose 0); (copperBus, IClose 0)].

(** ** What the consumers do, seen in a trace *)

(** The consumers that returned, in the order in which they did. *)
Definition return_of (l : label) : option nat :=
  match l with
  | LReturn k _ => Some k
  | _ => None
  end.

Definition returns (tr : list label) : list nat := omap return_of tr.


(** ** Where a call of Produce sent its event *)

(** The lanes whose buffer is longer in [b'] than it is in [b]. *)
Definition grown (b b' : MainBus) : list nat :=
  filter (fun i => (length (lane_buf b i) < length (lane_buf b' i))%nat)
         (seq 0 (length (Conveyors b))).

(** The lane into which the call [bus.Produce(ev)] that drew [r] put its
    event, read off the bus that the call leaves: the lane that has grown.
    [None] when the call did not return or left every lane as it was. *)
Definition Produce_target (b : MainBus) (ev : Event) (r : Z) : option nat :=
  match Produce b ev r with
  | Done b' => head (grown b b')
  | _ => None
  end.

(** The same for calls in a row, each on the bus the one before left. *)
Fixpoint Produce_targets (b : MainBus) (calls : list (Event * Z)) : list (option nat) :=
  match calls with
  | [] => []
  | (ev, r) :: rest =>
      Produce_target b ev r ::
      match Produce b ev r with
      | Done b' => Produce_targets b' rest
      | _ => []
      end
  end.

(** Every lane is open and has room for [m] more events. *)
Definition has_room (m : nat) (b : MainBus) : Prop :=
  Forall (fun c => closed c = false /\ Z.of_nat (length (buf c) + m) <= cap c)
         (Conveyors b).

(** How many elements of a finite sample space satisfy [P]. *)
Definition count {A} (P : A -> Prop) `{!forall x, Decision (P x)} (space : list A) : nat :=
  length (filter P space).

(** The raw draws of the random source: [k] whole rounds of the [n]
    residues, each draw as likely as any other. *)
Definition raw_draws (k n : nat) : list Z := seqZ 0 (Z.of_nat k * Z.of_nat n).

(** The sequences of [m] draws, one draw for each call. *)
Fixpoint draw_sequences (space : list Z) (m : nat) : list (list Z) :=
  match m with
  | O => [[]]
  | S m' => r ← space; (fun rs => r :: rs) <$> draw_sequences space m'
  end.

(** The probability of [P] when every element of the sample space is as
    likely as any other. *)
Definition probability {A} (P : A -> Prop) `{!forall x, Decision (P x)}
    (space : list A) : Q :=
  Qmake (Z.of_nat (count P space)) (Pos.of_nat (length space)).

(** * Proofs *)

(** ** Construction *)

Lemma max_chan_size_value : GoRuntime.max_chan_size = 2 ^ 42 - 2.
Proof. reflexivity. Qed.

Lemma make_chan_Ok size :
  0 <= size <= GoRuntime.max_chan_size -> make_chan size = Ok (fresh size).
Proof.
  rewrite max_chan_size_value. intros Hs. unfold make_chan.
  unfold GoRuntime.max_alloc, GoRuntime.hchan_size, GoRuntime.event_size.
  destruct (Z.ltb_spec size 0); [lia|].
  destruct (Z.ltb_spec (2 ^ 48 - 96) (64 * size)); [lia | done].
Qed.

Lemma make_chan_Panic size :
  size < 0 \/ GoRuntime.max_chan_size < size -> make_chan size = Panic MakechanSize.
Proof.
  rewrite max_chan_size_value. intros Hs. unfold make_chan.
  unfold GoRuntime.max_alloc, GoRuntime.hchan_size, GoRuntime.event_size.
  destruct (Z.ltb_spec size 0); [done|].
  destruct (Z.ltb_spec (2 ^ 48 - 96) (64 * size)); [done | lia].
Qed.

Lemma alloc_conveyors_ok n buffer convs :
  0 <= buffer <= GoRuntime.max_chan_size ->
  alloc_conveyors n buffer convs =
    Ok (convs ++ replicate n (fresh buffer)).
Proof.
  intros Hb. revert convs. induction n as [|n IH]; intros convs; simpl.
  - by rewrite app_nil_r.
  - rewrite make_chan_Ok by done.
    rewrite IH. by rewrite <- app_assoc.
Qed.

Lemma alloc_conveyors_panic n buffer convs :
  buffer < 0 \/ GoRuntime.max_chan_size < buffer ->
  alloc_conveyors (S n) buffer convs = Panic MakechanSize.
Proof. intros Hb. simpl. by rewrite make_chan_Panic. Qed.

Lemma rem2_even n : (GoInt.rem n 2 =? 0) = Z.even n.
Proof.
  unfold GoInt.rem.
  destruct (Z.eqb_spec (Z.rem n 2) 0) as [H|H].
  - symmetry. apply Z.even_spec. apply Z.rem_divide in H; [|lia].
    destruct H as [k ->]. exists k. lia.
  - symmetry. apply not_true_is_false. intros He. apply H.
    apply Z.even_spec in He. destruct He as [k ->].
    rewrite Z.mul_comm. apply Z.rem_mul. lia.
Qed.

Lemma incr_small n : GoInt.min_int <= n < GoInt.max_int -> GoInt.incr n = n + 1.
Proof.
  unfold GoInt.incr, GoInt.wrap, GoInt.min_int, GoInt.max_int, GoInt.bits.
  intros H. rewrite Z.mod_small; lia.
Qed.

Lemma NewMainBus_alloc resource lines buffer :
  0 <= buffer <= GoRuntime.max_chan_size \/ Z.to_nat (if GoInt.rem lines 2 =? 0 then lines else GoInt.incr lines) = 0%nat ->
  NewMainBus resource lines buffer =
    Ok {| Resource := resource;
          Conveyors := replicate
            (Z.to_nat (if GoInt.rem lines 2 =? 0 then lines else GoInt.incr lines))
            (fresh buffer) |}.
Proof.
  intros H. unfold NewMainBus. cbv zeta.
  destruct H as [H|H].
  - by rewrite alloc_conveyors_ok.
  - by rewrite H.
Qed.

(** With at least one lane to allocate, a capacity that is negative or
    above the largest channel size always ends in the panic of [make]. *)
Lemma make_panics_outside_limits resource N capacity :
  1 <= N < GoInt.max_int ->
  capacity < 0 \/ GoRuntime.max_chan_size < capacity ->
  NewMainBus resource N capacity = Panic MakechanSize.
Proof.
  intros HN Hcap. unfold NewMainBus. cbv zeta.
  assert (Hincr : GoInt.incr N = N + 1).
  { apply incr_small. unfold GoInt.min_int, GoInt.bits in *. simpl. lia. }
  destruct (Z.to_nat (if GoInt.rem N 2 =? 0 then N else GoInt.incr N)) as [|n] eqn:Hn.
  - destruct (GoInt.rem N 2 =? 0); lia.
  - by rewrite alloc_conveyors_panic.
Qed.

(** C1, as amended: for every requested lane count [N] with
    [0 <= N < max_int] and every capacity from 0 up to the largest size
    that [make] accepts for a channel of events, [2^42 - 2] (or any
    capacity at all when [N = 0]), [NewMainBus] returns a bus that carries
    the resource name and has [N] lanes when [N] is even and [N+1] when [N]
    is odd, each lane empty, open and of the given capacity; [N = 0] gives
    the bus without lanes.  With [N >= 1] and a capacity that is negative
    or above that size, construction fails: [make] panics. *)
Theorem NewMainBus_lane_count resource N capacity :
  0 <= N < GoInt.max_int ->
  (0 <= capacity <= GoRuntime.max_chan_size \/ N = 0 ->
   exists b,
     NewMainBus resource N capacity = Ok b /\
     Resource b = resource /\
     Z.of_nat (length (Conveyors b)) = even_lanes N /\
     Forall (fun c => c = fresh capacity) (Conveyors b) /\
     (N = 0 -> Conveyors b = [])) /\
  (1 <= N -> capacity < 0 \/ GoRuntime.max_chan_size < capacity ->
   NewMainBus resource N capacity = Panic MakechanSize).
Proof.
  intros HN. split; [|intros HN1 Hcap; apply make_panics_outside_limits; [lia | done]].
  intros Hcap. eexists. split.
  - apply NewMainBus_alloc. destruct Hcap as [?| ->]; [by left | by right].
  - rewrite rem2_even. unfold even_lanes. simpl.
    rewrite length_replicate.
    assert (Hincr : GoInt.incr N = N + 1).
    { apply incr_small. unfold GoInt.min_int, GoInt.bits in *. simpl. lia. }
    rewrite Hincr.
    repeat split.
    + destruct (Z.even N); lia.
    + apply Forall_replicate. done.
    + intros ->. done.
Qed.

(** The theorem at the scenario's request: three lanes asked, capacity 5. *)
Lemma NewMainBus_lane_count_witness :
  exists b,
    NewMainBus "iron" 3 5 = Ok b /\
    Resource b = "iron"%string /\
    Z.of_nat (length (Conveyors b)) = even_lanes 3 /\
    Forall (fun c => c = fresh 5) (Conveyors b) /\
    (3 = 0 -> Conveyors b = []).
Proof.
  apply (NewMainBus_lane_count "iron" 3 5).
  - unfold GoInt.max_int, GoInt.bits. simpl. lia.
  - left. rewrite max_chan_size_value. lia.
Defined.

(** C1 as stated fails: one lane asked with capacity -1, both of them
    [int]s and the count not negative, and [make] panics. *)
Lemma NewMainBus_negative_capacity :
  0 <= 1 /\ GoInt.in_range 1 /\ GoInt.in_range (-1) /\
  NewMainBus "iron" 1 (-1) = Panic MakechanSize /\
  ~ exists b, NewMainBus "iron" 1 (-1) = Ok b /\
              Z.of_nat (length (Conveyors b)) = even_lanes 1.
Proof.
  split; [lia|]. split; [by vm_compute|]. split; [by vm_compute|].
  split; [reflexivity|].
  intros (b & Hb & _). vm_compute in Hb. discriminate.
Qed.

(** It fails as well, with the same panic, for a capacity that is not
    negative but too large: two lanes asked with capacity [2^42], or with
    the largest [int]. *)
Lemma NewMainBus_large_capacity :
  NewMainBus "iron" 2 (2 ^ 42) = Panic MakechanSize /\
  NewMainBus "iron" 2 GoInt.max_int = Panic MakechanSize /\
  NewMainBus "iron" 2 (2 ^ 42 - 2)
  = Ok {| Resource := "iron"; Conveyors := replicate 2 (fresh (2 ^ 42 - 2)) |}.
Proof. repeat split; reflexivity. Qed.

(** At the largest [int] the increment wraps to the smallest one and the
    loop does not run. *)
Lemma NewMainBus_max_int resource capacity :
  NewMainBus resource GoInt.max_int capacity =
    Ok {| Resource := resource; Conveyors := [] |}.
Proof. reflexivity. Qed.

(** C9: for every negative lane count that is an [int], and every capacity,
    [NewMainBus] returns the bus without lanes: the count stays at most
    zero after the odd correction, so no channel is made. *)
Theorem NewMainBus_negative_lines resource N capacity :
  GoInt.in_range N ->
  N < 0 ->
  NewMainBus resource N capacity = Ok {| Resource := resource; Conveyors := [] |}.
Proof.
  intros [Hlo _] Hneg.
  rewrite NewMainBus_alloc.
  - assert (H0 : Z.to_nat (if GoInt.rem N 2 =? 0 then N else GoInt.incr N) = 0%nat).
    { destruct (GoInt.rem N 2 =? 0); [lia|].
      rewrite incr_small; [lia|].
      unfold GoInt.max_int, GoInt.bits. simpl. lia. }
    by rewrite H0.
  - right. destruct (GoInt.rem N 2 =? 0); [lia|].
    rewrite incr_small; [lia|].
    unfold GoInt.max_int, GoInt.bits. simpl. lia.
Qed.

Lemma NewMainBus_negative_lines_witness :
  NewMainBus "iron" (-3) (-1) = Ok {| Resource := "iron"; Conveyors := [] |}.
Proof.
  apply (NewMainBus_negative_lines "iron" (-3) (-1)).
  - unfold GoInt.in_range, GoInt.min_int, GoInt.max_int, GoInt.bits. simpl. lia.
  - lia.
Defined.

(** ** A bus without lanes *)

Lemma at_index_nil i : at_index [] i = Panic (IndexOutOfRange i 0).
Proof. unfold at_index. by destruct (i <? 0). Qed.

Lemma Produce_pick_nil b r : Conveyors b = [] -> Produce_pick b r = Ok None.
Proof. intros H. unfold Produce_pick. by rewrite H. Qed.

Lemma step_zero_lanes s l c :
  Conveyors (bus s) = [] ->
  step (Live s) l c ->
  routed_at l = None /\ (forall n, deq_at n l = None) /\
  (forall s', c = Live s' -> bus s' = bus s).
Proof.
  intros Hz Hstep. inversion Hstep as [s0 ch l0 c0 Hfn]; subst.
  destruct ch as [p r|k|p k]; simpl in Hfn.
  - unfold step_prod in Hfn.
    destruct (producers s !! p) as [[|[ev|idx ev|i] rest]|]; try discriminate.
    + rewrite Produce_pick_nil in Hfn by done. simplify_eq. 
      repeat split; try done. intros s' [= <-]. done.
    + unfold Produce_send in Hfn. rewrite Hz, at_index_nil in Hfn. simplify_eq.
      done.
    + rewrite Hz in Hfn. simpl in Hfn. simplify_eq.
      repeat split; try done. intros s' [= <-]. done.
  - unfold step_cons in Hfn.
    destruct (consumers s !! k) as [[line|]|]; try discriminate.
    unfold Consume_iter in Hfn. rewrite Hz, at_index_nil in Hfn. simplify_eq. done.
  - unfold step_handoff in Hfn.
    destruct (producers s !! p) as [[|[ev|idx ev|i] rest]|]; try discriminate.
    destruct (consumers s !! k) as [[line|]|]; try discriminate.
    case_decide; [|discriminate].
    rewrite Hz, at_index_nil in Hfn. discriminate.
Qed.

Lemma routed_snoc tr l : routed (tr ++ [l]) = routed tr ++ opt_list (routed_at l).
Proof. unfold routed. rewrite omap_app. simpl. by destruct (routed_at l). Qed.

Lemma enqs_snoc n tr l : enqs n (tr ++ [l]) = enqs n tr ++ opt_list (enq_at n l).
Proof. unfold enqs. rewrite omap_app. simpl. by destruct (enq_at n l). Qed.

Lemma deqs_snoc n tr l : deqs n (tr ++ [l]) = deqs n tr ++ opt_list (deq_at n l).
Proof. unfold deqs. rewrite omap_app. simpl. by destruct (deq_at n l). Qed.

Lemma exec_zero_lanes s tr c :
  Conveyors (bus s) = [] ->
  exec (Live s) tr c ->
  routed tr = [] /\ (forall n, deqs n tr = []) /\
  (forall s', c = Live s' -> bus s' = bus s).
Proof.
  intros Hz Hex. remember (Live s) as c0 eqn:Hc0.
  induction Hex as [|c0 tr c' l c'' Hex IH Hstep]; subst.
  - repeat split; try done. by intros s' [= <-].
  - destruct (IH eq_refl) as (Hr & Hd & Hb).
    inversion Hstep as [s1 ch l0 c0 Hfn]; subst.
    specialize (Hb s1 eq_refl).
    destruct (step_zero_lanes s1 l c'') as (Hr' & Hd' & Hb'); [congruence|done|].
    rewrite routed_snoc, Hr, Hr'. repeat split; try done.
    + intros n. by rewrite deqs_snoc, Hd, Hd'.
    + intros s' ->. rewrite (Hb' s' eq_refl). done.
Qed.

(** C6: on a bus without lanes every call of [Produce] returns at once and
    leaves the bus as it was: it neither blocks nor panics, whatever the
    event and the state of the random source, and so does any number of
    calls in a row.  In the running system a producer's call is one step
    that touches nothing but the caller's own program, and no execution
    sends an event into a lane or delivers one to a consumer. *)
Theorem Produce_zero_lanes b :
  Conveyors b = [] ->
  (forall ev r, Produce b ev r = Done b) /\
  (forall calls, Produce_all b calls = Done b) /\
  (forall s p r ev rest,
      bus s = b -> producers s !! p = Some (IProduce ev :: rest) ->
      step_fn (RunProd p r) s = Some (LNoop p ev, Live (set_prog s p rest))) /\
  (forall s tr c,
      bus s = b -> exec (Live s) tr c ->
      routed tr = [] /\ (forall n, deqs n tr = []) /\
      (forall s', c = Live s' -> bus s' = b)).
Proof.
  intros Hz.
  assert (H1 : forall ev r, Produce b ev r = Done b).
  { intros ev r. unfold Produce. by rewrite Produce_pick_nil. }
  split; [exact H1|]. split; [|split].
  - intros calls. induction calls as [|[ev r] calls IH]; [done|].
    simpl. by rewrite H1.
  - intros s p r ev rest <- Hp. simpl. unfold step_prod.
    rewrite Hp. by rewrite Produce_pick_nil.
  - intros s tr c <- Hex. by apply exec_zero_lanes.
Qed.

Lemma Produce_zero_lanes_witness :
  Produce {| Resource := "iron"; Conveyors := [] |}
          (Event.mk 0 "iron" (AnyString "Iron Plate") 0) 7
  = Done {| Resource := "iron"; Conveyors := [] |}.
Proof.
  apply (Produce_zero_lanes {| Resource := "iron"; Conveyors := [] |}).
  reflexivity.
Defined.

(** ** Lane selection *)

Lemma at_index_Ok convs i c :
  at_index convs i = Ok c <-> 0 <= i /\ convs !! Z.to_nat i = Some c.
Proof.
  unfold at_index. destruct (Z.ltb_spec i 0).
  - split; [done | lia].
  - destruct (convs !! Z.to_nat i).
    + split; [by intros [= ->] | by intros [_ [= ->]]].
    + split; [done | by intros [_ ?]].
Qed.

Lemma at_index_in_range convs i :
  0 <= i < Z.of_nat (length convs) -> exists c, at_index convs i = Ok c.
Proof.
  intros Hi. destruct (lookup_lt_is_Some_2 convs (Z.to_nat i)) as [c Hc]; [lia|].
  exists c. apply at_index_Ok. split; [lia | done].
Qed.

Lemma Produce_pick_lanes b r :
  Conveyors b <> [] ->
  Produce_pick b r = Ok (Some (r mod Z.of_nat (length (Conveyors b)))).
Proof.
  intros Hne. unfold Produce_pick, Intn.
  assert (0 < Z.of_nat (length (Conveyors b))).
  { destruct (Conveyors b); [done | simpl; lia]. }
  destruct (Z.eqb_spec (Z.of_nat (length (Conveyors b))) 0); [lia|].
  destruct (Z.leb_spec (Z.of_nat (length (Conveyors b))) 0); [lia|]. done.
Qed.

(** ** What a call of Produce may change *)

Lemma chansend_SendOk c ev c' :
  chansend c ev = SendOk c' ->
  closed c = false /\ Z.of_nat (length (buf c)) < cap c /\
  c' = {| buf := buf c ++ [ev]; cap := cap c; closed := closed c |}.
Proof.
  unfold chansend. destruct (closed c); [done|].
  destruct (Z.ltb_spec (Z.of_nat (length (buf c))) (cap c)); [|done].
  by intros [= <-].
Qed.

Lemma Produce_send_Done b idx ev b' :
  Produce_send b idx ev = Done b' ->
  exists c, 0 <= idx /\ Conveyors b !! Z.to_nat idx = Some c /\
            closed c = false /\ Z.of_nat (length (buf c)) < cap c /\
            b' = set_lane b (Z.to_nat idx)
                   {| buf := buf c ++ [ev]; cap := cap c; closed := closed c |}.
Proof.
  unfold Produce_send. destruct (at_index (Conveyors b) idx) as [c|] eqn:Hc; [|done].
  apply at_index_Ok in Hc as [Hi Hc].
  destruct (chansend c ev) as [c'| |] eqn:Hs; try done.
  apply chansend_SendOk in Hs as (Ho & Hl & ->).
  intros [= <-]. by exists c.
Qed.

Lemma set_lane_frame b i c :
  Resource (set_lane b i c) = Resource b /\
  length (Conveyors (set_lane b i c)) = length (Conveyors b) /\
  (forall j, i <> j -> Conveyors (set_lane b i c) !! j = Conveyors b !! j).
Proof.
  unfold set_lane; simpl. split; [done|]. split; [apply length_insert|].
  intros j Hj. by apply list_lookup_insert_ne.
Qed.

Lemma step_Produce_frame s p prog ch l s' :
  producers s !! p = Some prog ->
  in_Produce prog ->
  sender ch = Some p ->
  step_fn ch s = Some (l, Live s') ->
  Resource (bus s') = Resource (bus s) /\
  length (Conveyors (bus s')) = length (Conveyors (bus s)) /\
  (forall j, target l <> Some j ->
     Conveyors (bus s') !! j = Conveyors (bus s) !! j) /\
  consumers s' = consumers s /\ wg s' = wg s /\
  (forall q, q <> p -> producers s' !! q = producers s !! q).
Proof.
  intros Hp Hin Hch Hfn.
  assert (Hother : forall (b : MainBus) prog', forall q, q <> p ->
            producers (set_prog (set_bus s b) p prog') !! q = producers s !! q).
  { intros b prog' q Hq. simpl. by apply list_lookup_insert_ne. }
  destruct ch as [p0 r|k|p0 k]; simpl in Hch; simplify_eq; simpl in Hfn.
  - unfold step_prod in Hfn. rewrite Hp in Hfn.
    destruct prog as [|[ev|idx ev|i] rest]; try done.
    + destruct (Produce_pick (bus s) r) as [[idx|]|]; simplify_eq; simpl;
        repeat split; try done; intros q Hq; by apply list_lookup_insert_ne.
    + destruct (Produce_send (bus s) idx ev) as [b'| |] eqn:Hs; simplify_eq.
      apply Produce_send_Done in Hs as (c & Hi & Hc & _ & _ & ->).
      destruct (set_lane_frame (bus s) (Z.to_nat idx)
                  {| buf := buf c ++ [ev]; cap := cap c; closed := closed c |})
        as (Hr & Hl & Hj).
      simpl. repeat split; try done.
      * intros j Hne. apply Hj. congruence.
      * intros q Hq. by apply list_lookup_insert_ne.
  - unfold step_handoff in Hfn. rewrite Hp in Hfn.
    destruct prog as [|[ev|idx ev|i] rest]; try done.
    repeat case_match; simplify_eq. simpl.
    repeat split; try done. intros q Hq. by apply list_lookup_insert_ne.
Qed.

(** C10: a call of [Produce] that returns leaves the bus's resource name and
    its number of lanes as they were, and every lane but the selected one
    as it was; the selected lane keeps its capacity and stays open, and
    holds the event behind what it held.  The same goes for each step the
    call takes in the running system, hand-over to a waiting consumer
    included: the name, the lane count and every lane but the one sent into
    are unchanged, and so are the consumers, the wait group and the other
    producers. *)
Theorem Produce_frame :
  (forall b ev r b',
     Produce b ev r = Done b' ->
     Resource b' = Resource b /\
     length (Conveyors b') = length (Conveyors b) /\
     (forall j, selected b r <> Some j -> Conveyors b' !! j = Conveyors b !! j) /\
     (forall j c, selected b r = Some j -> Conveyors b !! j = Some c ->
        Conveyors b' !! j =
          Some {| buf := buf c ++ [ev]; cap := cap c; closed := false |})) /\
  (forall s p prog ch l s',
     producers s !! p = Some prog -> in_Produce prog -> sender ch = Some p ->
     step_fn ch s = Some (l, Live s') ->
     Resource (bus s') = Resource (bus s) /\
     length (Conveyors (bus s')) = length (Conveyors (bus s)) /\
     (forall j, target l <> Some j ->
        Conveyors (bus s') !! j = Conveyors (bus s) !! j) /\
     consumers s' = consumers s /\ wg s' = wg s /\
     (forall q, q <> p -> producers s' !! q = producers s !! q)).
Proof.
  split; [|apply step_Produce_frame].
  intros b ev r b'. unfold Produce, selected.
  destruct (Produce_pick b r) as [[idx|]|]; [| |done].
  - intros Hs. apply Produce_send_Done in Hs as (c & Hi & Hc & Ho & _ & ->).
    destruct (set_lane_frame b (Z.to_nat idx)
                {| buf := buf c ++ [ev]; cap := cap c; closed := closed c |})
      as (Hr & Hl & Hj).
    repeat split; try done.
    + intros j Hne. apply Hj. congruence.
    + intros j c0 [= <-] Hc0. simplify_eq. simpl.
      rewrite list_lookup_insert_eq; [by rewrite Ho|].
      by apply lookup_lt_Some in Hc.
  - intros [= <-]. repeat split; done.
Qed.

Lemma Produce_frame_witness :
  let b := {| Resource := "iron"; Conveyors := replicate 4 (fresh 5) |} in
  let ev := Event.mk 0 "iron" (AnyString "Iron Plate") 0 in
  Produce b ev 6 = Done (set_lane b 2 {| buf := [ev]; cap := 5; closed := false |}) /\
  Resource (set_lane b 2 {| buf := [ev]; cap := 5; closed := false |}) = Resource b.
Proof.
  intros b ev. split; [reflexivity|].
  apply (proj1 Produce_frame b ev 6). reflexivity.
Defined.

(** ** Close, and Produce after it *)

Lemma close_all_Ok convs convs' :
  close_all convs = Ok convs' <->
  Forall (fun c => closed c = false) convs /\ convs' = map shut convs.
Proof.
  revert convs'. induction convs as [|c convs IH]; intros convs'; simpl.
  - split; [by intros [= <-] | by intros [_ ->]].
  - unfold closechan. destruct (closed c) eqn:Hc.
    + split; [done|]. intros [H _]. inversion H; congruence.
    + destruct (close_all convs) as [rest|] eqn:Hrest.
      * destruct (proj1 (IH rest) eq_refl) as [Hall ->].
        split.
        -- intros [= <-]. split; [by constructor | done].
        -- by intros [_ ->].
      * split; [done|]. intros [H _]. inversion H as [|? ? _ Hall]; subst.
        by pose proof (proj2 (IH (map shut convs)) (conj Hall eq_refl)).
Qed.

Lemma Close_Ok b b' :
  Close b = Ok b' <->
  Forall (fun c => closed c = false) (Conveyors b) /\
  b' = {| Resource := Resource b; Conveyors := map shut (Conveyors b) |}.
Proof.
  unfold Close. destruct (close_all (Conveyors b)) as [convs|] eqn:H.
  - apply close_all_Ok in H as [Hall ->]. split; [by intros [= <-] | by intros [_ ->]].
  - split; [done|]. intros [Hall _].
    pose proof (proj2 (close_all_Ok (Conveyors b) _) (conj Hall eq_refl)). congruence.
Qed.

Lemma Produce_send_closed b idx ev c :
  at_index (Conveyors b) idx = Ok c -> closed c = true ->
  Produce_send b idx ev = Fatal SendOnClosed.
Proof.
  intros Hc Hcl. unfold Produce_send, chansend. by rewrite Hc, Hcl.
Qed.

(** C5, as amended: on a bus with at least one lane, all lanes closed, a call
    of [Produce] ends in the run time's panic "send on closed channel",
    whatever the event, the draw and the contents of the lanes; the event is
    not put into a lane and not handed to a consumer, and the process ends
    with the step.  The message names the channel operation and is the same
    for every resource name. *)
Theorem Produce_after_close b ev r :
  Conveyors b <> [] ->
  Forall (fun c => closed c = true) (Conveyors b) ->
  Produce b ev r = Fatal SendOnClosed /\
  panic_message SendOnClosed = "send on closed channel"%string /\
  contains "send" (panic_message SendOnClosed) = true /\
  (forall name,
     Produce {| Resource := name; Conveyors := Conveyors b |} ev r
     = Fatal SendOnClosed) /\
  (forall s p k rest,
     bus s = b -> producers s !! p = Some (IProduce ev :: rest) ->
     exists idx s',
       step_fn (RunProd p r) s = Some (LPick p idx, Live s') /\
       bus s' = b /\
       producers s' !! p = Some (ISend idx ev :: rest) /\
       step_fn (Handoff p k) s' = None /\
       forall r', step_fn (RunProd p r') s'
                  = Some (LPanic SendOnClosed, Crashed SendOnClosed)).
Proof.
  intros Hne Hall.
  assert (Hfatal : forall name,
     Produce {| Resource := name; Conveyors := Conveyors b |} ev r
     = Fatal SendOnClosed).
  { intros name. unfold Produce.
    rewrite Produce_pick_lanes by done. simpl.
    destruct (at_index_in_range (Conveyors b)
                (r mod Z.of_nat (length (Conveyors b)))) as [c Hc].
    { apply Z.mod_pos_bound. destruct (Conveyors b); [done | simpl; lia]. }
    eapply Produce_send_closed; [exact Hc|].
    apply at_index_Ok in Hc as [_ Hc].
    by eapply (Forall_lookup_1 _ _ _ _ Hall). }
  split. { destruct b as [name convs]. apply (Hfatal name). }
  split; [done|]. split; [done|]. split; [exact Hfatal|].
  intros s p k rest <- Hp.
  set (idx := r mod Z.of_nat (length (Conveyors (bus s)))).
  destruct (at_index_in_range (Conveyors (bus s)) idx) as [c Hc].
  { apply Z.mod_pos_bound. destruct (Conveyors (bus s)); [done | simpl; lia]. }
  assert (Hcl : closed c = true).
  { apply at_index_Ok in Hc as [_ Hc]. by eapply (Forall_lookup_1 _ _ _ _ Hall). }
  assert (Hlt : (p < length (producers s))%nat) by by apply lookup_lt_Some in Hp.
  exists idx, (set_prog s p (ISend idx ev :: rest)).
  split; [|split; [done|split; [|split]]].
  - simpl. unfold step_prod. rewrite Hp. by rewrite Produce_pick_lanes.
  - simpl. by rewrite list_lookup_insert_eq.
  - simpl. unfold step_handoff. simpl. rewrite list_lookup_insert_eq by done.
    destruct (consumers s !! k) as [[line|]|]; try done.
    case_decide; [|done]. by rewrite Hc, Hcl.
  - intros r'. simpl. unfold step_prod. simpl. rewrite list_lookup_insert_eq by done.
    by rewrite (Produce_send_closed _ _ _ c).
Qed.

(** The theorem on the two-lane bus "iron" after [Close]. *)
Lemma Produce_after_close_witness :
  let b := {| Resource := "iron"; Conveyors := replicate 2 (shut (fresh 5)) |} in
  Close {| Resource := "iron"; Conveyors := replicate 2 (fresh 5) |} = Ok b /\
  Produce b (Event.mk 0 "iron" (AnyString "Iron Plate") 0) 7 = Fatal SendOnClosed.
Proof.
  intros b. split; [reflexivity|].
  apply (Produce_after_close b (Event.mk 0 "iron" (AnyString "Iron Plate") 0) 7).
  - done.
  - repeat constructor.
Defined.

(** C5 as stated fails: on the closed two-lane bus "iron" the call panics,
    and the panic's message does not contain the resource name. *)
Lemma closed_bus_panic_omits_resource :
  let b := {| Resource := "iron"; Conveyors := replicate 2 (shut (fresh 5)) |} in
  let ev := Event.mk 0 "iron" (AnyString "Iron Plate") 0 in
  NewMainBus "iron" 2 5 = Ok {| Resource := "iron"; Conveyors := replicate 2 (fresh 5) |} /\
  Close {| Resource := "iron"; Conveyors := replicate 2 (fresh 5) |} = Ok b /\
  Produce b ev 0 = Fatal SendOnClosed /\
  ~ exists p, Produce b ev 0 = Fatal p /\
              contains (Resource b) (panic_message p) = true.
Proof.
  intros b ev. split; [reflexivity|]. split; [reflexivity|]. split; [reflexivity|].
  intros (p & Hp & Hc). vm_compute in Hp. injection Hp as <-.
  vm_compute in Hc. discriminate.
Qed.

(** On a closed bus without lanes the call is the silent return of a bus
    without lanes, not a panic. *)
Lemma closed_empty_bus_is_silent ev r :
  Close {| Resource := "iron"; Conveyors := [] |}
    = Ok {| Resource := "iron"; Conveyors := [] |} /\
  Produce {| Resource := "iron"; Conveyors := [] |} ev r
    = Done {| Resource := "iron"; Conveyors := [] |}.
Proof. split; reflexivity. Qed.

(** ** Close, step by step *)

(** The steps of a call of [Close], taken without interruption, are the
    call: lane after lane is closed, and the bus at the end is the one
    [Close] returns. *)
Lemma Close_by_steps m : forall s p i rest,
  producers s !! p = Some (IClose i :: rest) ->
  (length (Conveyors (bus s)) - i = m)%nat ->
  (forall j c, Conveyors (bus s) !! j = Some c -> (i <= j)%nat -> closed c = false) ->
  exists tr s',
    run (replicate (S m) (RunProd p 0)) (Live s) = (tr, Live s') /\
    producers s' = <[p := rest]> (producers s) /\
    Conveyors (bus s')
      = take i (Conveyors (bus s)) ++ map shut (drop i (Conveyors (bus s))) /\
    Resource (bus s') = Resource (bus s) /\
    consumers s' = consumers s /\ wg s' = wg s.
Proof.
  induction m as [|m IH]; intros s p i rest Hp Hm Hopen.
  - assert (Hnone : Conveyors (bus s) !! i = None) by (apply lookup_ge_None; lia).
    eexists _, _. simpl. unfold step_prod. rewrite Hp, Hnone.
    split; [done|]. simpl. repeat split; try done.
    rewrite take_ge, drop_ge by lia. by rewrite app_nil_r.
  - destruct (lookup_lt_is_Some_2 (Conveyors (bus s)) i) as [c Hc]; [lia|].
    pose proof (Hopen i c Hc (le_n i)) as Ho.
    pose proof (lookup_lt_Some _ _ _ Hp) as Hplt.
    set (s1 := set_prog (set_bus s (set_lane (bus s) i (shut c))) p (IClose (S i) :: rest)).
    destruct (IH s1 p (S i) rest) as (tr & s' & Hrun & Hprods & Hconvs & Hres & Hcons & Hwg).
    { simpl. by apply list_lookup_insert_eq. }
    { simpl. rewrite length_insert. lia. }
    { simpl. intros j c' Hj Hij. rewrite list_lookup_insert_ne in Hj by lia.
      apply (Hopen j c' Hj). lia. }
    exists (LCloseLane p i :: tr), s'.
    change (replicate (S (S m)) (RunProd p 0))
      with (RunProd p 0 :: replicate (S m) (RunProd p 0)).
    cbn [run]. simpl step_fn. unfold step_prod, closechan. rewrite Hp, Hc, Ho.
    fold s1. rewrite Hrun. split; [done|].
    split; [by rewrite Hprods; simpl; rewrite list_insert_insert_eq|].
    split; [|done]. rewrite Hconvs. simpl.
    rewrite take_insert_lt, drop_insert_lt by lia.
    rewrite (take_S_r _ _ c), (drop_S _ _ _ Hc) by done. simpl.
    assert (Hi : length (take i (Conveyors (bus s))) = i).
    { rewrite length_take. apply lookup_lt_Some in Hc. lia. }
    rewrite insert_app_r_alt by lia. rewrite Hi, Nat.sub_diag. simpl.
    by rewrite <- app_assoc.
Qed.
Lemma Close_is_steps s p rest b' :
  producers s !! p = Some (IClose 0 :: rest) ->
  Close (bus s) = Ok b' ->
  exists tr s',
    run (replicate (S (length (Conveyors (bus s)))) (RunProd p 0)) (Live s)
      = (tr, Live s') /\
    bus s' = b' /\ producers s' = <[p := rest]> (producers s) /\
    consumers s' = consumers s /\ wg s' = wg s.
Proof.
  intros Hp Hclose. apply Close_Ok in Hclose as [Hopen ->].
  destruct (Close_by_steps (length (Conveyors (bus s))) s p 0%nat rest)
    as (tr & s' & Hrun & Hprods & Hconvs & Hres & Hcons & Hwg); [done|lia| |].
  { intros j c Hc _. by apply (Forall_lookup_1 _ _ _ _ Hopen Hc). }
  exists tr, s'. split; [done|]. split; [|done].
  destruct (bus s') as [name convs]. simpl in *. by rewrite Hres, Hconvs.
Qed.

(** ** First in, first out *)

Lemma Consume_iter_Deliver b line out b' :
  Consume_iter b line = IterDeliver out b' ->
  exists c rest,
    0 <= line /\ Conveyors b !! Z.to_nat line = Some c /\
    buf c = printed_event out :: rest /\
    printed_resource out = Resource b /\ printed_line out = line /\
    b' = set_lane b (Z.to_nat line) {| buf := rest; cap := cap c; closed := closed c |}.
Proof.
  unfold Consume_iter. destruct (at_index (Conveyors b) line) as [c|] eqn:Hc; [|done].
  apply at_index_Ok in Hc as [Hl Hc]. unfold chanrecv.
  destruct (buf c) as [|ev rest] eqn:Hb.
  - by destruct (closed c).
  - intros [= <- <-]. by exists c, rest.
Qed.

Lemma Consume_iter_Exit b line :
  Consume_iter b line = IterExit <->
  exists c, 0 <= line /\ Conveyors b !! Z.to_nat line = Some c /\
            buf c = [] /\ closed c = true.
Proof.
  unfold Consume_iter. split.
  - destruct (at_index (Conveyors b) line) as [c|] eqn:Hc; [|done].
    apply at_index_Ok in Hc as [Hl Hc]. unfold chanrecv.
    destruct (buf c) as [|ev rest] eqn:Hb; [|done].
    destruct (closed c) eqn:Hcl; [|done]. intros _. by exists c.
  - intros (c & Hl & Hc & Hb & Hcl).
    rewrite (proj2 (at_index_Ok _ _ _) (conj Hl Hc)).
    unfold chanrecv. by rewrite Hb, Hcl.
Qed.

Lemma step_effect ch s l s' :
  step_fn ch s = Some (l, Live s') -> effect (bus s) l (bus s').
Proof.
  intros Hfn. destruct ch as [p r|k|p k]; simpl in Hfn.
  - unfold step_prod in Hfn.
    destruct (producers s !! p) as [[|[ev|idx ev|i] rest]|]; try done.
    + destruct (Produce_pick (bus s) r) as [[idx|]|]; simplify_eq; constructor.
    + destruct (Produce_send (bus s) idx ev) as [b'| |] eqn:Hs; simplify_eq.
      apply Produce_send_Done in Hs as (c & Hi & Hc & Ho & Hlt & ->).
      simpl. rewrite Ho. by econstructor.
    + destruct (Conveyors (bus s) !! i) as [c|] eqn:Hc; simplify_eq; [|constructor].
      unfold closechan in Hfn. destruct (closed c) eqn:Ho; simplify_eq.
      simpl. by econstructor.
  - unfold step_cons in Hfn.
    destruct (consumers s !! k) as [[line|]|]; try done.
    destruct (Consume_iter (bus s) line) as [out b'| | |] eqn:Hit; simplify_eq.
    + apply Consume_iter_Deliver in Hit as (c & rest & Hl & Hc & Hb & Hr & _ & ->).
      simpl. by econstructor.
    + apply Consume_iter_Exit in Hit as (c & Hl & Hc & Hb & Hcl).
      destruct (wg s - 1 <? 0); simplify_eq. simpl. by econstructor.
  - unfold step_handoff in Hfn.
    destruct (producers s !! p) as [[|[ev|idx ev|i] rest]|]; try done.
    destruct (consumers s !! k) as [[line|]|]; try done.
    case_decide; [|done].
    destruct (at_index (Conveyors (bus s)) idx) as [c|] eqn:Hc; [|done].
    apply at_index_Ok in Hc as [Hl Hc].
    destruct (closed c) eqn:Ho; [done|].
    destruct (buf c) eqn:Hb; simplify_eq. simpl. by econstructor.
Qed.

Lemma lane_buf_set_lane_eq b n c :
  (n < length (Conveyors b))%nat -> lane_buf (set_lane b n c) n = buf c.
Proof.
  intros H. unfold lane_buf, set_lane. simpl. by rewrite list_lookup_insert_eq.
Qed.

Lemma lane_buf_set_lane_ne b n m c :
  n <> m -> lane_buf (set_lane b n c) m = lane_buf b m.
Proof.
  intros H. unfold lane_buf, set_lane. simpl. by rewrite list_lookup_insert_ne.
Qed.

(** One step keeps the order: what the lane held and what the step puts in
    is what the step takes out followed by what the lane holds then. *)
Lemma effect_fifo b l b' n :
  effect b l b' ->
  lane_buf b n ++ opt_list (enq_at n l) = opt_list (deq_at n l) ++ lane_buf b' n.
Proof.
  intros Heff. destruct Heff as [p ev|p idx|p m ev c Hc Ho Hlt|p k m ev c Hc Ho Hb
                               |k m out c rest Hc Hb Hr|k m c Hc Hb Hcl
                               |p m c Hc Ho|p]; simpl;
    try (by rewrite app_nil_r).
  - case_decide as Hm; simpl.
    + subst m. rewrite lane_buf_set_lane_eq by by apply lookup_lt_Some in Hc.
      unfold lane_buf. by rewrite Hc.
    + rewrite lane_buf_set_lane_ne by done. by rewrite app_nil_r.
  - case_decide as Hm; simpl; [|by rewrite app_nil_r].
    subst m. unfold lane_buf. by rewrite Hc, Hb.
  - case_decide as Hm; simpl.
    + subst m. rewrite lane_buf_set_lane_eq by by apply lookup_lt_Some in Hc.
      unfold lane_buf. by rewrite Hc, Hb, app_nil_r.
    + rewrite lane_buf_set_lane_ne by done. by rewrite app_nil_r.
  - destruct (decide (m = n)) as [->|Hm].
    + rewrite lane_buf_set_lane_eq by by apply lookup_lt_Some in Hc.
      unfold lane_buf. by rewrite Hc, app_nil_r.
    + rewrite lane_buf_set_lane_ne by done. by rewrite app_nil_r.
Qed.

Lemma exec_fifo s tr s' n :
  exec (Live s) tr (Live s') ->
  lane_buf (bus s) n ++ enqs n tr = deqs n tr ++ lane_buf (bus s') n.
Proof.
  intros Hex. remember (Live s) as c0 eqn:Hc0. remember (Live s') as c1 eqn:Hc1.
  revert s' Hc1. induction Hex as [|c0 tr c' l c'' Hex IH Hstep]; intros s' Hc1; subst.
  - simplify_eq. by rewrite app_nil_r.
  - inversion Hstep as [s0 ch l0 c0 Hfn]; subst.
    rewrite enqs_snoc, deqs_snoc.
    rewrite app_assoc, (IH eq_refl s0 eq_refl), <- !app_assoc. f_equal.
    apply effect_fifo. by eapply step_effect.
Qed.

Lemma exec_trans c tr c' tr' c'' :
  exec c tr c' -> exec c' tr' c'' -> exec c (tr ++ tr') c''.
Proof.
  intros H1 H2. induction H2 as [|c0 tr0 c1 l c2 _ IH Hstep].
  - by rewrite app_nil_r.
  - rewrite app_assoc. econstructor; [by apply IH | done].
Qed.

Lemma exec_cons c l c' tr c'' :
  step c l c' -> exec c' tr c'' -> exec c (l :: tr) c''.
Proof.
  intros Hs Hex. change (l :: tr) with ([l] ++ tr).
  eapply exec_trans; [|done].
  change [l] with ([] ++ [l]). econstructor; [constructor | done].
Qed.

Lemma run_exec sched c : exec c (run sched c).1 (run sched c).2.
Proof.
  revert c. induction sched as [|ch sched IH]; intros c.
  - destruct c; constructor.
  - destruct c as [s|p]; [|constructor]. simpl.
    destruct (step_fn ch s) as [[l c']|] eqn:Hfn; [|apply IH].
    specialize (IH c'). destruct (run sched c') as [tr c'']. simpl in *.
    eapply exec_cons; [by econstructor | done].
Qed.

Lemma step_crash ch s l pn :
  step_fn ch s = Some (l, Crashed pn) -> l = LPanic pn.
Proof.
  intros Hfn. destruct ch as [p r|k|p k]; simpl in Hfn.
  - unfold step_prod in Hfn. repeat case_match; by simplify_eq.
  - unfold step_cons in Hfn. repeat case_match; by simplify_eq.
  - unfold step_handoff in Hfn. repeat case_match; by simplify_eq.
Qed.

(** An execution runs through live states; only its last step can be the
    panic that ends the process. *)
Lemma exec_live_prefix s tr c :
  exec (Live s) tr c ->
  exists tr0 s0,
    exec (Live s) tr0 (Live s0) /\
    (tr = tr0 /\ c = Live s0 \/ exists pn, tr = tr0 ++ [LPanic pn] /\ c = Crashed pn).
Proof.
  intros Hex. remember (Live s) as c0 eqn:Hc0.
  induction Hex as [|c0 tr c' l c'' Hex IH Hstep]; subst.
  - exists [], s. split; [constructor | by left].
  - inversion Hstep as [s1 ch l0 c0 Hfn]; subst.
    destruct c'' as [s2|pn].
    + exists (tr ++ [l]), s2. split; [by econstructor | by left].
    + apply step_crash in Hfn as ->. exists tr, s1. split; [done|]. right. by exists pn.
Qed.

Lemma enqs_panic n tr pn : enqs n (tr ++ [LPanic pn]) = enqs n tr.
Proof. by rewrite enqs_snoc, app_nil_r. Qed.

Lemma deqs_panic n tr pn : deqs n (tr ++ [LPanic pn]) = deqs n tr.
Proof. by rewrite deqs_snoc, app_nil_r. Qed.

(** C3: in every execution, for every lane, what the lane held at the
    start followed by the events sent into it, in the order of the sends, is
    the sequence of events its consumers received, in the order of receipt,
    followed by what the lane holds at the end.  On a lane that starts
    empty the events received are therefore, at every moment, the first
    ones sent into it in the same order, and once the lane is empty again
    they are all of them. *)
Theorem fifo_per_lane s tr c n :
  exec (Live s) tr c ->
  (forall s', c = Live s' ->
     lane_buf (bus s) n ++ enqs n tr = deqs n tr ++ lane_buf (bus s') n) /\
  (lane_buf (bus s) n = [] -> deqs n tr `prefix_of` enqs n tr) /\
  (forall s', c = Live s' -> lane_buf (bus s) n = [] -> lane_buf (bus s') n = [] ->
     deqs n tr = enqs n tr).
Proof.
  intros Hex. split; [|split].
  - intros s' ->. by apply exec_fifo.
  - intros Hempty. apply exec_live_prefix in Hex as (tr0 & s0 & Hex0 & Hend).
    pose proof (exec_fifo _ _ _ n Hex0) as Hfifo. rewrite Hempty in Hfifo. simpl in Hfifo.
    destruct Hend as [[-> _]|(pn & -> & _)].
    + rewrite Hfifo. by eexists.
    + rewrite enqs_panic, deqs_panic, Hfifo. by eexists.
  - intros s' -> Hempty Hempty'. pose proof (exec_fifo _ _ _ n Hex) as Hfifo.
    rewrite Hempty, Hempty', app_nil_r in Hfifo. done.
Qed.

Lemma fifo_per_lane_witness :
  let tr := (run sample_schedule (Live sample_start)).1 in
  enqs 0 tr = [iron 0; iron 1; iron 2] /\
  deqs 0 tr `prefix_of` enqs 0 tr /\
  deqs 0 tr = enqs 0 tr.
Proof.
  intros tr. split; [reflexivity|].
  destruct (fifo_per_lane sample_start tr
              (run sample_schedule (Live sample_start)).2 0
              (run_exec sample_schedule (Live sample_start)))
    as (_ & Hprefix & Hall).
  split.
  - apply Hprefix. reflexivity.
  - eapply Hall; reflexivity.
Defined.

(** ** Capacity *)

(** What every step keeps of a lane: its place in the bus, its capacity,
    the bound on its buffer, and that it is closed; a closed lane takes no
    event. *)
Lemma effect_lane b l b' n c :
  effect b l b' ->
  Conveyors b !! n = Some c ->
  exists c',
    Conveyors b' !! n = Some c' /\ cap c' = cap c /\
    (Z.of_nat (length (buf c)) <= cap c -> Z.of_nat (length (buf c')) <= cap c') /\
    (closed c = true -> closed c' = true /\ enq_at n l = None).
Proof.
  intros Heff Hn. pose proof (lookup_lt_Some _ _ _ Hn) as Hlen.
  destruct Heff as [p ev|p idx|p m ev c0 Hc Ho Hlt|p k m ev c0 Hc Ho Hb
                   |k m out c0 rest Hc Hb Hr|k m c0 Hc Hb Hcl
                   |p m c0 Hc Ho|p]; simpl;
    try (exists c; by repeat split).
  - destruct (decide (m = n)) as [->|Hm].
    + simplify_eq. eexists. rewrite list_lookup_insert_eq by done.
      split; [done|]. simpl. rewrite length_app. simpl.
      split; [done|]. split; [lia | congruence].
    + exists c. rewrite list_lookup_insert_ne by done.
      repeat split; try done; by rewrite decide_False.
  - exists c. repeat split; try done.
    case_decide; [|done]. simplify_eq. congruence.
  - destruct (decide (m = n)) as [->|Hm].
    + simplify_eq. eexists. rewrite list_lookup_insert_eq by done.
      split; [done|]. simpl. rewrite Hb. simpl. split; [done|]. split; [lia | done].
    + exists c. rewrite list_lookup_insert_ne by done. by repeat split.
  - destruct (decide (m = n)) as [->|Hm].
    + simplify_eq. eexists. rewrite list_lookup_insert_eq by done.
      by repeat split.
    + exists c. rewrite list_lookup_insert_ne by done. by repeat split.
Qed.

Lemma exec_lane s tr s' n c :
  exec (Live s) tr (Live s') ->
  Conveyors (bus s) !! n = Some c ->
  exists c',
    Conveyors (bus s') !! n = Some c' /\ cap c' = cap c /\
    (Z.of_nat (length (buf c)) <= cap c -> Z.of_nat (length (buf c')) <= cap c') /\
    (closed c = true -> closed c' = true /\ enqs n tr = []).
Proof.
  intros Hex Hn. remember (Live s) as c0 eqn:Hc0. remember (Live s') as c1 eqn:Hc1.
  revert s' Hc1. induction Hex as [|c0 tr c1 l c2 Hex IH Hstep]; intros s' Hc1; subst.
  - simplify_eq. exists c. by repeat split.
  - inversion Hstep as [s0 ch l0 c0 Hfn]; subst.
    destruct (IH eq_refl s0 eq_refl) as (c1 & Hn1 & Hcap1 & Hbound1 & Hclosed1).
    apply step_effect in Hfn.
    destruct (effect_lane _ _ _ _ _ Hfn Hn1) as (c2 & Hn2 & Hcap2 & Hbound2 & Hclosed2).
    exists c2. split; [done|]. split; [congruence|]. split.
    + intros H. apply Hbound2. rewrite Hcap1. rewrite <- Hcap1. by apply Hbound1.
    + intros H. destruct (Hclosed1 H) as [Hcl1 He1]. destruct (Hclosed2 Hcl1) as [Hcl2 He2].
      split; [done|]. by rewrite enqs_snoc, He1, He2.
Qed.

Lemma Produce_send_full b idx ev c :
  at_index (Conveyors b) idx = Ok c -> closed c = false ->
  cap c <= Z.of_nat (length (buf c)) ->
  Produce_send b idx ev = Blocked.
Proof.
  intros Hc Ho Hfull. unfold Produce_send, chansend. rewrite Hc, Ho.
  by destruct (Z.ltb_spec (Z.of_nat (length (buf c))) (cap c)); [lia|].
Qed.

(** C7: let a lane of capacity [C] be open and hold [C] events.  A send into
    it does not complete: the call of [Produce] that selected the lane
    parks, and in the running system the sender has no step of its own;
    with [C > 0] no consumer can take the event directly either.  In every
    execution from there, at every moment, the lane has taken no more new
    events than its consumers have removed from it, so the next event
    enters only after (with [C = 0]: in the very step in which) a consumer
    removes one.  And once a consumer of that lane has removed one event,
    the parked send can complete. *)
Theorem back_pressure s idx c :
  at_index (Conveyors (bus s)) idx = Ok c ->
  closed c = false ->
  Z.of_nat (length (buf c)) = cap c ->
  (forall ev, Produce_send (bus s) idx ev = Blocked) /\
  (forall ev r, Produce_pick (bus s) r = Ok (Some idx) ->
     Produce (bus s) ev r = Blocked) /\
  (forall p r ev rest,
     producers s !! p = Some (ISend idx ev :: rest) ->
     step_fn (RunProd p r) s = None /\
     (0 < cap c -> forall k, step_fn (Handoff p k) s = None)) /\
  (forall tr c',
     exec (Live s) tr c' ->
     (length (enqs (Z.to_nat idx) tr) <= length (deqs (Z.to_nat idx) tr))%nat) /\
  (forall p k r ev rest,
     producers s !! p = Some (ISend idx ev :: rest) ->
     consumers s !! k = Some (CRange idx) ->
     0 < cap c ->
     exists out s1 s2,
       step_fn (RunCons k) s = Some (LDeliver k (Z.to_nat idx) out, Live s1) /\
       step_fn (RunProd p r) s1 = Some (LEnq p (Z.to_nat idx) ev, Live s2)) /\
  (forall p k ev rest,
     producers s !! p = Some (ISend idx ev :: rest) ->
     consumers s !! k = Some (CRange idx) ->
     cap c = 0 ->
     step_fn (Handoff p k) s
     = Some (LHandoff p k (Z.to_nat idx) ev, Live (set_prog s p rest))).
Proof.
  intros Hc Ho Hfull.
  assert (Hblock : forall ev, Produce_send (bus s) idx ev = Blocked).
  { intros ev. eapply Produce_send_full; [done..|lia]. }
  pose proof Hc as Hat. apply at_index_Ok in Hc as [Hidx Hc].
  split; [exact Hblock|]. split; [|split; [|split; [|split]]].
  - intros ev r Hpick. unfold Produce. by rewrite Hpick.
  - intros p r ev rest Hp. split.
    + simpl. unfold step_prod. by rewrite Hp, Hblock.
    + intros Hpos k. simpl. unfold step_handoff. rewrite Hp.
      destruct (consumers s !! k) as [[line|]|]; try done.
      case_decide; [|done]. rewrite Hat, Ho.
      destruct (buf c); [simpl in Hfull; lia | done].
  - intros tr c' Hex.
    apply exec_live_prefix in Hex as (tr0 & s0 & Hex0 & Hend).
    assert (length (enqs (Z.to_nat idx) tr0) <= length (deqs (Z.to_nat idx) tr0))%nat.
    { pose proof (exec_fifo _ _ _ (Z.to_nat idx) Hex0) as Hfifo.
      destruct (exec_lane _ _ _ _ _ Hex0 Hc) as (c1 & Hc1 & Hcap & Hbound & _).
      apply (f_equal length) in Hfifo. rewrite !length_app in Hfifo.
      unfold lane_buf in Hfifo. rewrite Hc, Hc1 in Hfifo. lia. }
    destruct Hend as [[-> _]|(pn & -> & _)]; [done|].
    by rewrite enqs_panic, deqs_panic.
  - intros p k r ev rest Hp Hk Hpos.
    destruct (buf c) as [|ev0 items] eqn:Hb; [simpl in Hfull; lia|].
    set (c1 := {| buf := items; cap := cap c; closed := closed c |}).
    set (out := {| printed_resource := Resource (bus s); printed_line := idx;
                   printed_event := ev0 |}).
    exists out, (set_bus s (set_lane (bus s) (Z.to_nat idx) c1)).
    eexists. split.
    + simpl. unfold step_cons. rewrite Hk. unfold Consume_iter, chanrecv.
      by rewrite Hat, Hb.
    + simpl. unfold step_prod. simpl. rewrite Hp.
      unfold Produce_send, at_index. simpl.
      destruct (Z.ltb_spec idx 0); [lia|].
      rewrite list_lookup_insert_eq by by apply lookup_lt_Some in Hc.
      unfold chansend. simpl. rewrite Ho.
      simpl in Hfull.
      destruct (Z.ltb_spec (Z.of_nat (length items)) (cap c)); [done | lia].
  - intros p k ev rest Hp Hk Hzero. simpl. unfold step_handoff.
    rewrite Hp, Hk, decide_True by done. rewrite Hat, Ho.
    destruct (buf c); [done | simpl in Hfull; lia].
Qed.

(** Lane 0 of capacity 2 holds two events; the producer is about to send a
    third into it. *)
Lemma back_pressure_witness :
  let full := {| buf := [iron 0; iron 1]; cap := 2; closed := false |} in
  let s := {| bus := {| Resource := "iron"; Conveyors := [full; fresh 2] |};
              producers := [[ISend 0 (iron 2); IClose 0]];
              consumers := [CRange 0; CRange 1]; wg := 2 |} in
  Produce_send (bus s) 0 (iron 2) = Blocked /\
  step_fn (RunProd 0 0) s = None.
Proof.
  intros full s.
  destruct (back_pressure s 0 full) as (H1 & _ & H3 & _); [reflexivity..|].
  split; [apply H1|]. by apply (H3 0%nat 0 (iron 2) [IClose 0]).
Defined.


(** ** Draining a closed lane *)

(** A step leaves the consumers as they are, unless it is the return of
    one of them. *)
Lemma step_consumers ch s l s' :
  step_fn ch s = Some (l, Live s') ->
  consumers s' = consumers s /\ wg s' = wg s /\ (forall k n, l <> LReturn k n) \/
  exists k line,
    ch = RunCons k /\ consumers s !! k = Some (CRange line) /\
    l = LReturn k (Z.to_nat line) /\
    consumers s' = <[k := CReturned]> (consumers s) /\
    wg s' = wg s - 1 /\ 1 <= wg s /\ bus s' = bus s.
Proof.
  intros Hfn. destruct ch as [p r|k|p k]; simpl in Hfn.
  - left. unfold step_prod in Hfn. repeat case_match; by simplify_eq.
  - unfold step_cons in Hfn.
    destruct (consumers s !! k) as [[line|]|] eqn:Hk; try done.
    destruct (Consume_iter (bus s) line) as [out b'| | |]; simplify_eq.
    + by left.
    + destruct (Z.ltb_spec (wg s - 1) 0); simplify_eq.
      right. exists k, line. simpl. repeat split; try done. lia.
  - left. unfold step_handoff in Hfn. repeat case_match; by simplify_eq.
Qed.

Lemma Close_keeps_buffers b b' :
  Close b = Ok b' ->
  Resource b' = Resource b /\
  length (Conveyors b') = length (Conveyors b) /\
  (forall n, lane_buf b' n = lane_buf b n) /\
  Forall (fun c => closed c = true) (Conveyors b').
Proof.
  intros H. apply Close_Ok in H as [_ ->]. simpl.
  split; [done|]. split; [by rewrite length_map|]. split.
  - intros n. unfold lane_buf. simpl. rewrite list_lookup_fmap.
    by destruct (Conveyors b !! n).
  - apply Forall_fmap. by apply Forall_true.
Qed.

(** When a consumer's loop ends. *)
Lemma Consume_returns_iff s k line l s' :
  consumers s !! k = Some (CRange line) ->
  step_fn (RunCons k) s = Some (l, Live s') ->
  (l = LReturn k (Z.to_nat line) /\ consumers s' !! k = Some CReturned) <->
  (exists c, at_index (Conveyors (bus s)) line = Ok c /\
             closed c = true /\ buf c = []).
Proof.
  intros Hk Hfn. simpl in Hfn. unfold step_cons in Hfn. rewrite Hk in Hfn.
  destruct (Consume_iter (bus s) line) as [out b'| | |] eqn:Hit; simplify_eq.
  - apply Consume_iter_Deliver in Hit as (c & rest & Hl & Hc & Hb & _).
    split; [by intros [? _]|]. intros (c' & Hc' & _ & Hb').
    apply at_index_Ok in Hc' as [_ Hc']. congruence.
  - apply Consume_iter_Exit in Hit as (c & Hl & Hc & Hb & Hcl).
    destruct (wg s - 1 <? 0); simplify_eq. simpl. split.
    + intros _. exists c. by rewrite (proj2 (at_index_Ok _ _ _) (conj Hl Hc)).
    + intros _. split; [done|]. apply list_lookup_insert_eq. by apply lookup_lt_Some in Hk.
Qed.

Lemma Consume_waits s k line c :
  consumers s !! k = Some (CRange line) ->
  at_index (Conveyors (bus s)) line = Ok c ->
  buf c = [] -> closed c = false ->
  step_fn (RunCons k) s = None.
Proof.
  intros Hk Hc Hb Ho. simpl. unfold step_cons, Consume_iter, chanrecv.
  by rewrite Hk, Hc, Hb, Ho.
Qed.

Lemma Consume_alone items : forall s k line c,
  consumers s !! k = Some (CRange line) ->
  at_index (Conveyors (bus s)) line = Ok c ->
  closed c = true -> buf c = items -> 1 <= wg s ->
  exists s',
    run (replicate (S (length items)) (RunCons k)) (Live s)
    = (map (fun ev => LDeliver k (Z.to_nat line) (print (bus s) line ev)) items
         ++ [LReturn k (Z.to_nat line)], Live s') /\
    consumers s' !! k = Some CReturned /\
    lane_buf (bus s') (Z.to_nat line) = [] /\
    wg s' = wg s - 1.
Proof.
  induction items as [|ev rest IH]; intros s k line c Hk Hc Hcl Hb Hwg.
  - eexists. simpl. unfold step_cons, Consume_iter, chanrecv.
    rewrite Hk, Hc, Hb, Hcl. destruct (Z.ltb_spec (wg s - 1) 0); [lia|].
    split; [done|]. simpl. split; [|split; [|done]].
    + apply list_lookup_insert_eq. by apply lookup_lt_Some in Hk.
    + apply at_index_Ok in Hc as [_ Hc]. unfold lane_buf. by rewrite Hc.
  - pose proof Hc as Hat. apply at_index_Ok in Hc as [Hl Hc].
    set (c1 := {| buf := rest; cap := cap c; closed := closed c |}).
    set (s1 := set_bus s (set_lane (bus s) (Z.to_nat line) c1)).
    destruct (IH s1 k line c1) as (s' & Hrun & Hk' & Hbuf' & Hwg'); try done.
    { apply at_index_Ok. split; [done|]. simpl.
      apply list_lookup_insert_eq. by apply lookup_lt_Some in Hc. }
    exists s'. split; [|done].
    change (replicate (S (length (ev :: rest))) (RunCons k))
      with (RunCons k :: replicate (S (length rest)) (RunCons k)).
    cbn [run]. simpl step_fn. unfold step_cons, Consume_iter, chanrecv.
    rewrite Hk, Hat, Hb. fold c1. fold s1. rewrite Hrun. done.
Qed.

Lemma Consume_loop_closed items : forall fuel b line c out,
  at_index (Conveyors b) line = Ok c ->
  closed c = true -> buf c = items -> (length items < fuel)%nat ->
  exists b',
    Consume_loop fuel b line out
    = (out ++ map (print b line) items, b', LoopLeft) /\
    lane_buf b' (Z.to_nat line) = [] /\
    length (Conveyors b') = length (Conveyors b) /\
    forall n, n <> Z.to_nat line -> Conveyors b' !! n = Conveyors b !! n.
Proof.
  induction items as [|ev rest IH]; intros fuel b line c out Hc Hcl Hb Hfuel.
  - destruct fuel as [|fuel]; [simpl in Hfuel; lia|].
    exists b. simpl. unfold Consume_iter, chanrecv. rewrite Hc, Hb, Hcl.
    rewrite app_nil_r. repeat split; try done.
    apply at_index_Ok in Hc as [_ Hc]. unfold lane_buf. by rewrite Hc.
  - destruct fuel as [|fuel]; [simpl in Hfuel; lia|].
    pose proof Hc as Hat. apply at_index_Ok in Hc as [Hl Hc].
    set (c1 := {| buf := rest; cap := cap c; closed := closed c |}).
    destruct (IH fuel (set_lane b (Z.to_nat line) c1) line c1 (out ++ [print b line ev]))
      as (b' & Hloop & Hbuf & Hlen & Hother); try done.
    { apply at_index_Ok. split; [done|]. simpl.
      apply list_lookup_insert_eq. by apply lookup_lt_Some in Hc. }
    { simpl in Hfuel. lia. }
    exists b'. simpl. unfold Consume_iter, chanrecv. rewrite Hat, Hb. fold c1.
    rewrite Hloop. split; [|split; [done|split]].
    + by rewrite <- app_assoc.
    + rewrite Hlen. simpl. apply length_insert.
    + intros n Hn. rewrite Hother by done. simpl. by apply list_lookup_insert_ne.
Qed.

(** On a closed lane the state of a consumer and the lane's buffer go
    together: a consumer that has returned left the lane empty, and it
    stays empty. *)
Lemma exec_returned s tr s' k line c :
  exec (Live s) tr (Live s') ->
  consumers s !! k = Some (CRange line) ->
  at_index (Conveyors (bus s)) line = Ok c ->
  closed c = true ->
  consumers s' !! k = Some (CRange line) \/
  consumers s' !! k = Some CReturned /\ lane_buf (bus s') (Z.to_nat line) = [].
Proof.
  intros Hex Hk Hc Hcl. apply at_index_Ok in Hc as [Hl Hc].
  remember (Live s) as c0 eqn:Hc0. remember (Live s') as c1 eqn:Hc1.
  revert s' Hc1. induction Hex as [|c0 tr c1 l c2 Hex IH Hstep]; intros s' Hc1; subst.
  - simplify_eq. by left.
  - inversion Hstep as [s0 ch l0 c0 Hfn]; subst.
    specialize (IH eq_refl s0 eq_refl).
    destruct (exec_lane _ _ _ _ _ Hex Hc) as (c1 & Hc1 & _ & _ & Hclosed).
    destruct (Hclosed Hcl) as [Hcl1 _].
    pose proof (step_effect _ _ _ _ Hfn) as Heff.
    destruct (effect_lane _ _ _ _ _ Heff Hc1) as (c2 & Hc2 & _ & _ & Hclosed2).
    destruct (Hclosed2 Hcl1) as [_ Henq].
    pose proof (effect_fifo _ _ _ (Z.to_nat line) Heff) as Hfifo.
    rewrite Henq in Hfifo. simpl in Hfifo. rewrite app_nil_r in Hfifo.
    destruct (step_consumers _ _ _ _ Hfn)
      as [(Hsame & _ & _)|(k' & line' & -> & Hk' & -> & Hcons & _ & _ & Hbus)].
    + rewrite Hsame. destruct IH as [IH|[IH Hempty]]; [by left|].
      right. split; [done|]. rewrite Hempty in Hfifo.
      symmetry in Hfifo. by apply app_eq_nil in Hfifo as [_ ?].
    + rewrite Hcons. destruct (decide (k' = k)) as [->|Hne].
      * right. split.
        { apply list_lookup_insert_eq. by eapply lookup_lt_Some. }
        destruct IH as [IH|[IH _]]; [|congruence]. simplify_eq.
        simpl in Hfn. unfold step_cons in Hfn. rewrite IH in Hfn.
        destruct (Consume_iter (bus s0) line) eqn:Hit; try by repeat case_match; simplify_eq.
        apply Consume_iter_Exit in Hit as (c3 & _ & Hc3 & Hb3 & _).
        rewrite Hbus. unfold lane_buf. by rewrite Hc3.
      * rewrite list_lookup_insert_ne by done.
        destruct IH as [IH|[IH Hempty]]; [by left|].
        right. split; [done|]. rewrite Hbus. done.
Qed.

(** C2: [Close] closes every lane and leaves every buffer as it is.  The
    loop of a consumer ends in a step exactly when its lane is closed and
    empty, and on an open, empty lane the consumer waits.  On a closed lane
    a consumer never waits; in every execution the events its lane's
    consumers receive are, in order, the first of those the lane held at
    the close, and together with what the lane still holds they are all of
    them; when the consumer has returned, every one of them has been
    delivered.  Left to run, the consumer prints them all in order and
    returns after one more turn, having lowered the wait group by one. *)
Theorem drain_before_terminate :
  (forall b b',
     Close b = Ok b' ->
     Resource b' = Resource b /\
     length (Conveyors b') = length (Conveyors b) /\
     (forall n, lane_buf b' n = lane_buf b n) /\
     Forall (fun c => closed c = true) (Conveyors b')) /\
  (forall s k line l s',
     consumers s !! k = Some (CRange line) ->
     step_fn (RunCons k) s = Some (l, Live s') ->
     (l = LReturn k (Z.to_nat line) /\ consumers s' !! k = Some CReturned) <->
     (exists c, at_index (Conveyors (bus s)) line = Ok c /\
                closed c = true /\ buf c = [])) /\
  (forall s k line c,
     consumers s !! k = Some (CRange line) ->
     at_index (Conveyors (bus s)) line = Ok c ->
     buf c = [] -> closed c = false ->
     step_fn (RunCons k) s = None) /\
  (forall s k line c,
     consumers s !! k = Some (CRange line) ->
     at_index (Conveyors (bus s)) line = Ok c ->
     closed c = true ->
     1 <= wg s ->
     step_fn (RunCons k) s <> None /\
     (forall tr c', exec (Live s) tr c' ->
        deqs (Z.to_nat line) tr `prefix_of` buf c) /\
     (forall tr s', exec (Live s) tr (Live s') ->
        deqs (Z.to_nat line) tr ++ lane_buf (bus s') (Z.to_nat line) = buf c) /\
     (forall tr s', exec (Live s) tr (Live s') ->
        consumers s' !! k = Some CReturned ->
        deqs (Z.to_nat line) tr = buf c) /\
     (exists s',
        run (replicate (S (length (buf c))) (RunCons k)) (Live s)
        = (map (fun ev => LDeliver k (Z.to_nat line) (print (bus s) line ev)) (buf c)
             ++ [LReturn k (Z.to_nat line)], Live s') /\
        consumers s' !! k = Some CReturned /\
        lane_buf (bus s') (Z.to_nat line) = []) /\
     (exists b',
        Consume (bus s) line (wg s)
        = (map (print (bus s) line) (buf c), b', wg s - 1, Done tt) /\
        lane_buf b' (Z.to_nat line) = [])).
Proof.
  split; [exact Close_keeps_buffers|].
  split; [exact Consume_returns_iff|].
  split; [exact Consume_waits|].
  intros s k line c Hk Hat Hcl Hwg.
  pose proof Hat as Hc. apply at_index_Ok in Hc as [Hl Hc].
  assert (Hdrain : forall tr s', exec (Live s) tr (Live s') ->
            deqs (Z.to_nat line) tr ++ lane_buf (bus s') (Z.to_nat line) = buf c).
  { intros tr s' Hex. pose proof (exec_fifo _ _ _ (Z.to_nat line) Hex) as Hfifo.
    destruct (exec_lane _ _ _ _ _ Hex Hc) as (c1 & _ & _ & _ & Hclosed).
    destruct (Hclosed Hcl) as [_ Henq]. rewrite Henq, app_nil_r in Hfifo.
    unfold lane_buf in Hfifo at 1. by rewrite Hc in Hfifo. }
  split; [|split; [|split; [|split; [|split]]]].
  - simpl. unfold step_cons, Consume_iter, chanrecv. rewrite Hk, Hat, Hcl.
    destruct (buf c); [|done]. by destruct (wg s - 1 <? 0).
  - intros tr c' Hex. apply exec_live_prefix in Hex as (tr0 & s0 & Hex0 & Hend).
    assert (deqs (Z.to_nat line) tr0 `prefix_of` buf c).
    { rewrite <- (Hdrain _ _ Hex0). by eexists. }
    destruct Hend as [[-> _]|(pn & -> & _)]; [done|]. by rewrite deqs_panic.
  - exact Hdrain.
  - intros tr s' Hex Hret. rewrite <- (Hdrain _ _ Hex).
    destruct (exec_returned _ _ _ _ _ _ Hex Hk Hat Hcl) as [Hrun|[_ Hempty]]; [congruence|].
    by rewrite Hempty, app_nil_r.
  - destruct (Consume_alone (buf c) s k line c) as (s' & Hrun & Hk' & Hempty & _); try done.
    by exists s'.
  - destruct (Consume_loop_closed (buf c) (S (length (buf c))) (bus s) line c [])
      as (b' & Hloop & Hempty & _); try done; [lia|].
    exists b'. split; [|done]. unfold Consume, lane_buf. rewrite Hc, Hloop.
    unfold deferred_Done, wg_Done. simpl.
    by destruct (Z.ltb_spec (wg s - 1) 0); [lia|].
Qed.

(** The consumer of lane 0 on a closed bus whose lane 0 holds two events. *)
Lemma drain_before_terminate_witness :
  let held := {| buf := [iron 0; iron 1]; cap := 2; closed := true |} in
  let b := {| Resource := "iron"; Conveyors := [held; shut (fresh 2)] |} in
  let s := {| bus := b; producers := [[]];
              consumers := [CRange 0; CRange 1]; wg := 2 |} in
  Close {| Resource := "iron";
           Conveyors := [{| buf := [iron 0; iron 1]; cap := 2; closed := false |};
                         fresh 2] |} = Ok b /\
  (exists b', Consume b 0 2
              = ([print b 0 (iron 0); print b 0 (iron 1)], b', 1, Done tt) /\
              lane_buf b' 0 = []) /\
  deqs 0 (run [RunCons 1; RunCons 0; RunCons 0; RunCons 0]%nat (Live s)).1
  = [iron 0; iron 1].
Proof.
  intros held b s. split; [reflexivity|].
  destruct drain_before_terminate as (_ & _ & _ & H).
  destruct (H s 0%nat 0 held) as (_ & _ & _ & Hret & _ & Hseq);
    [reflexivity | reflexivity | reflexivity | simpl; lia |].
  split; [exact Hseq|].
  eapply (Hret _ _ (run_exec [RunCons 1; RunCons 0; RunCons 0; RunCons 0]%nat (Live s))).
  reflexivity.
Defined.

(** ** The driver's run: the invariant *)

Lemma closed_flags_insert convs i c c' :
  convs !! i = Some c -> closed c' = closed c ->
  map closed (<[i := c']> convs) = map closed convs.
Proof.
  intros Hc Hcl. rewrite list_fmap_insert, Hcl.
  apply list_insert_id. by rewrite list_lookup_fmap, Hc.
Qed.

Lemma consumer_ok_set_lane b i c c' k st :
  Conveyors b !! i = Some c ->
  closed c = false \/ buf c <> [] ->
  consumer_ok b k st -> consumer_ok (set_lane b i c') k st.
Proof.
  intros Hc Hlive [Hst|(Hst & c0 & Hc0 & Hcl & Hb)]; [by left|].
  right. split; [done|]. exists c0. simpl.
  destruct (decide (i = k)) as [->|Hne].
  - simplify_eq. destruct Hlive; congruence.
  - by rewrite list_lookup_insert_ne.
Qed.

Lemma ranging_insert_returned cs k line :
  cs !! k = Some (CRange line) ->
  (ranging (<[k := CReturned]> cs) + 1 = ranging cs)%nat.
Proof.
  unfold ranging. revert k. induction cs as [|st cs IH]; intros k Hk; [done|].
  destruct k as [|k]; simpl in *.
  - simplify_eq. rewrite !filter_cons. simpl. lia.
  - specialize (IH k Hk). rewrite !filter_cons.
    destruct (decide (is_ranging st)); simpl; lia.
Qed.

Lemma flags_open_lookup convs i c :
  Forall (fun f => f = false) (map closed convs) ->
  convs !! i = Some c -> closed c = false.
Proof.
  intros Hall Hc. rewrite Forall_fmap in Hall.
  by apply (Forall_lookup_1 _ _ _ _ Hall Hc).
Qed.

Lemma flags_closed_lookup convs i c :
  Forall (fun f => f = true) (map closed convs) ->
  convs !! i = Some c -> closed c = true.
Proof.
  intros Hall Hc. rewrite Forall_fmap in Hall.
  by apply (Forall_lookup_1 _ _ _ _ Hall Hc).
Qed.

(** A driver that has produced everything is a driver about to close. *)
Lemma driver_at_close evs n sent flags i rest :
  driver_at evs n sent flags (IClose i :: rest) ->
  rest = [] /\ sent = evs /\
  (forall j f, flags !! j = Some f -> f = bool_decide (j < i)%nat).
Proof.
  inversion 1 as [evs2 Hsent Hopen Hprog|idx ev evs2 Hsent Hidx Hopen Hprog
                 |i0 Hsent Hflags Hprog|Hsent Hflags Hprog].
  - destruct evs2 as [|ev evs2]; simplify_eq. simpl in Hprog. simplify_eq.
    rewrite app_nil_r. repeat split; try done.
    intros j f Hj. rewrite (Forall_lookup_1 _ _ _ _ Hopen Hj).
    symmetry. apply bool_decide_eq_false. lia.
  - simplify_eq. done.
Qed.

Lemma driver_at_produce evs n sent flags ev rest :
  driver_at evs n sent flags (IProduce ev :: rest) ->
  exists evs2, rest = map IProduce evs2 ++ [IClose 0] /\
               sent ++ ev :: evs2 = evs /\ Forall (fun f => f = false) flags.
Proof.
  inversion 1 as [evs2 Hsent Hopen Hprog| | |].
  destruct evs2 as [|ev' evs2]; simpl in Hprog; simplify_eq. by exists evs2.
Qed.

Lemma driver_at_send evs n sent flags idx ev rest :
  driver_at evs n sent flags (ISend idx ev :: rest) ->
  exists evs2, rest = map IProduce evs2 ++ [IClose 0] /\
               sent ++ ev :: evs2 = evs /\ 0 <= idx < Z.of_nat n /\
               Forall (fun f => f = false) flags.
Proof.
  inversion 1 as [evs2 Hsent Hopen Hprog|idx' ev' evs2 Hsent Hidx Hopen Hprog| |].
  - destruct evs2 as [|ev' evs2]; simpl in Hprog; simplify_eq.
  - by exists evs2.
Qed.

Lemma inv_step_prod evs n tr s p r l c :
  (0 < n)%nat ->
  Inv evs n tr s ->
  step_prod p r s = Some (l, c) ->
  exists s', c = Live s' /\ Inv evs n (tr ++ [l]) s'.
Proof.
  intros Hn [Hlanes (prog & Hprods & Hdrv) Hrouted Hclen Hcons Hwg] Hfn.
  unfold step_prod in Hfn. rewrite Hprods in Hfn.
  destruct p as [|p]; [|done]. simpl in Hfn.
  assert (Hne : Conveyors (bus s) <> []).
  { intros Hnil. rewrite Hnil in Hlanes. simpl in Hlanes. lia. }
  destruct prog as [|[ev|idx ev|i] rest]; [done| | |].
  - (* the call starts: the lane is chosen *)
    apply driver_at_produce in Hdrv as (evs2 & -> & Hsent & Hopen).
    rewrite Produce_pick_lanes in Hfn by done. simplify_eq.
    eexists. split; [done|].
    split; simpl; try done.
    + exists (ISend (r mod Z.of_nat (length (Conveyors (bus s)))) ev
                :: map IProduce evs2 ++ [IClose 0]).
      rewrite Hprods. split; [done|].
      rewrite routed_snoc. simpl. rewrite app_nil_r.
      apply driver_send; [done| |done].
      apply Z.mod_pos_bound. lia.
    + rewrite routed_snoc. simpl. by rewrite app_nil_r.
  - (* the send *)
    apply driver_at_send in Hdrv as (evs2 & -> & Hsent & Hidx & Hopen).
    destruct (at_index_in_range (Conveyors (bus s)) idx) as [c0 Hat]; [lia|].
    unfold Produce_send, chansend in Hfn. rewrite Hat in Hfn.
    apply at_index_Ok in Hat as [_ Hc0].
    pose proof (flags_open_lookup _ _ _ Hopen Hc0) as Ho. rewrite Ho in Hfn.
    destruct (Z.of_nat (length (buf c0)) <? cap c0); simplify_eq.
    eexists. split; [done|].
    split; simpl.
    + by rewrite length_insert.
    + exists (map IProduce evs2 ++ [IClose 0]). rewrite Hprods. split; [done|].
      rewrite routed_snoc. simpl. rewrite map_app. simpl.
      rewrite (closed_flags_insert _ _ c0) by done.
      apply driver_produce; [by rewrite <- app_assoc | done].
    + rewrite routed_snoc. simpl. apply Forall_app. split; [done|].
      constructor; [simpl; lia | done].
    + done.
    + intros k st Hk. eapply (consumer_ok_set_lane _ _ c0); [done|by left|by apply Hcons].
    + done.
  - (* Close *)
    apply driver_at_close in Hdrv as (-> & Hsent & Hflags).
    destruct (Conveyors (bus s) !! i) as [c0|] eqn:Hc0.
    + assert (Ho : closed c0 = false).
      { rewrite (Hflags i (closed c0)); [|by rewrite list_lookup_fmap, Hc0].
        apply bool_decide_eq_false. lia. }
      unfold closechan in Hfn. rewrite Ho in Hfn. simplify_eq.
      eexists. split; [done|].
      split; simpl.
      * by rewrite length_insert.
      * exists [IClose (S i)]. rewrite Hprods. split; [done|].
        rewrite routed_snoc. simpl. rewrite app_nil_r.
        apply driver_close; [done|].
        intros j f Hj. rewrite list_fmap_insert in Hj. simpl in Hj.
        destruct (decide (i = j)) as [->|Hij].
        -- rewrite list_lookup_insert_eq in Hj.
           ++ simplify_eq. symmetry. apply bool_decide_eq_true. lia.
           ++ rewrite length_map. by apply lookup_lt_Some in Hc0.
        -- rewrite list_lookup_insert_ne in Hj by done.
           rewrite (Hflags j f Hj). apply bool_decide_ext. lia.
      * rewrite routed_snoc. simpl. by rewrite app_nil_r.
      * done.
      * intros k st Hk. eapply (consumer_ok_set_lane _ _ c0); [done|by left|by apply Hcons].
      * done.
    + simplify_eq. eexists. split; [done|].
      split; simpl; try done.
      * exists []. rewrite Hprods. split; [done|].
        rewrite routed_snoc. simpl. rewrite app_nil_r.
        apply driver_done; [done|].
        apply Forall_lookup_2. intros j f Hj. rewrite (Hflags j f Hj).
        apply bool_decide_eq_true. apply lookup_lt_Some in Hj.
        rewrite length_map in Hj. apply lookup_ge_None in Hc0. lia.
      * rewrite routed_snoc. simpl. by rewrite app_nil_r.
Qed.

Lemma inv_step_cons evs n tr s k l c :
  Inv evs n tr s ->
  step_cons k s = Some (l, c) ->
  exists s', c = Live s' /\ Inv evs n (tr ++ [l]) s'.
Proof.
  intros [Hlanes (prog & Hprods & Hdrv) Hrouted Hclen Hcons Hwg] Hfn.
  unfold step_cons in Hfn.
  destruct (consumers s !! k) as [st|] eqn:Hk; [|done].
  pose proof (lookup_lt_Some _ _ _ Hk) as Hklt.
  destruct (Hcons k st Hk) as [->|[-> _]]; [|done].
  destruct (at_index_in_range (Conveyors (bus s)) (Z.of_nat k)) as [c0 Hat]; [lia|].
  unfold Consume_iter, chanrecv in Hfn. rewrite Hat in Hfn.
  apply at_index_Ok in Hat as [_ Hc0]. rewrite Nat2Z.id in *.
  destruct (buf c0) as [|ev rest] eqn:Hb.
  - destruct (closed c0) eqn:Hcl; [|done].
    pose proof (ranging_insert_returned _ _ _ Hk) as Hrange.
    destruct (Z.ltb_spec (wg s - 1) 0); [lia|]. simplify_eq.
    eexists. split; [done|].
    split; simpl; try done.
    + exists prog. split; [done|]. rewrite routed_snoc. simpl. by rewrite app_nil_r.
    + rewrite routed_snoc. simpl. by rewrite app_nil_r.
    + by rewrite length_insert.
    + intros k' st' Hk'. destruct (decide (k = k')) as [->|Hne].
      * rewrite list_lookup_insert_eq in Hk' by done. simplify_eq.
        right. split; [done|]. by exists c0.
      * rewrite list_lookup_insert_ne in Hk' by done. by apply Hcons.
    + lia.
  - simplify_eq. eexists. split; [done|].
    split; simpl; try done.
    + by rewrite length_insert.
    + exists prog. split; [done|]. rewrite routed_snoc. simpl. rewrite app_nil_r.
      by rewrite (closed_flags_insert _ _ c0).
    + rewrite routed_snoc. simpl. by rewrite app_nil_r.
    + intros k' st' Hk'. eapply (consumer_ok_set_lane _ _ c0); [done| |by apply Hcons].
      right. by rewrite Hb.
Qed.

Lemma inv_step_handoff evs n tr s p k l c :
  Inv evs n tr s ->
  step_handoff p k s = Some (l, c) ->
  exists s', c = Live s' /\ Inv evs n (tr ++ [l]) s'.
Proof.
  intros [Hlanes (prog & Hprods & Hdrv) Hrouted Hclen Hcons Hwg] Hfn.
  unfold step_handoff in Hfn. rewrite Hprods in Hfn.
  destruct p as [|p]; [|done]. simpl in Hfn.
  destruct prog as [|[ev|idx ev|i] rest]; try done.
  destruct (consumers s !! k) as [[line|]|]; try done.
  case_decide; [|done]. subst line.
  destruct (at_index (Conveyors (bus s)) idx) as [c0|]; [|done].
  destruct (closed c0); [done|]. destruct (buf c0); [|done]. simplify_eq.
  apply driver_at_send in Hdrv as (evs2 & -> & Hsent & Hidx & Hopen).
  eexists. split; [done|].
  split; simpl; try done.
  - exists (map IProduce evs2 ++ [IClose 0]). rewrite Hprods. split; [done|].
    rewrite routed_snoc. simpl. rewrite map_app. simpl.
    apply driver_produce; [by rewrite <- app_assoc | done].
  - rewrite routed_snoc. simpl. apply Forall_app. split; [done|].
    constructor; [simpl; lia | done].
Qed.

Lemma inv_step evs n tr s ch l c :
  (0 < n)%nat ->
  Inv evs n tr s ->
  step_fn ch s = Some (l, c) ->
  exists s', c = Live s' /\ Inv evs n (tr ++ [l]) s'.
Proof.
  intros Hn Hinv Hfn. destruct ch as [p r|k|p k]; simpl in Hfn.
  - by eapply inv_step_prod.
  - by eapply inv_step_cons.
  - by eapply inv_step_handoff.
Qed.

Lemma inv_start name n capacity evs :
  Inv evs n [] (start {| Resource := name; Conveyors := replicate n (fresh capacity) |} evs).
Proof.
  split; simpl.
  - apply length_replicate.
  - exists (driver evs). split; [done|]. apply driver_produce; [done|].
    rewrite Forall_fmap. by apply Forall_replicate.
  - constructor.
  - by rewrite length_map, length_seq, length_replicate.
  - intros k st Hk. left. rewrite list_lookup_fmap in Hk.
    destruct (seq 0 (length (replicate n (fresh capacity))) !! k) as [i|] eqn:Hi; [|done].
    apply lookup_seq in Hi as [-> _]. simpl in Hk. by simplify_eq.
  - f_equal. unfold ranging. rewrite length_replicate.
    generalize 0%nat. induction n as [|n IH]; intros m; [done|].
    simpl. f_equal. apply IH.
Qed.

Lemma exec_inv evs n s tr c :
  (0 < n)%nat ->
  Inv evs n [] s ->
  exec (Live s) tr c ->
  exists s', c = Live s' /\ Inv evs n tr s'.
Proof.
  intros Hn Hinv Hex. remember (Live s) as c0 eqn:Hc0.
  induction Hex as [|c0 tr c1 l c2 Hex IH Hstep]; subst.
  - by exists s.
  - destruct (IH eq_refl) as (s1 & -> & Hinv1).
    inversion Hstep as [s0 ch l0 c0 Hfn]; subst. by eapply inv_step.
Qed.

(** ** The driver's run: no deadlock *)

Lemma returned_dec (st : cstate) : {st = CReturned} + {st <> CReturned}.
Proof. destruct st; [by right | by left]. Qed.

Lemma inv_progress evs n tr s :
  Inv evs n tr s ->
  finished s \/ exists ch l s', step_fn ch s = Some (l, Live s').
Proof.
  intros [Hlanes (prog & Hprods & Hdrv) Hrouted Hclen Hcons Hwg].
  assert (Hclose : forall i, (forall j f, map closed (Conveyors (bus s)) !! j = Some f ->
                                f = bool_decide (j < i)%nat) ->
            prog = [IClose i] ->
            exists ch l s', step_fn ch s = Some (l, Live s')).
  { intros i Hflags ->. exists (RunProd 0 0). simpl. unfold step_prod.
    rewrite Hprods. simpl.
    destruct (Conveyors (bus s) !! i) as [c0|] eqn:Hc0; [|by eauto].
    assert (Ho : closed c0 = false).
    { rewrite (Hflags i (closed c0)); [|by rewrite list_lookup_fmap, Hc0].
      apply bool_decide_eq_false. lia. }
    unfold closechan. rewrite Ho. by eauto. }
  destruct Hdrv as [rest Hsent Hopen|idx ev rest Hsent Hidx Hopen|i Hsent Hflags|Hsent Hclosed].
  - right. destruct rest as [|ev rest].
    + apply (Hclose 0%nat); [|done]. intros j f Hj.
      rewrite (Forall_lookup_1 _ _ _ _ Hopen Hj). symmetry.
      apply bool_decide_eq_false. lia.
    + exists (RunProd 0 0). simpl. unfold step_prod. rewrite Hprods. simpl.
      unfold Produce_pick, Intn.
      destruct (Z.eqb_spec (Z.of_nat (length (Conveyors (bus s)))) 0); [by eauto|].
      destruct (Z.leb_spec (Z.of_nat (length (Conveyors (bus s)))) 0); [lia|]. by eauto.
  - right.
    destruct (at_index_in_range (Conveyors (bus s)) idx) as [c0 Hat]; [lia|].
    pose proof Hat as Hc0. apply at_index_Ok in Hc0 as [_ Hc0].
    pose proof (flags_open_lookup _ _ _ Hopen Hc0) as Ho.
    destruct (lookup_lt_is_Some_2 (consumers s) (Z.to_nat idx)) as [st Hk]; [lia|].
    assert (st = CRange idx) as ->.
    { destruct (Hcons _ _ Hk) as [->|(_ & c1 & Hc1 & Hcl & _)].
      - f_equal. lia.
      - congruence. }
    destruct (buf c0) as [|ev0 items] eqn:Hb.
    + exists (Handoff 0 (Z.to_nat idx)). simpl. unfold step_handoff.
      rewrite Hprods, Hk. simpl. rewrite decide_True by done.
      rewrite Hat, Ho, Hb. by eauto.
    + exists (RunCons (Z.to_nat idx)). simpl. unfold step_cons, Consume_iter, chanrecv.
      rewrite Hk, Hat, Hb. by eauto.
  - right. by apply (Hclose i).
  - destruct (Forall_Exists_dec (fun st => st = CReturned) (fun st => st <> CReturned)
                returned_dec (consumers s))
      as [Hall|Hsome].
    + by left.
    + right. apply Exists_exists in Hsome as (st & Hin & Hst).
      apply list_elem_of_lookup in Hin as [k Hk].
      destruct (Hcons _ _ Hk) as [->|[-> _]]; [|done].
      pose proof (lookup_lt_Some _ _ _ Hk) as Hklt.
      destruct (at_index_in_range (Conveyors (bus s)) (Z.of_nat k)) as [c0 Hat]; [lia|].
      pose proof Hat as Hc0. apply at_index_Ok in Hc0 as [_ Hc0].
      pose proof (flags_closed_lookup _ _ _ Hclosed Hc0) as Hcl.
      pose proof (ranging_insert_returned _ _ _ Hk) as Hrange.
      exists (RunCons k). simpl. unfold step_cons, Consume_iter, chanrecv.
      rewrite Hk, Hat, Hcl.
      destruct (buf c0); [|by eauto].
      destruct (Z.ltb_spec (wg s - 1) 0); [lia|]. by eauto.
Qed.

Lemma finished_quiescent s : finished s -> quiescent s.
Proof.
  intros [Hp Hc] ch. destruct ch as [p r|k|p k]; simpl.
  - unfold step_prod. rewrite Hp. by destruct p as [|[|p]].
  - unfold step_cons. destruct (consumers s !! k) as [st|] eqn:Hk; [|done].
    by rewrite (Forall_lookup_1 _ _ _ _ Hc Hk).
  - unfold step_handoff. rewrite Hp. by destruct p as [|[|p]].
Qed.

Lemma inv_quiescent evs n tr s :
  Inv evs n tr s -> quiescent s -> finished s.
Proof.
  intros Hinv Hq. destruct (inv_progress _ _ _ _ Hinv) as [Hfin|(ch & l & s' & Hfn)]; [done|].
  by rewrite Hq in Hfn.
Qed.

Lemma inv_finished_drained evs n tr s k :
  Inv evs n tr s -> finished s -> lane_buf (bus s) k = [].
Proof.
  intros [Hlanes _ _ Hclen Hcons _] [_ Hall]. unfold lane_buf.
  destruct (Conveyors (bus s) !! k) as [c|] eqn:Hc; [|done].
  destruct (lookup_lt_is_Some_2 (consumers s) k) as [st Hk].
  { apply lookup_lt_Some in Hc. lia. }
  pose proof (Forall_lookup_1 _ _ _ _ Hall Hk) as ->.
  destruct (Hcons _ _ Hk) as [?|(_ & c' & Hc' & _ & Hb)]; [done|]. congruence.
Qed.

Lemma inv_finished_sent evs n tr s :
  Inv evs n tr s -> finished s -> map snd (routed tr) = evs.
Proof.
  intros [_ (prog & Hprods & Hdrv) _ _ _ _] [Hp _].
  rewrite Hp in Hprods. simplify_eq.
  inversion Hdrv as [rest _ _ Hprog| | |]; [|done].
  by destruct rest.
Qed.

(** ** Every event in exactly one lane *)

(** The events sent into lane [l] are those routed to it. *)
Lemma enqs_routed l tr :
  enqs l tr = map snd (filter (fun x => x.1 = l) (routed tr)).
Proof.
  unfold enqs, routed. induction tr as [|lab tr IH]; [done|].
  simpl. destruct lab; simpl; try done.
  - rewrite filter_cons. simpl. case_decide; simpl; f_equal; apply IH.
  - rewrite filter_cons. simpl. case_decide; simpl; f_equal; apply IH.
Qed.

Lemma concat_add_one {A} (f g : nat -> list A) l0 a ls :
  NoDup ls -> l0 ∈ ls ->
  g l0 = a :: f l0 -> (forall l, l <> l0 -> g l = f l) ->
  concat (map g ls) ≡ₚ a :: concat (map f ls).
Proof.
  intros Hnd Hin Hg0 Hg. induction ls as [|l ls IH]; [by apply elem_of_nil in Hin|].
  apply NoDup_cons in Hnd as [Hl Hnd]. simpl.
  destruct (decide (l = l0)) as [->|Hne].
  - rewrite Hg0. simpl. do 2 f_equiv.
    assert (map g ls = map f ls) as ->; [|done].
    apply map_ext_in. intros l Hl'. apply Hg. intros ->.
    by apply Hl, list_elem_of_In.
  - apply elem_of_cons in Hin as [?|Hin]; [done|].
    rewrite (Hg l Hne), (IH Hnd Hin). by rewrite Permutation_middle.
Qed.

Lemma lanes_partition n (xs : list (nat * Event)) :
  Forall (fun x => (x.1 < n)%nat) xs ->
  concat (map (fun l => map snd (filter (fun x => x.1 = l) xs)) (seq 0 n))
  ≡ₚ map snd xs.
Proof.
  induction xs as [|x xs IH]; intros Hall.
  - clear Hall. simpl. generalize 0%nat. induction n as [|n IHn]; intros m; [done|].
    simpl. apply IHn.
  - apply Forall_cons in Hall as [Hx Hall]. simpl. rewrite <- (IH Hall).
    apply (concat_add_one _ _ x.1).
    + apply NoDup_seq.
    + apply elem_of_seq. lia.
    + rewrite filter_cons. by rewrite decide_True.
    + intros l Hl. rewrite filter_cons. by rewrite decide_False.
Qed.

Lemma lane_sublist l (xs : list (nat * Event)) :
  map snd (filter (fun x => x.1 = l) xs) `sublist_of` map snd xs.
Proof. apply fmap_sublist, sublist_filter. Qed.

(** ** Every execution is finite *)

Lemma sum_list_insert {A} (f : A -> nat) (l : list A) i x y :
  l !! i = Some x ->
  (sum_list (map f (<[i := y]> l)) + f x = sum_list (map f l) + f y)%nat.
Proof.
  revert i. induction l as [|z l IH]; intros i Hi; [done|].
  destruct i as [|i]; simpl in *.
  - simplify_eq. lia.
  - specialize (IH i Hi). lia.
Qed.

Lemma prog_cost_cons n i prog :
  prog_cost n (i :: prog) = (instr_cost n i + prog_cost n prog)%nat.
Proof. done. Qed.

(** The cost of the programs after program [p] has become [prog']. *)
Ltac program_becomes n Hp prog' :=
  let H := fresh "Hsum" in
  pose proof (sum_list_insert (prog_cost n) _ _ _ prog' Hp) as H;
  rewrite ?prog_cost_cons in H; simpl in H.

(** The number of buffered events after lane [Hc] has become [c']. *)
Ltac lane_becomes Hc c' :=
  let H := fresh "Hsum" in
  pose proof (sum_list_insert (fun c => length (buf c)) _ _ _ c' Hc) as H;
  simpl in H.

Lemma step_decreases ch s l s' :
  step_fn ch s = Some (l, Live s') -> (steps_left s' < steps_left s)%nat.
Proof.
  intros Hfn. unfold steps_left.
  set (n := length (Conveyors (bus s))) in *.
  destruct ch as [p r|k|p k]; simpl in Hfn.
  - unfold step_prod in Hfn.
    destruct (producers s !! p) as [[|[ev|idx ev|i] rest]|] eqn:Hp; try done.
    + destruct (Produce_pick (bus s) r) as [[idx|]|]; simplify_eq; simpl; fold n.
      * program_becomes n Hp (ISend idx ev :: rest). lia.
      * program_becomes n Hp rest. lia.
    + destruct (Produce_send (bus s) idx ev) as [b'| |] eqn:Hs; simplify_eq.
      apply Produce_send_Done in Hs as (c & Hi & Hc & Ho & Hlt & ->). simpl.
      rewrite length_insert. fold n.
      program_becomes n Hp rest.
      lane_becomes Hc {| buf := buf c ++ [ev]; cap := cap c; closed := closed c |}.
      rewrite length_app in *. simpl in *. lia.
    + destruct (Conveyors (bus s) !! i) as [c|] eqn:Hc; simplify_eq.
      * unfold closechan in Hfn. destruct (closed c); simplify_eq. simpl.
        rewrite length_insert. fold n.
        pose proof (lookup_lt_Some _ _ _ Hc) as Hi. fold n in Hi.
        program_becomes n Hp (IClose (S i) :: rest).
        lane_becomes Hc (shut c). lia.
      * simpl. fold n. program_becomes n Hp rest. lia.
  - unfold step_cons in Hfn.
    destruct (consumers s !! k) as [[line|]|] eqn:Hk; try done.
    destruct (Consume_iter (bus s) line) as [out b'| | |] eqn:Hit; simplify_eq.
    + apply Consume_iter_Deliver in Hit as (c & rest & Hl & Hc & Hb & _ & _ & ->). simpl.
      rewrite length_insert. fold n.
      lane_becomes Hc {| buf := rest; cap := cap c; closed := closed c |}.
      rewrite Hb in *. simpl in *. lia.
    + destruct (wg s - 1 <? 0); simplify_eq. simpl. fold n.
      pose proof (ranging_insert_returned _ _ _ Hk). lia.
  - unfold step_handoff in Hfn.
    destruct (producers s !! p) as [[|[ev|idx ev|i] rest]|] eqn:Hp; try done.
    destruct (consumers s !! k) as [[line|]|]; try done.
    repeat case_match; simplify_eq. simpl. fold n.
    program_becomes n Hp rest. lia.
Qed.

(** A live execution is no longer than the steps its first state has left. *)
Lemma exec_bounded s tr s' :
  exec (Live s) tr (Live s') -> (length tr + steps_left s' <= steps_left s)%nat.
Proof.
  intros Hex. remember (Live s) as c0 eqn:Hc0. remember (Live s') as c1 eqn:Hc1.
  revert s' Hc1. induction Hex as [|c0 tr c1 l c2 Hex IH Hstep]; intros s' Hc1; subst.
  - simplify_eq. simpl. lia.
  - inversion Hstep as [s0 ch l0 c0 Hfn]; subst.
    specialize (IH eq_refl s0 eq_refl). apply step_decreases in Hfn.
    rewrite length_app. simpl. lia.
Qed.

(** ** The driver's run: the result *)

Lemma StronglySorted_sublist {A} (R : relation A) (l1 l2 : list A) :
  l1 `sublist_of` l2 -> StronglySorted R l2 -> StronglySorted R l1.
Proof.
  induction 1 as [|x l1 l2 Hsub IH|x l1 l2 Hsub IH]; intros Hs; [done| |].
  - apply StronglySorted_inv in Hs as [Hs Hx]. constructor; [by apply IH|].
    apply Forall_forall. intros y Hy.
    apply (proj1 (Forall_forall _ _) Hx). by eapply elem_of_sublist.
  - apply StronglySorted_inv in Hs as [Hs _]. by apply IH.
Qed.

Lemma prog_cost_driver n evs :
  prog_cost n (driver evs) = (3 * length evs + S n)%nat.
Proof.
  unfold prog_cost, driver. induction evs as [|ev evs IH]; simpl.
  - rewrite Nat.sub_0_r. lia.
  - simpl in IH. lia.
Qed.

Lemma buffered_fresh n capacity :
  sum_list (map (fun c => length (buf c)) (replicate n (fresh capacity))) = 0%nat.
Proof. induction n as [|n IH]; [done|]. simpl. apply IH. Qed.

Lemma steps_left_start name n capacity evs :
  steps_left (start {| Resource := name; Conveyors := replicate n (fresh capacity) |} evs)
  = (3 * length evs + S n + n)%nat.
Proof.
  pose proof (inv_start name n capacity evs) as [_ _ _ _ _ Hwg].
  unfold steps_left. simpl in *. rewrite length_replicate in *.
  rewrite prog_cost_driver.
  rewrite buffered_fresh. lia.
Qed.

(** The run of the driver on a fresh bus with at least one lane: no
    execution panics, none is longer than the bound, none ends before the
    driver and every consumer have returned, and at the end every lane has
    delivered, in order, exactly what was sent into it, the lanes together
    every event once. *)
Lemma driver_run name n capacity evs tr c :
  (0 < n)%nat ->
  exec (Live (start {| Resource := name; Conveyors := replicate n (fresh capacity) |} evs))
       tr c ->
  exists s,
    c = Live s /\
    (length tr <= 3 * length evs + S n + n)%nat /\
    (finished s \/ exists ch l s', step_fn ch s = Some (l, Live s')) /\
    (forall l, deqs l tr `prefix_of` enqs l tr /\ enqs l tr `sublist_of` evs) /\
    (quiescent s ->
       finished s /\
       (forall l, deqs l tr = enqs l tr /\ deqs l tr `sublist_of` evs) /\
       received n tr ≡ₚ evs).
Proof.
  intros Hn Hex.
  destruct (exec_inv evs n _ _ _ Hn (inv_start name n capacity evs) Hex) as (s & -> & Hinv).
  exists s. split; [done|].
  assert (Hfifo : forall l, enqs l tr = deqs l tr ++ lane_buf (bus s) l).
  { intros l. rewrite <- (exec_fifo _ _ _ l Hex). unfold lane_buf at 1. simpl.
    destruct (replicate n (fresh capacity) !! l) as [c|] eqn:Hc; [|done].
    by apply lookup_replicate in Hc as [-> _]. }
  assert (Hsent : exists rest, map snd (routed tr) ++ rest = evs).
  { destruct Hinv as [_ (prog & _ & Hdrv) _ _ _ _].
    destruct Hdrv as [rest Hsent _|idx ev rest Hsent _ _|i Hsent _|Hsent _].
    - by exists rest.
    - by exists (ev :: rest).
    - exists []. by rewrite app_nil_r.
    - exists []. by rewrite app_nil_r. }
  assert (Hsub : forall l, enqs l tr `sublist_of` evs).
  { intros l. destruct Hsent as [rest <-]. rewrite enqs_routed.
    apply sublist_inserts_r, lane_sublist. }
  split; [|split; [|split]].
  - pose proof (exec_bounded _ _ _ Hex) as Hb. rewrite steps_left_start in Hb. lia.
  - by eapply inv_progress.
  - intros l. split; [|done]. rewrite (Hfifo l). by eexists.
  - intros Hq. pose proof (inv_quiescent _ _ _ _ Hinv Hq) as Hfin.
    split; [done|].
    assert (Hall : forall l, deqs l tr = enqs l tr).
    { intros l. by rewrite (Hfifo l), (inv_finished_drained _ _ _ _ l Hinv Hfin), app_nil_r. }
    split.
    + intros l. rewrite Hall. done.
    + unfold received.
      rewrite <- (inv_finished_sent _ _ _ _ Hinv Hfin).
      rewrite <- (lanes_partition n (routed tr)) by by destruct Hinv.
      assert (map (fun l => deqs l tr) (seq 0 n)
              = map (fun l => map snd (filter (fun x => x.1 = l) (routed tr))) (seq 0 n))
        as ->; [|done].
      apply map_ext. intros l. by rewrite Hall, enqs_routed.
Qed.

Lemma scenario_ids_sorted : StronglySorted Z.lt scenario_ids.
Proof. unfold scenario_ids. repeat constructor; lia. Qed.

(** C4: the scenario.  [NewMainBus("iron", 3, 5)] gives the bus with four
    lanes.  One consumer per lane is started, the driver produces eight
    events with the ids 0 to 7 in order and then closes the bus.  Whatever
    lanes the draws select and however the goroutines are scheduled: no
    execution panics; none takes more than 33 steps; as long as the driver
    or a consumer has not returned, some goroutine can take a step; every
    event that has been sent is in one lane, and each lane delivers the
    events sent into it in the order of their production.  When no
    goroutine can take a step any more, the driver and all four consumers
    have returned, every lane has delivered all that was sent into it, the
    four consumers have received eight events in all, each id once, and
    the ids received from each lane are increasing. *)
Theorem scenario_each_item_once evs tr c :
  map Event.ID evs = scenario_ids ->
  exec (Live (start scenario_bus evs)) tr c ->
  NewMainBus "iron" 3 5 = Ok scenario_bus /\
  exists s,
    c = Live s /\
    (length tr <= 33)%nat /\
    (finished s \/ exists ch l s', step_fn ch s = Some (l, Live s')) /\
    (forall l, deqs l tr `prefix_of` enqs l tr /\
               StronglySorted Z.lt (map Event.ID (enqs l tr))) /\
    (quiescent s ->
       finished s /\
       (forall l, deqs l tr = enqs l tr) /\
       length (received 4 tr) = 8%nat /\
       map Event.ID (received 4 tr) ≡ₚ scenario_ids /\
       (forall l, StronglySorted Z.lt (map Event.ID (deqs l tr)))).
Proof.
  intros Hids Hex. split; [reflexivity|].
  assert (Hlen : length evs = 8%nat).
  { apply (f_equal length) in Hids. by rewrite length_map in Hids. }
  destruct (driver_run "iron" 4 5 evs tr c) as (s & -> & Hbound & Hprog & Hfifo & Hend);
    [lia | exact Hex |].
  assert (Hsorted : forall es, es `sublist_of` evs -> StronglySorted Z.lt (map Event.ID es)).
  { intros es Hes. apply (StronglySorted_sublist _ _ scenario_ids).
    - rewrite <- Hids. by apply fmap_sublist.
    - apply scenario_ids_sorted. }
  exists s. split; [done|]. split; [lia|]. split; [done|]. split.
  - intros l. destruct (Hfifo l) as [Hpre Hsub]. split; [done|]. by apply Hsorted.
  - intros Hq. destruct (Hend Hq) as (Hfin & Hall & Hperm).
    split; [done|]. split; [intros l; apply Hall|]. split; [|split].
    + by rewrite (Permutation_length Hperm).
    + by rewrite Hperm, Hids.
    + intros l. apply Hsorted, Hall.
Qed.

(** The scenario under one schedule that runs it to the end. *)
Lemma scenario_each_item_once_witness :
  let evs := map iron scenario_ids in
  let tr := (run scenario_schedule (Live (start scenario_bus evs))).1 in
  map (fun l => map Event.ID (deqs l tr)) [0; 1; 2; 3]%nat
    = [[0; 4]; [1; 5]; [2; 6]; [3; 7]] /\
  length (received 4 tr) = 8%nat /\
  map Event.ID (received 4 tr) ≡ₚ scenario_ids.
Proof.
  intros evs tr. split; [reflexivity|].
  destruct (scenario_each_item_once evs tr
              (run scenario_schedule (Live (start scenario_bus evs))).2)
    as (_ & s & Hs & _ & _ & _ & Hend).
  - reflexivity.
  - apply run_exec.
  - destruct Hend as (_ & _ & Hlen & Hperm & _); [|by split].
    apply finished_quiescent. vm_compute in Hs. injection Hs as <-.
    split; [reflexivity|]. repeat constructor.
Defined.

(** ** Lane selection: where a call sends, and how often *)

Lemma Produce_at b ev r :
  Conveyors b <> [] ->
  exists c,
    0 <= r mod Z.of_nat (length (Conveyors b)) < Z.of_nat (length (Conveyors b)) /\
    Conveyors b !! Z.to_nat (r mod Z.of_nat (length (Conveyors b))) = Some c /\
    Produce b ev r =
      match chansend c ev with
      | SendOk c' =>
          Done (set_lane b (Z.to_nat (r mod Z.of_nat (length (Conveyors b)))) c')
      | SendBlock => Blocked
      | SendPanic p => Fatal p
      end.
Proof.
  intros Hne.
  assert (Hn : 0 < Z.of_nat (length (Conveyors b))).
  { destruct (Conveyors b); [done | simpl; lia]. }
  pose proof (Z.mod_pos_bound r _ Hn) as Hr.
  destruct (at_index_in_range (Conveyors b) _ Hr) as [c Hc].
  exists c. split; [done|]. split; [by apply at_index_Ok in Hc as [_ ?]|].
  unfold Produce, Produce_send. by rewrite Produce_pick_lanes, Hc.
Qed.

Lemma grown_set_lane b i c c' :
  Conveyors b !! i = Some c ->
  (length (buf c) < length (buf c'))%nat ->
  grown b (set_lane b i c') = [i].
Proof.
  intros Hc Hlen. pose proof (lookup_lt_Some _ _ _ Hc) as Hi.
  apply Permutation_singleton_r. apply NoDup_Permutation.
  - apply NoDup_filter, NoDup_seq.
  - apply NoDup_singleton.
  - intros j. unfold grown. rewrite list_elem_of_filter, elem_of_seq, list_elem_of_singleton.
    split.
    + intros [Hlt _]. destruct (decide (j = i)) as [|Hne]; [done|].
      rewrite lane_buf_set_lane_ne in Hlt by done. lia.
    + intros ->. split; [|lia]. rewrite lane_buf_set_lane_eq by done.
      unfold lane_buf. by rewrite Hc.
Qed.

(** A call on a bus with room returns, has put its event into the lane of
    its draw, and leaves room for one event less. *)
Lemma Produce_room b ev r m :
  Conveyors b <> [] -> has_room (S m) b ->
  exists b',
    Produce b ev r = Done b' /\
    Produce_target b ev r = Some (Z.to_nat (r mod Z.of_nat (length (Conveyors b)))) /\
    length (Conveyors b') = length (Conveyors b) /\
    has_room m b'.
Proof.
  intros Hne Hroom. destruct (Produce_at b ev r Hne) as (c & Hr & Hc & Hp).
  destruct (Forall_lookup_1 _ _ _ _ Hroom Hc) as [Ho Hcap].
  unfold chansend in Hp. rewrite Ho in Hp.
  destruct (Z.ltb_spec (Z.of_nat (length (buf c))) (cap c)); [|lia].
  eexists. split; [exact Hp|]. split; [|split].
  - unfold Produce_target. rewrite Hp.
    rewrite (grown_set_lane b _ c); [done | done |]. simpl. rewrite length_app. simpl. lia.
  - simpl. apply length_insert.
  - unfold has_room. simpl. apply Forall_insert.
    + eapply Forall_impl; [exact Hroom|]. simpl. intros c' [? ?]. split; [done | lia].
    + simpl. split; [done|]. rewrite length_app. simpl. lia.
Qed.

(** Of [k] rounds of the [n] residues, [k] draws have a given residue. *)
Lemma count_residue (k n i : nat) :
  (i < n)%nat ->
  count (fun r => Z.to_nat (r mod Z.of_nat n) = i) (raw_draws k n) = k.
Proof.
  intros Hi. unfold count, raw_draws.
  assert (Hperm : filter (fun r => Z.to_nat (r mod Z.of_nat n) = i)
                         (seqZ 0 (Z.of_nat k * Z.of_nat n))
                  ≡ₚ (fun j => Z.of_nat i + j * Z.of_nat n) <$> seqZ 0 (Z.of_nat k)).
  { apply NoDup_Permutation.
    - apply NoDup_filter, NoDup_seqZ.
    - apply NoDup_fmap_2_strong; [|apply NoDup_seqZ].
      intros x y _ _ Hxy. nia.
    - intros r. rewrite list_elem_of_filter, elem_of_seqZ, list_elem_of_fmap.
      pose proof (Z.mod_pos_bound r (Z.of_nat n) ltac:(lia)) as Hmod.
      pose proof (Z.div_mod r (Z.of_nat n) ltac:(lia)) as Hdiv.
      split.
      + intros [Hres Hr]. exists (r / Z.of_nat n). split; [lia|].
        apply elem_of_seqZ. nia.
      + intros (j & -> & Hj%elem_of_seqZ). split; [|nia].
        rewrite Z.mod_add by lia. rewrite Z.mod_small by lia. lia. }
  rewrite Hperm, length_fmap, length_seqZ. lia.
Qed.

Lemma count_ext {A} (P Q : A -> Prop) `{!forall x, Decision (P x)}
    `{!forall x, Decision (Q x)} (l : list A) :
  (forall x, x ∈ l -> P x <-> Q x) -> count P l = count Q l.
Proof.
  intros Hext. unfold count. induction l as [|x l IH]; [done|].
  rewrite !filter_cons.
  assert (count P l = count Q l) as IH'.
  { apply IH. intros y Hy. apply Hext. by right. }
  unfold count in IH'.
  destruct (decide (P x)) as [HP|HP], (decide (Q x)) as [HQ|HQ]; simpl; try lia.
  - destruct HQ. apply Hext; [by left | done].
  - destruct HP. apply Hext; [by left | done].
Qed.

(** Counting by the first draw: when the sequences that start with [r] and
    satisfy [P] number [c] for the draws [r] in [Q], and none otherwise. *)
Lemma count_sequences (P : list Z -> Prop) `{!forall rs, Decision (P rs)}
    (Q : Z -> Prop) `{!forall r, Decision (Q r)} (c : nat) (seqs : list (list Z)) :
  forall space,
  (forall r, r ∈ space ->
     count (fun rs => P (r :: rs)) seqs = if decide (Q r) then c else 0%nat) ->
  count P (r ← space; (fun rs => r :: rs) <$> seqs) = (count Q space * c)%nat.
Proof.
  induction space as [|r space IH]; intros Hc; [done|].
  rewrite bind_cons. unfold count in *. rewrite filter_app, length_app.
  rewrite IH by (intros r' Hr'; apply Hc; by right).
  specialize (Hc r ltac:(by left)). rewrite filter_cons.
  assert (length (filter P ((fun rs => r :: rs) <$> seqs))
          = length (filter (fun rs => P (r :: rs)) seqs)) as ->.
  { clear. induction seqs as [|rs seqs IH]; [done|].
    rewrite fmap_cons, !filter_cons. destruct (decide (P (r :: rs))); simpl; lia. }
  rewrite Hc. destruct (decide (Q r)); simpl; lia.
Qed.

Lemma draw_sequences_length space m rs :
  rs ∈ draw_sequences space m -> length rs = m.
Proof.
  revert rs. induction m as [|m IH]; intros rs; simpl.
  - by intros ->%list_elem_of_singleton.
  - intros (r & (rs' & -> & Hrs')%list_elem_of_fmap & _)%list_elem_of_bind.
    simpl. f_equal. by apply IH.
Qed.

Lemma draw_sequences_count space m :
  length (draw_sequences space m) = (length space ^ m)%nat.
Proof.
  induction m as [|m IH]; [done|]. simpl. rewrite <- IH.
  generalize (draw_sequences space m). intros seqs. clear IH.
  induction space as [|r space IHs]; [done|].
  rewrite bind_cons, length_app, length_fmap, IHs. simpl. lia.
Qed.

(** The lanes of calls in a row on a bus with room: of the sequences of
    draws, each lane sequence is the outcome of as many as any other. *)
Lemma count_targets (k : nat) : forall evs b lanes,
  Conveyors b <> [] ->
  has_room (length evs) b ->
  length lanes = length evs ->
  Forall (fun i => (i < length (Conveyors b))%nat) lanes ->
  count (fun rs => Produce_targets b (zip evs rs) = map Some lanes)
        (draw_sequences (raw_draws k (length (Conveyors b))) (length evs))
  = (k ^ length evs)%nat.
Proof.
  induction evs as [|ev evs IH]; intros b lanes Hne Hroom Hlen Hlanes.
  - destruct lanes; [|done]. done.
  - destruct lanes as [|i lanes]; [done|]. simpl in Hlen.
    apply Forall_cons in Hlanes as [Hi Hlanes].
    cbn [draw_sequences length].
    rewrite (count_sequences _
               (fun r => Z.to_nat (r mod Z.of_nat (length (Conveyors b))) = i)
               (k ^ length evs)).
    + rewrite count_residue by done. simpl. lia.
    + intros r _.
      destruct (Produce_room b ev r (length evs) Hne Hroom) as (b' & Hp & Ht & Hl & Hroom').
      case_decide as Hres.
      * rewrite <- Hl. rewrite <- (IH b' lanes); [| |done|lia|by rewrite Hl].
        -- apply count_ext. intros rs _. cbn [zip zip_with Produce_targets].
           rewrite Hp, Ht, Hres. simpl. split; [by intros [= ->] | by intros ->].
        -- intros Hnil. rewrite Hnil in Hl. by destruct (Conveyors b).
      * unfold count. apply length_zero_iff_nil.
        induction (draw_sequences _ _) as [|rs seqs IHs]; [done|].
        rewrite filter_cons. rewrite decide_False; [done|].
        cbn [zip zip_with Produce_targets]. rewrite Ht. simpl. by intros [= ?].
Qed.

Lemma probability_ratio {A} (P : A -> Prop) `{!forall x, Decision (P x)}
    (space : list A) (c d : nat) :
  (0 < c)%nat -> (0 < d)%nat ->
  count P space = c -> length space = (c * d)%nat ->
  Qeq (probability P space) (Qmake 1 (Pos.of_nat d)).
Proof.
  intros Hc Hd Hcount Hlen. unfold probability, Qeq. simpl.
  rewrite Hcount, Hlen. nia.
Qed.

(** C8: on a bus with [n >= 1] lanes, a call of [Produce] that draws [r]
    takes the number that [rand.Intn(n)] returns, [r mod n], as the lane
    index, unchanged, and sends into that lane and no other: the index lies
    in [[0, n)] and names a lane, so the call panics neither in [Intn] nor
    on the index, and its only panic is the send on a closed lane.  Every
    lane is a possible target: on a bus with room, the call that draws [i]
    puts its event into lane [i].  Each lane has the same probability: of
    [k] rounds of equally likely draws, [k] put the event into a given
    lane, which is one part in [n].  Calls are independent: of the equally
    likely sequences of draws for [m] calls in a row, every sequence of [m]
    lanes is the outcome of equally many, one part in [n^m], the product of
    the single probabilities.  The choice depends on the draw and on the
    number of lanes alone, not on the event, on what the lanes hold or on
    earlier calls. *)
Theorem Produce_lane_selection b :
  Conveyors b <> [] ->
  let n := length (Conveyors b) in
  (forall ev r, exists c,
      Produce_pick b r = Ok (Some (r mod Z.of_nat n)) /\
      0 <= r mod Z.of_nat n < Z.of_nat n /\
      Conveyors b !! Z.to_nat (r mod Z.of_nat n) = Some c /\
      Produce b ev r =
        match chansend c ev with
        | SendOk c' => Done (set_lane b (Z.to_nat (r mod Z.of_nat n)) c')
        | SendBlock => Blocked
        | SendPanic p => Fatal p
        end) /\
  (forall ev r p, Produce b ev r = Fatal p -> p = SendOnClosed) /\
  (forall ev, has_room 1 b ->
     (forall r, Produce_target b ev r = Some (Z.to_nat (r mod Z.of_nat n))) /\
     (forall i, (i < n)%nat -> Produce_target b ev (Z.of_nat i) = Some i) /\
     (forall k i, (0 < k)%nat -> (i < n)%nat ->
        count (fun r => Produce_target b ev r = Some i) (raw_draws k n) = k /\
        length (raw_draws k n) = (k * n)%nat /\
        Qeq (probability (fun r => Produce_target b ev r = Some i) (raw_draws k n))
            (Qmake 1 (Pos.of_nat n)))) /\
  (forall evs lanes k,
     has_room (length evs) b ->
     length lanes = length evs ->
     Forall (fun i => (i < n)%nat) lanes ->
     (0 < k)%nat ->
     count (fun rs => Produce_targets b (zip evs rs) = map Some lanes)
           (draw_sequences (raw_draws k n) (length evs))
     = (k ^ length evs)%nat /\
     length (draw_sequences (raw_draws k n) (length evs))
     = ((k * n) ^ length evs)%nat /\
     Qeq (probability (fun rs => Produce_targets b (zip evs rs) = map Some lanes)
                     (draw_sequences (raw_draws k n) (length evs)))
         (Qmake 1 (Pos.of_nat (n ^ length evs)))) /\
  (forall b' r, length (Conveyors b') = length (Conveyors b) ->
      Produce_pick b' r = Produce_pick b r).
Proof.
  intros Hne n.
  assert (Hn : (0 < n)%nat).
  { subst n. destruct (Conveyors b); [done | simpl; lia]. }
  assert (Hraw : forall k, length (raw_draws k n) = (k * n)%nat).
  { intros k. unfold raw_draws. rewrite length_seqZ. lia. }
  split; [|split; [|split; [|split]]].
  - intros ev r. destruct (Produce_at b ev r Hne) as (c & Hr & Hc & Hp).
    exists c. by rewrite Produce_pick_lanes.
  - intros ev r p. destruct (Produce_at b ev r Hne) as (c & _ & _ & ->).
    unfold chansend. destruct (closed c); [by intros [= <-]|].
    by destruct (Z.of_nat (length (buf c)) <? cap c).
  - intros ev Hroom.
    assert (Ht : forall r, Produce_target b ev r = Some (Z.to_nat (r mod Z.of_nat n))).
    { intros r. by destruct (Produce_room b ev r 0 Hne Hroom) as (b' & _ & Ht & _). }
    split; [exact Ht|]. split.
    + intros i Hi. rewrite Ht. f_equal. rewrite Z.mod_small by lia. lia.
    + intros k i Hk Hi.
      assert (Hcount : count (fun r => Produce_target b ev r = Some i) (raw_draws k n) = k).
      { rewrite <- (count_residue k n i Hi) at 2. apply count_ext.
        intros r _. rewrite Ht. split; [by intros [= ?] | by intros ->]. }
      split; [done|]. split; [done|].
      by apply (probability_ratio _ _ k n).
  - intros evs lanes k Hroom Hlen Hlanes Hk.
    pose proof (count_targets k evs b lanes Hne Hroom Hlen Hlanes) as Hcount. fold n in Hcount.
    assert (Hall : length (draw_sequences (raw_draws k n) (length evs))
                   = ((k * n) ^ length evs)%nat).
    { by rewrite draw_sequences_count, Hraw. }
    split; [done|]. split; [done|].
    apply (probability_ratio _ _ (k ^ length evs) (n ^ length evs)); try done.
    + apply Nat.neq_0_lt_0, Nat.pow_nonzero. lia.
    + apply Nat.neq_0_lt_0, Nat.pow_nonzero. lia.
    + by rewrite Hall, Nat.pow_mul_l.
  - intros b' r Hlen. unfold Produce_pick. by rewrite Hlen.
Qed.

Lemma Produce_lane_selection_witness :
  let b := {| Resource := "iron"; Conveyors := replicate 4 (fresh 5) |} in
  let ev := Event.mk 0 "iron" (AnyString "Iron Plate") 0 in
  Produce b ev 6 = Done (set_lane b 2 {| buf := [ev]; cap := 5; closed := false |}) /\
  Produce_target b ev 3 = Some 3%nat /\
  count (fun r => Produce_target b ev r = Some 1%nat) (raw_draws 2 4) = 2%nat /\
  count (fun rs => Produce_targets b (zip [ev; ev] rs) = [Some 3%nat; Some 0%nat])
        (draw_sequences (raw_draws 1 4) 2) = 1%nat.
Proof.
  intros b ev.
  destruct (Produce_lane_selection b) as (H1 & _ & H3 & H4 & _); [done|].
  split; [|split; [|split]].
  - destruct (H1 ev 6) as (c & _ & _ & Hc & ->). simpl in Hc. by injection Hc as <-.
  - destruct (H3 ev) as (_ & Hi & _); [repeat constructor; simpl; lia|].
    apply (Hi 3%nat). simpl. lia.
  - destruct (H3 ev) as (_ & _ & Hk); [repeat constructor; simpl; lia|].
    apply (Hk 2%nat 1%nat); simpl; lia.
  - destruct (H4 [ev; ev] [3; 0]%nat 1%nat) as [Hc _].
    + repeat constructor; simpl; lia.
    + reflexivity.
    + repeat constructor; simpl; lia.
    + lia.
    + exact Hc.
Defined.

(** * Further properties of the code *)

(** ** NewMainBus on every [int] *)

Lemma alloc_conveyors_inv n buffer convs :
  match alloc_conveyors n buffer convs with
  | Ok convs' =>
      convs' = convs ++ replicate n (fresh buffer) /\
      (n = 0%nat \/ 0 <= buffer <= GoRuntime.max_chan_size)
  | Panic p =>
      p = MakechanSize /\
      (buffer < 0 \/ GoRuntime.max_chan_size < buffer) /\ (0 < n)%nat
  end.
Proof.
  destruct n as [|n].
  - simpl. split; [by rewrite app_nil_r | by left].
  - destruct (decide (0 <= buffer <= GoRuntime.max_chan_size)) as [Hin|Hout].
    + rewrite alloc_conveyors_ok by done. split; [done | by right].
    + assert (buffer < 0 \/ GoRuntime.max_chan_size < buffer) as Hb by lia.
      rewrite alloc_conveyors_panic by done. repeat split; [done | lia].
Qed.

(** The count the loop of [NewMainBus] runs to. *)
Lemma effective_lines N :
  GoInt.in_range N ->
  let lines := if GoInt.rem N 2 =? 0 then N else GoInt.incr N in
  (N = GoInt.max_int /\ lines = GoInt.min_int) \/
  (N < GoInt.max_int /\ lines = even_lanes N).
Proof.
  intros [Hlo Hhi]. cbv zeta. rewrite rem2_even. unfold even_lanes.
  destruct (decide (N = GoInt.max_int)) as [->|Hne].
  - left. split; reflexivity.
  - right. split; [lia|]. destruct (Z.even N); [done|].
    apply incr_small. lia.
Qed.

Lemma even_lanes_even N : Z.even (even_lanes N) = true.
Proof.
  unfold even_lanes. destruct (Z.even N) eqn:He; [done|].
  rewrite Z.even_add, He. done.
Qed.

(** X1: whatever [int] is asked for as the lane count, a bus that
    [NewMainBus] returns has an even number of lanes, none at all when the
    count asked is not positive or is the largest [int]; it carries the
    resource name, and every lane is empty, open and of the capacity
    asked. *)
Theorem NewMainBus_always_even resource N capacity b :
  GoInt.in_range N ->
  NewMainBus resource N capacity = Ok b ->
  Z.even (Z.of_nat (length (Conveyors b))) = true /\
  (N <= 0 \/ N = GoInt.max_int -> Conveyors b = []) /\
  (0 < N < GoInt.max_int -> Z.of_nat (length (Conveyors b)) = even_lanes N) /\
  Resource b = resource /\
  Forall (fun c => c = fresh capacity) (Conveyors b).
Proof.
  intros HN Hnew. unfold NewMainBus in Hnew. cbv zeta in Hnew.
  pose proof (effective_lines N HN) as Hlines. cbv zeta in Hlines.
  pose proof (alloc_conveyors_inv
                (Z.to_nat (if GoInt.rem N 2 =? 0 then N else GoInt.incr N)) capacity [])
    as Halloc.
  destruct (alloc_conveyors _ capacity []) as [convs|p]; [|done].
  destruct Halloc as [-> _]. simplify_eq. simpl.
  rewrite length_replicate.
  assert (Hmin : GoInt.min_int < 0) by (by vm_compute).
  pose proof (even_lanes_even N) as Heven.
  assert (Hev0 : N <= 0 -> even_lanes N <= 0).
  { unfold even_lanes. intros H0. destruct (Z.even N) eqn:He; [done|].
    assert (N <> 0) by (intros ->; done). lia. }
  split; [|split; [|split; [|split; [done|]]]].
  - destruct Hlines as [[_ ->]|[_ ->]].
    + by assert (Z.to_nat GoInt.min_int = 0%nat) as -> by lia.
    + destruct (Z.le_gt_cases (even_lanes N) 0).
      * replace (Z.to_nat (even_lanes N)) with 0%nat by lia. done.
      * by rewrite Z2Nat.id by lia.
  - intros HN0. destruct Hlines as [[_ ->]|[Hlt ->]].
    + by assert (Z.to_nat GoInt.min_int = 0%nat) as -> by lia.
    + destruct HN0 as [HN0|HN0]; [|lia].
      replace (Z.to_nat (even_lanes N)) with 0%nat by (specialize (Hev0 HN0); lia). done.
  - intros HN0. destruct Hlines as [[-> _]|[_ ->]]; [lia|].
    rewrite Z2Nat.id; [done|]. unfold even_lanes. destruct (Z.even N); lia.
  - apply Forall_replicate. done.
Qed.

Lemma NewMainBus_always_even_witness :
  Z.even (Z.of_nat (length (Conveyors
    {| Resource := "copper"; Conveyors := replicate 6 (fresh 0) |}))) = true.
Proof.
  apply (NewMainBus_always_even "copper" 5 0).
  - by vm_compute.
  - reflexivity.
Defined.

(** X2: [NewMainBus] panics in one way only, with the panic of [make], and
    it does so exactly when there is a lane to allocate, that is when the
    count asked is at least 1 and not the largest [int], and the capacity
    is negative or above the largest size that [make] accepts for a channel
    of events, [2^42 - 2]. *)
Theorem NewMainBus_panics_iff resource N capacity p :
  GoInt.in_range N ->
  NewMainBus resource N capacity = Panic p <->
  p = MakechanSize /\
  (capacity < 0 \/ GoRuntime.max_chan_size < capacity) /\
  1 <= N < GoInt.max_int.
Proof.
  intros HN. unfold NewMainBus. cbv zeta.
  pose proof (effective_lines N HN) as Hlines. cbv zeta in Hlines.
  pose proof (alloc_conveyors_inv
                (Z.to_nat (if GoInt.rem N 2 =? 0 then N else GoInt.incr N)) capacity [])
    as Halloc.
  assert (Hmin : GoInt.min_int < 0) by (by vm_compute).
  assert (Hev : even_lanes N <= 0 <-> N <= 0).
  { unfold even_lanes. destruct (Z.even N) eqn:He; [done|].
    assert (N <> 0) by (intros ->; done).
    assert (N <> -1 -> N + 1 <= 0 -> N <= 0) by lia. split; lia. }
  destruct (alloc_conveyors _ capacity []) as [convs|p'].
  - split; [done|]. intros (_ & Hcap & HN1). exfalso.
    destruct Halloc as [_ [Hz|Hc]]; [|lia].
    destruct Hlines as [[-> _]|[_ Hl]]; [lia|]. rewrite Hl in Hz. lia.
  - destruct Halloc as (-> & Hcap & Hpos). split.
    + intros [= <-]. split; [done|]. split; [done|].
      destruct Hlines as [[_ Hl]|[Hlt Hl]]; rewrite Hl in Hpos; [lia|]. lia.
    + by intros (-> & _ & _).
Qed.

Lemma NewMainBus_panics_iff_witness :
  NewMainBus "iron" 4 (-20) = Panic MakechanSize /\
  NewMainBus "iron" 2 (2 ^ 42) = Panic MakechanSize.
Proof.
  split.
  - apply (NewMainBus_panics_iff "iron" 4 (-20) MakechanSize).
    + by vm_compute.
    + split; [done|]. split; [left; lia|]. split; [lia | by vm_compute].
  - apply (NewMainBus_panics_iff "iron" 2 (2 ^ 42) MakechanSize).
    + by vm_compute.
    + split; [done|]. split; [right; by vm_compute|]. split; [lia | by vm_compute].
Defined.

(** ** Close, once and twice *)

Lemma close_all_Panic convs p :
  close_all convs = Panic p <->
  p = CloseOfClosed /\ Exists (fun c => closed c = true) convs.
Proof.
  revert p. induction convs as [|c convs IH]; intros p; simpl.
  - split; [done|]. intros [_ H]. by apply Exists_nil in H.
  - unfold closechan. destruct (closed c) eqn:Hc.
    + split; [intros [= <-]; split; [done | by left] | by intros [-> _]].
    + destruct (close_all convs) as [rest|p'].
      * split; [done|]. intros [Hp H]. apply Exists_cons in H as [H|H]; [congruence|].
        by pose proof (proj2 (IH p) (conj Hp H)).
      * destruct (proj1 (IH p') eq_refl) as [-> H]. split.
        -- intros [= <-]. split; [done | by right].
        -- by intros [-> _].
Qed.

(** X3: [Close] succeeds exactly on a bus whose lanes are all open, and
    panics with "close of closed channel" as soon as one lane is closed
    already.  So after a [Close] that returned, a second [Close] panics,
    unless the bus has no lanes, where [Close] changes nothing however often
    it is called.  In the running system the second call panics in its
    first step. *)
Theorem Close_twice b b' :
  Close b = Ok b' ->
  Forall (fun c => closed c = false) (Conveyors b) /\
  (Conveyors b <> [] -> Close b' = Panic CloseOfClosed) /\
  (Conveyors b = [] -> b' = b /\ Close b' = Ok b') /\
  (forall b0 p, Close b0 = Panic p <->
     p = CloseOfClosed /\ Exists (fun c => closed c = true) (Conveyors b0)) /\
  (forall s p r rest,
     bus s = b' -> Conveyors b <> [] ->
     producers s !! p = Some (IClose 0 :: rest) ->
     step_fn (RunProd p r) s = Some (LPanic CloseOfClosed, Crashed CloseOfClosed)).
Proof.
  intros Hclose. apply Close_Ok in Hclose as [Hopen ->].
  assert (Hpanic : forall b0 p, Close b0 = Panic p <->
     p = CloseOfClosed /\ Exists (fun c => closed c = true) (Conveyors b0)).
  { intros b0 p. unfold Close. rewrite <- close_all_Panic.
    destruct (close_all (Conveyors b0)); [done|]. split; congruence. }
  split; [done|]. split; [|split; [|split; [done|]]].
  - intros Hne. apply Hpanic. split; [done|]. simpl.
    destruct (Conveyors b) as [|c convs]; [done|]. by left.
  - intros Hnil. destruct b as [name convs]. simpl in *. subst convs. done.
  - intros s p r rest Hbus Hne Hp. simpl. unfold step_prod. rewrite Hp, Hbus. simpl.
    destruct (Conveyors b) as [|c convs]; [done|]. done.
Qed.

Lemma Close_twice_witness :
  let b := {| Resource := "copper"; Conveyors := replicate 2 (fresh 20) |} in
  let b' := {| Resource := "copper"; Conveyors := replicate 2 (shut (fresh 20)) |} in
  Close b = Ok b' /\ Close b' = Panic CloseOfClosed.
Proof.
  intros b b'. split; [reflexivity|].
  destruct (Close_twice b b') as (_ & Hsecond & _); [reflexivity|].
  by apply Hsecond.
Defined.

(** ** Consume on its own *)

Lemma Consume_loop_drains items : forall fuel b line c out,
  at_index (Conveyors b) line = Ok c ->
  buf c = items -> (length items < fuel)%nat ->
  Consume_loop fuel b line out
  = (out ++ map (print b line) items,
     set_lane b (Z.to_nat line) {| buf := []; cap := cap c; closed := closed c |},
     if closed c then LoopLeft else LoopParked).
Proof.
  induction items as [|ev rest IH]; intros fuel b line c out Hat Hb Hfuel.
  - destruct fuel as [|fuel]; [simpl in Hfuel; lia|].
    simpl. unfold Consume_iter, chanrecv. rewrite Hat, Hb.
    apply at_index_Ok in Hat as [_ Hc].
    assert (set_lane b (Z.to_nat line) {| buf := []; cap := cap c; closed := closed c |} = b)
      as ->.
    { destruct b as [name convs], c as [items cp cl]. unfold set_lane. simpl in *.
      subst items. by rewrite list_insert_id. }
    rewrite app_nil_r. by destruct (closed c).
  - destruct fuel as [|fuel]; [simpl in Hfuel; lia|].
    pose proof Hat as Hc. apply at_index_Ok in Hc as [Hl Hc].
    set (c1 := {| buf := rest; cap := cap c; closed := closed c |}).
    simpl. unfold Consume_iter, chanrecv. rewrite Hat, Hb. fold c1.
    rewrite (IH fuel (set_lane b (Z.to_nat line) c1) line c1); [| |done|simpl in Hfuel; lia].
    + simpl. rewrite <- app_assoc. simpl. f_equal. f_equal.
      unfold set_lane. simpl. by rewrite list_insert_insert_eq.
    + apply at_index_Ok. split; [done|]. simpl.
      apply list_lookup_insert_eq. by apply lookup_lt_Some in Hc.
Qed.

Lemma wg_Done_counted wg : 1 <= wg -> wg_Done wg = (wg - 1, Ok tt).
Proof. intros H. unfold wg_Done. by destruct (Z.ltb_spec (wg - 1) 0); [lia|]. Qed.

Lemma wg_Done_zero : wg_Done 0 = (-1, Panic NegativeWaitGroup).
Proof. reflexivity. Qed.

(** X4: [Consume], left to run on its own on lane [line] of the bus with
    the wait group's counter at [wg], prints every event the lane buffers,
    oldest first and each with the bus's resource name and the line; it
    leaves that lane empty and every other lane, the capacities and the
    closed flags as they were.  On an open lane it then waits, and the
    counter is untouched.  On a closed lane the loop ends and the deferred
    [wg.Done()] lowers the counter by one: the call returns if the counter
    was at least one, and panics on a negative counter if it was zero. *)
Theorem Consume_alone_drains b line c wg :
  at_index (Conveyors b) line = Ok c ->
  0 <= wg ->
  Consume b line wg
  = (map (print b line) (buf c),
     set_lane b (Z.to_nat line) {| buf := []; cap := cap c; closed := closed c |},
     (if closed c then wg - 1 else wg),
     (if closed c
      then if wg =? 0 then Fatal NegativeWaitGroup else Done tt
      else Blocked)).
Proof.
  intros Hat Hwg. unfold Consume.
  pose proof Hat as Hc. apply at_index_Ok in Hc as [_ Hc].
  unfold lane_buf. rewrite Hc.
  rewrite (Consume_loop_drains (buf c) _ b line c []) by (done || lia).
  destruct (closed c); [|done]. unfold deferred_Done.
  destruct (Z.eqb_spec wg 0) as [->|Hne]; [done|].
  by rewrite wg_Done_counted by lia.
Qed.

Lemma Consume_alone_drains_witness :
  let c := {| buf := [iron 0; iron 1]; cap := 2; closed := false |} in
  let b := {| Resource := "iron"; Conveyors := [fresh 2; c] |} in
  let b' := {| Resource := "iron"; Conveyors := [fresh 2; shut c] |} in
  Consume b 1 2
  = ([print b 1 (iron 0); print b 1 (iron 1)],
     {| Resource := "iron"; Conveyors := [fresh 2; fresh 2] |}, 2, Blocked) /\
  Consume b' 1 1
  = ([print b 1 (iron 0); print b 1 (iron 1)],
     {| Resource := "iron"; Conveyors := [fresh 2; shut (fresh 2)] |}, 0, Done tt) /\
  Consume b' 1 0
  = ([print b 1 (iron 0); print b 1 (iron 1)],
     {| Resource := "iron"; Conveyors := [fresh 2; shut (fresh 2)] |}, -1,
     Fatal NegativeWaitGroup).
Proof.
  intros c b b'. split; [|split].
  - apply (Consume_alone_drains b 1 c 2); [reflexivity | lia].
  - apply (Consume_alone_drains b' 1 (shut c) 1); [reflexivity | lia].
  - apply (Consume_alone_drains b' 1 (shut c) 0); [reflexivity | lia].
Defined.

(** X5: [Consume] called with a line that is negative or not below the
    number of lanes panics on the index before it receives or prints
    anything, and the bus is untouched.  The deferred [wg.Done()] still
    runs and lowers the counter by one: with the counter at one or more the
    process dies with the index panic, and with the counter at zero the
    deferred call panics in turn and the process dies with both, the index
    panic first.  In the running system the step of such a consumer ends
    the process in the same way. *)
Theorem Consume_bad_line b line cnt :
  line < 0 \/ Z.of_nat (length (Conveyors b)) <= line ->
  0 <= cnt ->
  let index_panic := IndexOutOfRange line (length (Conveyors b)) in
  let p := if cnt =? 0 then Nested index_panic NegativeWaitGroup else index_panic in
  Consume b line cnt = ([], b, cnt - 1, Fatal p) /\
  (forall s k,
     bus s = b -> wg s = cnt -> consumers s !! k = Some (CRange line) ->
     step_fn (RunCons k) s = Some (LPanic p, Crashed p)).
Proof.
  intros Hline Hwg index_panic p.
  assert (Hat : at_index (Conveyors b) line = Panic index_panic).
  { unfold at_index. destruct (Z.ltb_spec line 0); [done|].
    destruct Hline as [?|Hge]; [lia|].
    by rewrite (proj2 (lookup_ge_None _ _)) by lia. }
  assert (Hp : through_Done cnt index_panic = p).
  { unfold through_Done, p. destruct (Z.eqb_spec cnt 0) as [->|Hne]; [done|].
    by rewrite wg_Done_counted by lia. }
  split.
  - unfold Consume. simpl. unfold Consume_iter. rewrite Hat. simpl. by rewrite Hp.
  - intros s k <- <- Hk. simpl. unfold step_cons, Consume_iter. by rewrite Hk, Hat, Hp.
Qed.

Lemma Consume_bad_line_witness :
  Consume scenario_bus 4 1 = ([], scenario_bus, 0, Fatal (IndexOutOfRange 4 4)) /\
  Consume scenario_bus (-1) 0
  = ([], scenario_bus, -1, Fatal (Nested (IndexOutOfRange (-1) 4) NegativeWaitGroup)) /\
  panic_message (IndexOutOfRange 4 4)
  = "runtime error: index out of range [4] with length 4"%string /\
  panic_message (IndexOutOfRange (-1) 4)
  = "runtime error: index out of range [-1]"%string.
Proof.
  split; [|split; [|split; reflexivity]].
  - apply (Consume_bad_line scenario_bus 4 1); [right; simpl; lia | lia].
  - apply (Consume_bad_line scenario_bus (-1) 0); [left; lia | lia].
Defined.

(** ** Produce, Close, Consume, one after the other *)

Lemma selected_length b b' r :
  length (Conveyors b') = length (Conveyors b) -> selected b' r = selected b r.
Proof. intros H. unfold selected, Produce_pick. by rewrite H. Qed.

Lemma sent_to_length b b' l calls :
  length (Conveyors b') = length (Conveyors b) -> sent_to b' l calls = sent_to b l calls.
Proof.
  intros H. unfold sent_to. induction calls as [|call calls IH]; [done|].
  simpl. rewrite (selected_length b b') by done.
  case_decide; [f_equal|]; apply IH.
Qed.

(** What one call that returns does to the buffers. *)
Lemma Produce_Done_buffers b ev r b' :
  Produce b ev r = Done b' ->
  Resource b' = Resource b /\
  length (Conveyors b') = length (Conveyors b) /\
  map closed (Conveyors b') = map closed (Conveyors b) /\
  map cap (Conveyors b') = map cap (Conveyors b) /\
  forall l, lane_buf b' l = lane_buf b l ++ sent_to b l [(ev, r)].
Proof.
  unfold Produce, sent_to, selected. simpl.
  destruct (Produce_pick b r) as [[idx|]|]; [| |done].
  - intros Hs. apply Produce_send_Done in Hs as (c & Hi & Hc & Ho & _ & ->).
    pose proof (lookup_lt_Some _ _ _ Hc) as Hlt. simpl.
    split; [done|]. split; [apply length_insert|].
    split; [by rewrite (closed_flags_insert _ _ c)|].
    split.
    + rewrite list_fmap_insert. simpl. apply list_insert_id.
      by rewrite list_lookup_fmap, Hc.
    + intros l. case_decide as Hl.
      * simplify_eq. rewrite lane_buf_set_lane_eq by done.
        unfold lane_buf. by rewrite Hc.
      * rewrite lane_buf_set_lane_ne by congruence. by rewrite app_nil_r.
  - intros [= <-]. repeat split; try done. intros l.
    rewrite decide_False by done. by rewrite app_nil_r.
Qed.

Lemma Produce_all_buffers calls : forall b b',
  Produce_all b calls = Done b' ->
  Resource b' = Resource b /\
  length (Conveyors b') = length (Conveyors b) /\
  map closed (Conveyors b') = map closed (Conveyors b) /\
  map cap (Conveyors b') = map cap (Conveyors b) /\
  forall l, lane_buf b' l = lane_buf b l ++ sent_to b l calls.
Proof.
  induction calls as [|[ev r] calls IH]; intros b b' Hall; simpl in Hall.
  - simplify_eq. repeat split; try done. intros l. by rewrite app_nil_r.
  - destruct (Produce b ev r) as [b1| |] eqn:H1; try done.
    apply Produce_Done_buffers in H1 as (Hr1 & Hl1 & Hc1 & Hp1 & Hb1).
    apply IH in Hall as (Hr & Hl & Hc & Hp & Hb).
    split; [congruence|]. split; [congruence|]. split; [congruence|].
    split; [congruence|]. intros l.
    rewrite Hb, Hb1, (sent_to_length b b1) by done.
    rewrite <- app_assoc. f_equal.
    unfold sent_to. simpl. by case_decide.
Qed.

(** Calls that find room all return. *)
Lemma Produce_all_room calls : forall b,
  Forall (fun c => closed c = false /\
                   Z.of_nat (length (buf c) + length calls) <= cap c) (Conveyors b) ->
  exists b', Produce_all b calls = Done b'.
Proof.
  induction calls as [|[ev r] calls IH]; intros b Hroom; simpl; [by eexists|].
  assert (exists b1, Produce b ev r = Done b1 /\
            Forall (fun c => closed c = false /\
                     Z.of_nat (length (buf c) + length calls) <= cap c) (Conveyors b1))
    as (b1 & -> & Hroom1); [|by apply IH].
  unfold Produce. destruct (Produce_pick b r) as [[idx|]|] eqn:Hpick.
  - unfold Produce_pick in Hpick.
    destruct (Z.eqb_spec (Z.of_nat (length (Conveyors b))) 0) as [|Hne]; [done|].
    unfold Intn in Hpick.
    destruct (Z.leb_spec (Z.of_nat (length (Conveyors b))) 0); [done|]. simplify_eq.
    destruct (at_index_in_range (Conveyors b)
                (r mod Z.of_nat (length (Conveyors b)))) as [c Hat].
    { apply Z.mod_pos_bound. lia. }
    unfold Produce_send, chansend. rewrite Hat.
    apply at_index_Ok in Hat as [_ Hc].
    destruct (Forall_lookup_1 _ _ _ _ Hroom Hc) as [Ho Hcap]. rewrite Ho.
    simpl in Hcap.
    destruct (Z.ltb_spec (Z.of_nat (length (buf c))) (cap c)); [|lia].
    eexists. split; [done|]. simpl.
    apply Forall_insert.
    + eapply Forall_impl; [done|]. simpl. intros c' [? ?]. split; [done | lia].
    + simpl. split; [done|]. rewrite length_app. simpl. lia.
  - exists b. split; [done|].
    eapply Forall_impl; [done|]. simpl. intros c' [? ?]. split; [done | lia].
  - unfold Produce_pick, Intn in Hpick.
    destruct (Z.eqb_spec (Z.of_nat (length (Conveyors b))) 0); [done|].
    destruct (Z.leb_spec (Z.of_nat (length (Conveyors b))) 0); [lia | done].
Qed.

(** X6: on a bus whose lanes are open and have room for as many more events
    as there are calls, a goroutine on its own can produce all the events,
    then close the bus, and a consumer started only then on any lane, with
    the wait group counting it, prints, in order, what the lane held before
    followed by the events whose draw selected that lane, in the order of
    the calls, lowers the wait group by one and returns. *)
Theorem produce_close_consume b calls :
  Forall (fun c => closed c = false /\
                   Z.of_nat (length (buf c) + length calls) <= cap c) (Conveyors b) ->
  exists b1 b2,
    Produce_all b calls = Done b1 /\
    Close b1 = Ok b2 /\
    forall line c wg,
      at_index (Conveyors b) line = Ok c ->
      1 <= wg ->
      exists b3,
        Consume b2 line wg
        = (map (print b line) (buf c ++ sent_to b (Z.to_nat line) calls), b3,
           wg - 1, Done tt) /\
        lane_buf b3 (Z.to_nat line) = [].
Proof.
  intros Hroom.
  destruct (Produce_all_room calls b Hroom) as [b1 H1].
  pose proof (Produce_all_buffers _ _ _ H1) as (Hr1 & Hl1 & Hc1 & _ & Hb1).
  assert (Hopen1 : Forall (fun c => closed c = false) (Conveyors b1)).
  { apply Forall_lookup_2. intros i c1 Hi.
    assert (map closed (Conveyors b) !! i = Some (closed c1)) as Hflag.
    { by rewrite <- Hc1, list_lookup_fmap, Hi. }
    rewrite list_lookup_fmap in Hflag.
    destruct (Conveyors b !! i) as [c0|] eqn:H0; [|done]. simpl in Hflag.
    destruct (Forall_lookup_1 _ _ _ _ Hroom H0) as [Ho _]. congruence. }
  exists b1, {| Resource := Resource b1; Conveyors := map shut (Conveyors b1) |}.
  split; [done|]. split; [by apply Close_Ok|].
  intros line c wg Hat Hwg. apply at_index_Ok in Hat as [Hl Hc].
  destruct (lookup_lt_is_Some_2 (Conveyors b1) (Z.to_nat line)) as [c1 Hc1'].
  { rewrite Hl1. by apply lookup_lt_Some in Hc. }
  specialize (Hb1 (Z.to_nat line)). unfold lane_buf in Hb1 at 1 2.
  rewrite Hc, Hc1' in Hb1.
  set (b2 := {| Resource := Resource b1; Conveyors := map shut (Conveyors b1) |}).
  assert (Hat2 : at_index (Conveyors b2) line = Ok (shut c1)).
  { apply at_index_Ok. split; [done|]. simpl. by rewrite list_lookup_fmap, Hc1'. }
  eexists. unfold Consume, lane_buf.
  apply at_index_Ok in Hat2 as Hc2. destruct Hc2 as [_ Hc2]. rewrite Hc2.
  rewrite (Consume_loop_drains (buf (shut c1)) _ b2 line (shut c1) []) by (done || lia).
  change (closed (shut c1)) with true. cbv iota. unfold deferred_Done.
  rewrite wg_Done_counted by done. simpl.
  rewrite Hb1. unfold print. simpl. rewrite Hr1.
  split; [done|].
  fold (lane_buf (set_lane b2 (Z.to_nat line) {| buf := []; cap := cap c1; closed := true |})
                 (Z.to_nat line)).
  rewrite lane_buf_set_lane_eq; [done|]. by apply lookup_lt_Some in Hc2.
Qed.

Lemma produce_close_consume_witness :
  let b := {| Resource := "iron"; Conveyors := replicate 2 (fresh 3) |} in
  exists b1 b2 b3,
    Produce_all b [(iron 0, 4); (iron 1, 3); (iron 2, 6)] = Done b1 /\
    Close b1 = Ok b2 /\
    Consume b2 0 2 = ([print b 0 (iron 0); print b 0 (iron 2)], b3, 1, Done tt).
Proof.
  intros b.
  destruct (produce_close_consume b [(iron 0, 4); (iron 1, 3); (iron 2, 6)])
    as (b1 & b2 & H1 & H2 & H3).
  - repeat constructor; simpl; lia.
  - destruct (H3 0 (fresh 3) 2) as (b3 & H4 & _); [reflexivity | lia |].
    by exists b1, b2, b3.
Defined.

(** ** What no execution changes *)

Lemma effect_shape b l b' :
  effect b l b' ->
  Resource b' = Resource b /\
  map cap (Conveyors b') = map cap (Conveyors b) /\
  (within_capacity b -> within_capacity b') /\
  (forall n, map closed (Conveyors b) !! n = Some true ->
             map closed (Conveyors b') !! n = Some true).
Proof.
  assert (Hins : forall n c c', Conveyors b !! n = Some c -> cap c' = cap c ->
            (closed c = true -> closed c' = true) ->
            (Z.of_nat (length (buf c)) <= cap c -> Z.of_nat (length (buf c')) <= cap c') ->
            Resource (set_lane b n c') = Resource b /\
            map cap (Conveyors (set_lane b n c')) = map cap (Conveyors b) /\
            (within_capacity b -> within_capacity (set_lane b n c')) /\
            (forall m, map closed (Conveyors b) !! m = Some true ->
                       map closed (Conveyors (set_lane b n c')) !! m = Some true)).
  { intros n c c' Hc Hcap Hcl Hlen. simpl. split; [done|]. split; [|split].
    - rewrite list_fmap_insert, Hcap. apply list_insert_id.
      by rewrite list_lookup_fmap, Hc.
    - unfold within_capacity. simpl. intros Hall. apply Forall_insert; [done|].
      apply Hlen. by apply (Forall_lookup_1 _ _ _ _ Hall Hc).
    - intros m Hm. rewrite list_fmap_insert.
      destruct (decide (n = m)) as [->|Hne].
      + rewrite list_lookup_insert_eq.
        * f_equal. apply Hcl. rewrite list_lookup_fmap, Hc in Hm. simpl in Hm. congruence.
        * rewrite length_map. by apply lookup_lt_Some in Hc.
      + by rewrite list_lookup_insert_ne. }
  intros Heff.
  destruct Heff as [p ev|p idx|p m ev c Hc Ho Hlt|p k m ev c Hc Ho Hb
                   |k m out c rest Hc Hb Hr|k m c Hc Hb Hcl
                   |p m c Hc Ho|p]; try done.
  - apply (Hins m c); simpl; try done; [congruence|]. rewrite length_app. simpl. lia.
  - apply (Hins m c); simpl; try done. rewrite Hb. simpl. lia.
  - by apply (Hins m c).
Qed.

(** X7: no execution changes the resource name of the bus, the number of
    its lanes or the capacity of any lane; a lane that is closed stays
    closed; and if no lane holds more than its capacity at the start, none
    does at any later moment. *)
Theorem bus_shape_is_kept s tr s' :
  exec (Live s) tr (Live s') ->
  Resource (bus s') = Resource (bus s) /\
  length (Conveyors (bus s')) = length (Conveyors (bus s)) /\
  map cap (Conveyors (bus s')) = map cap (Conveyors (bus s)) /\
  (forall n c c', Conveyors (bus s) !! n = Some c -> Conveyors (bus s') !! n = Some c' ->
                  closed c = true -> closed c' = true) /\
  (within_capacity (bus s) -> within_capacity (bus s')).
Proof.
  intros Hex.
  assert (Resource (bus s') = Resource (bus s) /\
          map cap (Conveyors (bus s')) = map cap (Conveyors (bus s)) /\
          (within_capacity (bus s) -> within_capacity (bus s')) /\
          (forall n, map closed (Conveyors (bus s)) !! n = Some true ->
                     map closed (Conveyors (bus s')) !! n = Some true))
    as (Hres & Hcap & Hwithin & Hclosed).
  { remember (Live s) as c0 eqn:Hc0. remember (Live s') as c1 eqn:Hc1.
    revert s' Hc1. induction Hex as [|c0 tr c1 l c2 Hex IH Hstep]; intros s' Hc1; subst.
    - by simplify_eq.
    - inversion Hstep as [s0 ch l0 c0 Hfn]; subst.
      destruct (IH eq_refl s0 eq_refl) as (Hr0 & Hc0 & Hw0 & Hcl0).
      apply step_effect, effect_shape in Hfn as (Hr1 & Hc1 & Hw1 & Hcl1).
      split; [congruence|]. split; [congruence|]. split; [by auto|]. by auto. }
  split; [done|]. split.
  { apply (f_equal length) in Hcap. by rewrite !length_map in Hcap. }
  split; [done|]. split; [|done].
  intros n c c' Hc Hc' Hcl.
  specialize (Hclosed n). rewrite !list_lookup_fmap, Hc, Hc' in Hclosed. simpl in Hclosed.
  rewrite Hcl in Hclosed. specialize (Hclosed eq_refl). by simplify_eq.
Qed.

Lemma bus_shape_is_kept_witness :
  let s' := (run sample_schedule (Live sample_start)).2 in
  exists s1, s' = Live s1 /\
    Resource (bus s1) = "iron"%string /\ length (Conveyors (bus s1)) = 2%nat.
Proof.
  intros s'.
  pose proof (run_exec sample_schedule (Live sample_start)) as Hex. fold s' in Hex.
  destruct s' as [s1|] eqn:Hs1; [|by vm_compute in Hs1].
  exists s1. split; [done|].
  destruct (bus_shape_is_kept _ _ _ Hex) as (Hres & Hlen & _).
  split; [exact Hres | exact Hlen].
Defined.

(** ** Every execution ends *)

(** X8: no execution is longer than what its first state has left to do:
    three steps for every call of [Produce] not yet started and two for one
    at its send, one step for every lane a call of [Close] has yet to pass
    and one for its return, one for every buffered event and one for every
    consumer that has not returned, and one more if it ends in a panic.  So
    no goroutine spins: a run of producers and consumers finishes, or all
    that is left of it waits, or it panics. *)
Theorem executions_are_finite s tr c :
  exec (Live s) tr c ->
  (length tr <= S (steps_left s))%nat /\
  (forall s', c = Live s' -> (length tr + steps_left s' <= steps_left s)%nat).
Proof.
  intros Hex. split.
  - apply exec_live_prefix in Hex as (tr0 & s0 & Hex0 & Hend).
    apply exec_bounded in Hex0.
    destruct Hend as [[-> _]|(pn & -> & _)]; [lia|].
    rewrite length_app. simpl. lia.
  - intros s' ->. by apply exec_bounded.
Qed.

Lemma executions_are_finite_witness :
  (length (run sample_schedule (Live sample_start)).1 <= 15)%nat.
Proof.
  apply (proj1 (executions_are_finite sample_start _ _
                  (run_exec sample_schedule (Live sample_start)))).
Defined.

(** ** The driver on any bus that NewMainBus returns *)

Lemma NewMainBus_Ok_shape resource N capacity b :
  NewMainBus resource N capacity = Ok b ->
  b = {| Resource := resource;
         Conveyors := replicate (length (Conveyors b)) (fresh capacity) |}.
Proof.
  unfold NewMainBus. cbv zeta.
  pose proof (alloc_conveyors_inv
                (Z.to_nat (if GoInt.rem N 2 =? 0 then N else GoInt.incr N)) capacity [])
    as Halloc.
  destruct (alloc_conveyors _ capacity []) as [convs|p]; [|done].
  destruct Halloc as [-> _]. intros [= <-]. simpl. by rewrite length_replicate.
Qed.

(** X9: take any bus with at least one lane that [NewMainBus] returns, of
    any capacity, zero included, and any list of events; start one consumer
    per lane and let one goroutine produce the events in order and then
    close the bus.  Whatever the draws and the schedule, the run does not
    panic, takes at most three steps per event and two per lane and one
    more, and cannot stop before the driver and all consumers have returned;
    at every moment each lane has delivered, in order, a first part of what
    was sent into it, itself a selection in order of the events; and at the
    end each lane has delivered all that was sent into it and the lanes
    together every event exactly once. *)
Theorem driver_delivers_all resource N capacity b evs tr c :
  NewMainBus resource N capacity = Ok b ->
  Conveyors b <> [] ->
  exec (Live (start b evs)) tr c ->
  exists s,
    c = Live s /\
    (length tr <= 3 * length evs + 2 * length (Conveyors b) + 1)%nat /\
    (finished s \/ exists ch l s', step_fn ch s = Some (l, Live s')) /\
    (forall l, deqs l tr `prefix_of` enqs l tr /\ enqs l tr `sublist_of` evs) /\
    (quiescent s ->
       finished s /\
       (forall l, deqs l tr = enqs l tr /\ deqs l tr `sublist_of` evs) /\
       received (length (Conveyors b)) tr ≡ₚ evs).
Proof.
  intros Hnew Hne Hex. apply NewMainBus_Ok_shape in Hnew.
  set (n := length (Conveyors b)) in *.
  assert (Hn : (0 < n)%nat).
  { subst n. destruct (Conveyors b); [done | simpl; lia]. }
  rewrite Hnew in Hex.
  destruct (driver_run resource n capacity evs tr c Hn Hex)
    as (s & -> & Hbound & Hprog & Hfifo & Hend).
  exists s. split; [done|]. split; [lia|]. done.
Qed.

Lemma driver_delivers_all_witness :
  let b := {| Resource := "copper"; Conveyors := replicate 2 (fresh 0) |} in
  let sched := [RunProd 0 0; Handoff 0 0; RunProd 0 1; Handoff 0 1]%nat in
  (length (run sched (Live (start b [iron 0; iron 1]))).1 <= 11)%nat.
Proof.
  intros b sched.
  destruct (driver_delivers_all "copper" 1 0 b [iron 0; iron 1]
              (run sched (Live (start b [iron 0; iron 1]))).1
              (run sched (Live (start b [iron 0; iron 1]))).2) as (s & _ & Hlen & _).
  - reflexivity.
  - done.
  - apply run_exec.
  - exact Hlen.
Defined.

(** ** Room for every event *)

Lemma enqs_length_routed l tr : (length (enqs l tr) <= length (routed tr))%nat.
Proof.
  rewrite enqs_routed, length_map. apply length_filter.
Qed.

(** With room for every event the lane the driver sends into is not full. *)
Lemma send_finds_room name n capacity evs tr s idx ev rest :
  (0 < n)%nat ->
  Z.of_nat (length evs) <= capacity ->
  exec (Live (start {| Resource := name; Conveyors := replicate n (fresh capacity) |} evs))
       tr (Live s) ->
  producers s = [ISend idx ev :: rest] ->
  exists c, Conveyors (bus s) !! Z.to_nat idx = Some c /\
    Produce_send (bus s) idx ev
    = Done (set_lane (bus s) (Z.to_nat idx)
              {| buf := buf c ++ [ev]; cap := cap c; closed := false |}).
Proof.
  intros Hn Hcap Hex Hp.
  set (b := {| Resource := name; Conveyors := replicate n (fresh capacity) |}) in *.
  destruct (exec_inv evs n _ _ _ Hn (inv_start name n capacity evs) Hex)
    as (s0 & [= <-] & [Hlanes (prog & Hprods & Hdrv) _ _ _ _]).
  rewrite Hp in Hprods. simplify_eq.
  apply driver_at_send in Hdrv as (evs2 & -> & Hsent & Hidx & Hopen).
  destruct (at_index_in_range (Conveyors (bus s)) idx) as [c Hat]; [lia|].
  pose proof Hat as Hc. apply at_index_Ok in Hc as [_ Hc].
  pose proof (flags_open_lookup _ _ _ Hopen Hc) as Ho.
  assert (Hfresh : Conveyors (bus (start b evs)) !! Z.to_nat idx = Some (fresh capacity)).
  { simpl. apply lookup_replicate. split; [done | lia]. }
  destruct (exec_lane _ _ _ _ _ Hex Hfresh) as (c' & Hc' & Hcapc & _).
  assert (c' = c) as -> by congruence. simpl in Hcapc.
  pose proof (exec_fifo _ _ _ (Z.to_nat idx) Hex) as Hfifo.
  unfold lane_buf in Hfifo. rewrite Hfresh, Hc in Hfifo. simpl in Hfifo.
  assert (Hroom : Z.of_nat (length (buf c)) < cap c).
  { pose proof (enqs_length_routed (Z.to_nat idx) tr) as Hle.
    rewrite Hfifo, length_app in Hle.
    apply (f_equal length) in Hsent. rewrite length_app, length_map in Hsent.
    simpl in Hsent. lia. }
  exists c. split; [done|]. unfold Produce_send, chansend.
  rewrite Hat. rewrite Ho at 1.
  destruct (Z.ltb_spec (Z.of_nat (length (buf c))) (cap c)); [|lia].
  by rewrite Ho.
Qed.

(** X10: when the capacity of the lanes is at least the number of events
    the driver produces, no call of [Produce] ever waits: whenever the
    driver is at its send, the send can complete at once, whether or not
    any consumer has taken anything. *)
Theorem ample_capacity_never_blocks name n capacity evs tr s idx ev rest r :
  (0 < n)%nat ->
  Z.of_nat (length evs) <= capacity ->
  exec (Live (start {| Resource := name; Conveyors := replicate n (fresh capacity) |} evs))
       tr (Live s) ->
  producers s = [ISend idx ev :: rest] ->
  exists s', step_fn (RunProd 0 r) s = Some (LEnq 0 (Z.to_nat idx) ev, Live s') /\
             lane_buf (bus s') (Z.to_nat idx) = lane_buf (bus s) (Z.to_nat idx) ++ [ev].
Proof.
  intros Hn Hcap Hex Hp.
  destruct (send_finds_room _ _ _ _ _ _ _ _ _ Hn Hcap Hex Hp) as (c & Hc & Hsend).
  eexists. simpl. unfold step_prod. rewrite Hp. simpl. rewrite Hsend.
  split; [done|]. simpl.
  fold (lane_buf (set_lane (bus s) (Z.to_nat idx)
                   {| buf := buf c ++ [ev]; cap := cap c; closed := false |}) (Z.to_nat idx)).
  rewrite lane_buf_set_lane_eq by by apply lookup_lt_Some in Hc.
  unfold lane_buf. by rewrite Hc.
Qed.

Lemma ample_capacity_never_blocks_witness :
  let b := {| Resource := "iron"; Conveyors := replicate 2 (fresh 2) |} in
  let s := (run [RunProd 0 0; RunProd 0 0; RunProd 0 2]%nat
                (Live (start b [iron 0; iron 1]))).2 in
  exists s0 s', s = Live s0 /\
    step_fn (RunProd 0 0) s0 = Some (LEnq 0 0 (iron 1), Live s').
Proof.
  intros b s.
  pose proof (run_exec [RunProd 0 0; RunProd 0 0; RunProd 0 2]%nat
                (Live (start b [iron 0; iron 1]))) as Hex.
  fold s in Hex.
  destruct s as [s0|] eqn:Hs; [|by vm_compute in Hs].
  destruct (ample_capacity_never_blocks "iron" 2 2 [iron 0; iron 1]
              (run [RunProd 0 0; RunProd 0 0; RunProd 0 2]%nat
                   (Live (start b [iron 0; iron 1]))).1
              s0 0 (iron 1) [IClose 0] 0) as (s' & Hstep & _).
  - lia.
  - simpl. lia.
  - exact Hex.
  - vm_compute in Hs. by injection Hs as <-.
  - by exists s0, s'.
Defined.

(** ** The program: each bus is a system of its own *)

Lemma program_of_cons_same b i pc :
  program_of b (SBus b i :: pc) = i :: program_of b pc.
Proof. unfold program_of. simpl. by rewrite decide_True. Qed.

Lemma program_of_cons_other b i pc :
  program_of (other_bus b) (SBus b i :: pc) = program_of (other_bus b) pc.
Proof. unfold program_of. simpl. rewrite decide_False; [done|]. by destruct b. Qed.

Lemma wstep_main_kind r w l w' :
  wstep_main r w = Some (l, WLive w') -> wstep_kind w l w'.
Proof.
  unfold wstep_main. intros Hst.
  destruct (main_pc w) as [|[|b line|b [ev|idx ev|i]| |msg] rest] eqn:Hpc; try done.
  - destruct (counter w + 1 <? 0); simplify_eq. by eapply kind_add.
  - simplify_eq. by eapply kind_go.
  - destruct (Produce_pick (the_bus b w) r) as [[idx|]|] eqn:Hpick; simplify_eq.
    + eapply (kind_bus _ _ _ b (RunProd 0 r)); [done| | | | |].
      * simpl. unfold step_prod, bus_system. simpl. rewrite Hpc, program_of_cons_same.
        simpl. rewrite Hpick. by destruct b.
      * unfold bus_system. simpl. rewrite Hpc, !program_of_cons_other. by destruct b.
      * by destruct b.
      * by destruct b.
      * right. by exists (IProduce ev), rest, [ISend idx ev].
    + eapply (kind_bus _ _ _ b (RunProd 0 r)); [done| | | | |].
      * simpl. unfold step_prod, bus_system. simpl. rewrite Hpc, program_of_cons_same.
        simpl. rewrite Hpick. by destruct b.
      * unfold bus_system. simpl. rewrite Hpc, !program_of_cons_other. by destruct b.
      * by destruct b.
      * by destruct b.
      * right. by exists (IProduce ev), rest, [].
  - destruct (Produce_send (the_bus b w) idx ev) as [mb| |] eqn:Hsend; simplify_eq.
    eapply (kind_bus _ _ _ b (RunProd 0 r)); [done| | | | |].
    + simpl. unfold step_prod, bus_system. simpl. rewrite Hpc, program_of_cons_same.
      simpl. rewrite Hsend. by destruct b.
    + unfold bus_system. simpl. rewrite Hpc, !program_of_cons_other.
      by destruct b.
    + by destruct b.
    + by destruct b.
    + right. by exists (ISend idx ev), rest, [].
  - destruct (Conveyors (the_bus b w) !! i) as [c|] eqn:Hc.
    + destruct (closechan c) as [c'|] eqn:Hclose; simplify_eq.
      eapply (kind_bus _ _ _ b (RunProd 0 r)); [done| | | | |].
      * simpl. unfold step_prod, bus_system. simpl. rewrite Hpc, program_of_cons_same.
        simpl. rewrite Hc, Hclose. by destruct b.
      * unfold bus_system. simpl. rewrite Hpc, !program_of_cons_other. by destruct b.
      * by destruct b.
      * by destruct b.
      * right. by exists (IClose i), rest, [IClose (S i)].
    + simplify_eq.
      eapply (kind_bus _ _ _ b (RunProd 0 r)); [done| | | | |].
      * simpl. unfold step_prod, bus_system. simpl. rewrite Hpc, program_of_cons_same.
        simpl. rewrite Hc. by destruct b.
      * unfold bus_system. simpl. rewrite Hpc, !program_of_cons_other. by destruct b.
      * by destruct b.
      * by destruct b.
      * right. by exists (IClose i), rest, [].
  - destruct (Z.eqb_spec (counter w) 0); simplify_eq. by eapply kind_wait.
  - simplify_eq. by eapply kind_println.
Qed.

Lemma wstep_cons_kind b k w l w' :
  wstep_cons b k w = Some (l, WLive w') -> wstep_kind w l w'.
Proof.
  unfold wstep_cons. intros Hst.
  destruct (consumers_of b w !! k) as [[line|]|] eqn:Hk; try done.
  destruct (Consume_iter (the_bus b w) line) as [out mb| | |] eqn:Hit; simplify_eq.
  - eapply (kind_bus _ _ _ b (RunCons k)); [done| | | | |].
    + simpl. unfold step_cons, bus_system. simpl. rewrite Hk, Hit. by destruct b.
    + by destruct b.
    + by destruct b.
    + by destruct b.
    + left. by destruct b.
  - destruct (counter w - 1 <? 0); simplify_eq.
    pose proof (ranging_insert_returned _ _ _ Hk) as Hrange.
    eapply (kind_bus _ _ _ b (RunCons k)); [done| | | | |].
    + simpl. unfold step_cons, bus_system. simpl. rewrite Hk, Hit.
      destruct (Z.ltb_spec (Z.of_nat (ranging (consumers_of b w)) - 1) 0); [lia|].
      do 3 f_equal.
      assert (Z.of_nat (ranging (consumers_of b w)) - 1
              = Z.of_nat (ranging (<[k:=CReturned]> (consumers_of b w)))) as -> by lia.
      by destruct b.
    + by destruct b.
    + destruct b; simpl in *; lia.
    + destruct b; simpl in *; lia.
    + left. by destruct b.
Qed.

Lemma wstep_handoff_kind b k w l w' :
  wstep_handoff b k w = Some (l, WLive w') -> wstep_kind w l w'.
Proof.
  unfold wstep_handoff. intros Hst.
  destruct (main_pc w) as [|[|b0 line0|b0 [ev|idx ev|i]| |msg] rest] eqn:Hpc; try done.
  destruct (consumers_of b w !! k) as [[line|]|] eqn:Hk; try done.
  case_decide as Heq; [|done]. destruct Heq as [-> ->].
  destruct (at_index (Conveyors (the_bus b w)) line) as [c|] eqn:Hat; [|done].
  destruct (closed c) eqn:Ho; [done|].
  destruct (buf c) eqn:Hb; simplify_eq.
  eapply (kind_bus _ _ _ b (Handoff 0 k)); [done| | | | |].
  - simpl. unfold step_handoff, bus_system. simpl. rewrite Hpc, program_of_cons_same.
    simpl. rewrite Hk, decide_True by done. rewrite Hat, Ho, Hb. by destruct b.
  - unfold bus_system. simpl. rewrite Hpc, !program_of_cons_other. by destruct b.
  - by destruct b.
  - by destruct b.
  - right. by exists (ISend line ev), rest, [].
Qed.

Lemma wstep_kind_of ch w l w' :
  wstep ch w = Some (l, WLive w') -> wstep_kind w l w'.
Proof.
  destruct ch as [r|b k|b k]; simpl.
  - apply wstep_main_kind.
  - apply wstep_cons_kind.
  - apply wstep_handoff_kind.
Qed.

(** A panic of the program is a panic of one bus's system, or one of the
    wait group. *)
Lemma wstep_crash ch w l pn :
  wstep ch w = Some (l, WCrashed pn) ->
  (exists b ch' l' pn', step_fn ch' (bus_system b w) = Some (l', Crashed pn')) \/
  counter w + 1 < 0 \/
  (counter w - 1 < 0 /\ exists b k line, consumers_of b w !! k = Some (CRange line)).
Proof.
  intros Hst. destruct ch as [r|b k|b k]; simpl in Hst.
  - unfold wstep_main in Hst.
    destruct (main_pc w) as [|[|b line|b [ev|idx ev|i]| |msg] rest] eqn:Hpc; try done.
    + destruct (Z.ltb_spec (counter w + 1) 0); [|done]. by right; left.
    + left. exists b, (RunProd 0 r). simpl. unfold step_prod, bus_system. simpl.
      rewrite Hpc, program_of_cons_same. simpl.
      destruct (Produce_pick (the_bus b w) r) as [[idx|]|]; simplify_eq.
      by eexists _, _.
    + left. exists b, (RunProd 0 r). simpl. unfold step_prod, bus_system. simpl.
      rewrite Hpc, program_of_cons_same. simpl.
      destruct (Produce_send (the_bus b w) idx ev) as [mb| |]; simplify_eq.
      by eexists _, _.
    + left. exists b, (RunProd 0 r). simpl. unfold step_prod, bus_system. simpl.
      rewrite Hpc, program_of_cons_same. simpl.
      destruct (Conveyors (the_bus b w) !! i) as [c|]; [|done].
      destruct (closechan c); simplify_eq.
      by eexists _, _.
    + by destruct (counter w =? 0).
  - unfold wstep_cons in Hst.
    destruct (consumers_of b w !! k) as [[line|]|] eqn:Hk; try done.
    destruct (Consume_iter (the_bus b w) line) as [out mb| | |] eqn:Hit; simplify_eq.
    + destruct (Z.ltb_spec (counter w - 1) 0); [|done].
      right; right. split; [done|]. by exists b, k, line.
    + left. exists b, (RunCons k). simpl. unfold step_cons, bus_system. simpl.
      rewrite Hk, Hit. by eexists _, _.
  - unfold wstep_handoff in Hst. repeat case_match; by simplify_eq.
Qed.

Lemma ranging_lookup cs k line :
  cs !! k = Some (CRange line) -> (1 <= ranging cs)%nat.
Proof. intros Hk. pose proof (ranging_insert_returned _ _ _ Hk). lia. Qed.

Lemma ranging_zero cs : ranging cs = 0%nat -> Forall (fun st => st = CReturned) cs.
Proof.
  intros H0. apply Forall_lookup_2. intros k [line|] Hk; [|done].
  apply ranging_lookup in Hk. lia.
Qed.

Lemma bus_trace_snoc b tr l :
  bus_trace b (tr ++ [l]) = bus_trace b tr ++ opt_list (bus_step b l).
Proof. unfold bus_trace. rewrite omap_app. simpl. by destruct (bus_step b l). Qed.

Lemma printed_snoc tr l : printed (tr ++ [l]) = printed tr ++ opt_list (println_of l).
Proof. unfold printed. rewrite omap_app. simpl. by destruct (println_of l). Qed.

Lemma bus_system_Inv now tr w b :
  Running now tr w ->
  Inv (events_of b now) (length (Conveyors (bus0 b))) (bus_trace b tr) (bus_system b w).
Proof.
  intros [_ _ Hbus _]. specialize (Hbus b). destruct b.
  - destruct (exec_inv (iron_events now) 4 _ _ _ ltac:(lia)
                (inv_start "iron" 4 20 (iron_events now)) Hbus) as (s & Hs & Hinv).
    by injection Hs as <-.
  - destruct (exec_inv (copper_events now) 2 _ _ _ ltac:(lia)
                (inv_start "copper" 2 20 (copper_events now)) Hbus) as (s & Hs & Hinv).
    by injection Hs as <-.
Qed.

Lemma calls_head calls tail b i rest :
  map call_stmt calls ++ tail = SBus b i :: rest ->
  (forall b' i' rest', tail <> SBus b' i' :: rest') ->
  exists calls', calls = (b, i) :: calls' /\ rest = map call_stmt calls' ++ tail.
Proof.
  intros Heq Htail. destruct calls as [|[b0 i0] calls]; simpl in Heq.
  - by destruct (Htail b i rest).
  - unfold call_stmt in Heq at 1. simpl in Heq. simplify_eq. by exists calls.
Qed.

Lemma running_step now tr w ch l c :
  Running now tr w ->
  wstep ch w = Some (l, c) ->
  exists w', c = WLive w' /\ Running now (tr ++ [l]) w'.
Proof.
  intros Hrun Hst. pose proof Hrun as [Hpc Hcount Hbus Hprinted].
  destruct c as [w'|pn].
  - exists w'. split; [done|].
    destruct (wstep_kind_of _ _ _ _ Hst)
      as [b ch' l' -> Hstep Hother Hcnt Hle Hpc'
         |rest -> Hhead ->|b line rest -> Hhead ->
         |rest -> Hhead Hzero ->|msg rest -> Hhead ->].
    + (* a step on bus [b] *)
      assert (Hcount' : counter w' = Z.of_nat (ranging (iron_consumers w'))
                                     + Z.of_nat (ranging (copper_consumers w'))).
      { apply (f_equal consumers) in Hother. simpl in Hother.
        destruct b; simpl in *; rewrite Hother; lia. }
      split.
      * destruct Hpc as [[calls Hcalls]|[Hafter Hzero]].
        -- left. destruct Hpc' as [->|(i & rest & h & Hhead & ->)]; [by exists calls|].
           rewrite Hhead in Hcalls. symmetry in Hcalls.
           apply calls_head in Hcalls as (calls' & -> & ->).
           2:{ by intros b' i' rest' [=]. }
           exists (map (fun i => (b, i)) h ++ calls').
           rewrite map_app, <- app_assoc. f_equal.
           rewrite map_map. done.
        -- right. destruct Hpc' as [->|(i & rest & h & Hhead & _)].
           ++ split; [done | lia].
           ++ rewrite Hhead in Hafter. by destruct Hafter.
      * done.
      * intros b0. rewrite bus_trace_snoc. simpl.
        destruct (decide (b = b0)) as [<-|Hne]; simpl.
        -- econstructor; [apply Hbus|]. by econstructor.
        -- rewrite app_nil_r.
           assert (b0 = other_bus b) as -> by (by destruct b, b0).
           rewrite Hother. apply Hbus.
      * intros Hne. rewrite printed_snoc. simpl. rewrite app_nil_r. apply Hprinted.
        destruct Hpc' as [<-|(i & rest & h & -> & _)]; done.
    + exfalso. destruct Hpc as [[[|[b0 i0] calls] Hcalls]|[[Hafter|Hafter] _]];
        rewrite Hhead in *; simpl in *; unfold call_stmt in *; simpl in *; simplify_eq.
    + exfalso. destruct Hpc as [[[|[b0 i0] calls] Hcalls]|[[Hafter|Hafter] _]];
        rewrite Hhead in *; simpl in *; unfold call_stmt in *; simpl in *; simplify_eq.
    + assert (rest = [SPrintln last_line]) as ->.
      { destruct Hpc as [[[|[b0 i0] calls] Hcalls]|[[Hafter|Hafter] _]];
          rewrite Hhead in *; simpl in *; unfold call_stmt in *; simpl in *; by simplify_eq. }
      split; simpl.
      * right. split; [by left | done].
      * done.
      * intros b. rewrite bus_trace_snoc. simpl. rewrite app_nil_r.
        specialize (Hbus b). unfold bus_system in *. simpl. rewrite Hhead in Hbus.
        by destruct b.
      * intros _. rewrite printed_snoc. simpl. rewrite app_nil_r. apply Hprinted.
        by rewrite Hhead.
    + assert (rest = [] /\ counter w = 0) as [-> Hzero].
      { destruct Hpc as [[[|[b0 i0] calls] Hcalls]|[[Hafter|Hafter] Hzero]];
          rewrite Hhead in *; simpl in *; unfold call_stmt in *; simpl in *; by simplify_eq. }
      split; simpl.
      * right. split; [by right | done].
      * done.
      * intros b. rewrite bus_trace_snoc. simpl. rewrite app_nil_r.
        specialize (Hbus b). unfold bus_system in *. simpl. rewrite Hhead in Hbus.
        by destruct b.
      * done.
  - exfalso.
    destruct (wstep_crash _ _ _ _ Hst)
      as [(b & ch' & l' & pn' & Hstep)|[Hneg|(Hneg & b & k & line & Hk)]].
    + pose proof (bus_system_Inv now tr w b Hrun) as Hinv.
      assert (Hn : (0 < length (Conveyors (bus0 b)))%nat) by (destruct b; simpl; lia).
      destruct (inv_step _ _ _ _ _ _ _ Hn Hinv Hstep) as (s' & Hs' & _). done.
    + lia.
    + apply ranging_lookup in Hk. destruct b; simpl in *; lia.
Qed.

(** ** The program: starting the consumers *)

Lemma spawn_all_ok : Forall spawn_ok spawn_all.
Proof. repeat constructor. Qed.

Lemma started_snoc b done st :
  started b (done ++ [st]) = started b done ++ opt_list (go_of b st).
Proof. unfold started. rewrite omap_app. simpl. by destruct (go_of b st). Qed.

Lemma added_snoc done st :
  added (done ++ [st]) = added done + (if add_of st is Some _ then 1 else 0).
Proof.
  unfold added. rewrite omap_app, length_app. simpl.
  destruct (add_of st); simpl; lia.
Qed.

Lemma added_nonneg done : 0 <= added done.
Proof. unfold added. lia. Qed.

Lemma started_waits b done k st :
  Forall spawn_ok done ->
  started b done !! k = Some st ->
  exists line, st = CRange line /\ Consume_iter (bus0 b) line = IterWait.
Proof.
  intros Hok. revert k. induction Hok as [|s0 done Hs0 Hok IH]; intros k Hk; [done|].
  unfold started in Hk. simpl in Hk.
  destruct s0 as [|b0 line| | |]; simpl in *; try (by apply (IH k)).
  case_decide as Hb; [|by apply (IH k)]. subst b0.
  destruct k as [|k]; simpl in Hk; [|by apply (IH k)].
  simplify_eq. by exists line.
Qed.

Lemma main_starts now :
  exists w, main now = WLive w /\ Spawning now [] w.
Proof.
  eexists. split; [reflexivity|].
  split; simpl; try done.
  exists [], spawn_all. by repeat split.
Qed.

Lemma spawned_running now tr w :
  main_pc w = produce_loop now ++ shutdown ->
  iron_bus w = iron0 -> copper_bus w = copper0 ->
  iron_consumers w = started ironBus spawn_all ->
  copper_consumers w = started copperBus spawn_all ->
  counter w = added spawn_all ->
  (forall b, bus_trace b tr = []) -> printed tr = [] ->
  Running now tr w.
Proof.
  destruct w as [ib cb pc ic cc n]. simpl. intros -> -> -> -> -> -> Htr Hprinted.
  split; simpl.
  - left. by exists (main_calls now).
  - reflexivity.
  - intros b. rewrite Htr. destruct b; apply exec_nil.
  - done.
Qed.

Lemma spawning_step now tr w ch l c :
  Spawning now tr w ->
  wstep ch w = Some (l, c) ->
  exists w', c = WLive w' /\
             (Spawning now (tr ++ [l]) w' \/ Running now (tr ++ [l]) w').
Proof.
  intros [(done & todo & Hsplit & Hne & Hpc & Hic & Hcc & Hcnt) Hib Hcb Htr Hprinted] Hst.
  destruct todo as [|st todo]; [done|]. clear Hne.
  pose proof spawn_all_ok as Hok. rewrite <- Hsplit in Hok.
  apply Forall_app in Hok as [Hdone Hok]. apply Forall_cons in Hok as [Hst_ok _].
  assert (Hcons : forall b k, wstep_cons b k w = None).
  { intros b k. unfold wstep_cons.
    destruct (consumers_of b w !! k) as [st0|] eqn:Hk; [|done].
    assert (started b done !! k = Some st0) as Hk' by (destruct b; simpl in *; congruence).
    apply started_waits in Hk' as (line & -> & Hwait); [|done].
    assert (the_bus b w = bus0 b) as -> by (by destruct b).
    by rewrite Hwait. }
  assert (Htr' : forall l0, bus_step ironBus l0 = None -> bus_step copperBus l0 = None ->
                   forall b, bus_trace b (tr ++ [l0]) = []).
  { intros l0 H1 H2 b. rewrite bus_trace_snoc, Htr. by destruct b; rewrite ?H1, ?H2. }
  destruct ch as [r|b k|b k]; simpl in Hst.
  - unfold wstep_main in Hst. rewrite Hpc in Hst. simpl in Hst.
    destruct st as [|b line| | |]; simpl in Hst_ok; try done.
    + pose proof (added_nonneg done).
      destruct (Z.ltb_spec (counter w + 1) 0); [lia|]. simplify_eq.
      eexists. split; [done|]. left.
      split; simpl; try done.
      * exists (done ++ [SAdd]), todo. rewrite <- app_assoc. simpl.
        split; [done|]. split.
        { intros ->. pose proof (f_equal last Hsplit) as Hlast.
          rewrite last_snoc in Hlast. by vm_compute in Hlast. }
        rewrite !started_snoc, added_snoc. simpl. rewrite !app_nil_r.
        repeat split; try done. lia.
      * by apply Htr'.
      * by rewrite printed_snoc, Hprinted.
    + simplify_eq. eexists. split; [done|].
      destruct todo as [|st' todo].
      * right. apply spawned_running.
        -- by destruct b.
        -- by destruct b.
        -- by destruct b.
        -- rewrite <- Hsplit, started_snoc. destruct b; simpl; [by rewrite Hic|].
           by rewrite app_nil_r.
        -- rewrite <- Hsplit, started_snoc. destruct b; simpl; [|by rewrite Hcc].
           by rewrite app_nil_r.
        -- rewrite <- Hsplit, added_snoc. destruct b; simpl; lia.
        -- by apply Htr'.
        -- by rewrite printed_snoc, Hprinted.
      * left. split; simpl.
        -- exists (done ++ [SGo b line]), (st' :: todo). rewrite <- app_assoc. simpl.
           split; [done|]. split; [done|].
           rewrite !started_snoc, added_snoc. simpl.
           destruct b; simpl; rewrite ?app_nil_r, ?Z.add_0_r;
             repeat split; congruence.
        -- by destruct b.
        -- by destruct b.
        -- by apply Htr'.
        -- by rewrite printed_snoc, Hprinted.
  - by rewrite Hcons in Hst.
  - unfold wstep_handoff in Hst. rewrite Hpc in Hst.
    destruct st as [|b0 line| | |]; simpl in Hst_ok; done.
Qed.

(** ** The program: no panic, no deadlock *)

Lemma wexec_inv now tr c :
  wexec (main now) tr c ->
  exists w, c = WLive w /\ (Spawning now tr w \/ Running now tr w).
Proof.
  intros Hex. remember (main now) as c0 eqn:Hc0.
  induction Hex as [|c0 tr w l c' ch Hex IH Hst]; subst.
  - destruct (main_starts now) as (w & -> & Hsp). exists w. split; [done | by left].
  - destruct (IH eq_refl) as (w0 & [= <-] & [Hsp|Hrun]).
    + by eapply spawning_step.
    + destruct (running_step _ _ _ _ _ _ Hrun Hst) as (w' & -> & Hrun').
      exists w'. split; [done | by right].
Qed.

(** A step of a bus's system is a step of the program, if it is a step of
    a consumer, or if [main] stands at a call on that bus. *)
Lemma lift_step b w ch l s' :
  step_fn ch (bus_system b w) = Some (l, Live s') ->
  (exists k, ch = RunCons k) \/ (exists i rest, main_pc w = SBus b i :: rest) ->
  Z.of_nat (ranging (consumers_of b w)) <= counter w ->
  exists wch wl w', wstep wch w = Some (wl, WLive w').
Proof.
  intros Hstep Hwho Hcnt. destruct ch as [p r|k|p k]; simpl in Hstep.
  - destruct Hwho as [[k [=]]|(i & rest & Hpc)].
    unfold step_prod, bus_system in Hstep. simpl in Hstep.
    rewrite Hpc, program_of_cons_same in Hstep.
    destruct p as [|p]; [|done]. simpl in Hstep.
    exists (WMain r). simpl. unfold wstep_main. rewrite Hpc.
    destruct i as [ev|idx ev|i].
    + destruct (Produce_pick (the_bus b w) r) as [[idx|]|]; simplify_eq; by eauto.
    + destruct (Produce_send (the_bus b w) idx ev) as [mb| |]; simplify_eq; by eauto.
    + destruct (Conveyors (the_bus b w) !! i) as [c|]; [|by eauto].
      destruct (closechan c); simplify_eq; by eauto.
  - unfold step_cons, bus_system in Hstep. simpl in Hstep.
    exists (WCons b k). simpl. unfold wstep_cons.
    destruct (consumers_of b w !! k) as [[line|]|] eqn:Hk; try done.
    destruct (Consume_iter (the_bus b w) line) as [out mb| | |]; simplify_eq.
    + by eauto.
    + apply ranging_lookup in Hk.
      destruct (Z.ltb_spec (counter w - 1) 0); [lia|]. by eauto.
  - destruct Hwho as [[k' [=]]|(i & rest & Hpc)].
    unfold step_handoff, bus_system in Hstep. simpl in Hstep.
    rewrite Hpc, program_of_cons_same in Hstep.
    destruct p as [|p]; [|done]. simpl in Hstep.
    destruct i as [ev|idx ev|i]; try done.
    exists (WHandoff b k). simpl. unfold wstep_handoff. rewrite Hpc.
    destruct (consumers_of b w !! k) as [[line|]|]; try done.
    case_decide as Heq; [|done]. subst line.
    rewrite decide_True by done.
    destruct (at_index (Conveyors (the_bus b w)) idx) as [c|]; [|done].
    destruct (closed c); [done|]. destruct (buf c); simplify_eq. by eauto.
Qed.

Lemma ranging_returned cs :
  Forall (fun st => st = CReturned) cs -> ranging cs = 0%nat.
Proof.
  unfold ranging. induction 1 as [|st cs -> _ IH]; [done|].
  by rewrite filter_cons.
Qed.

Lemma running_progress now tr w :
  Running now tr w ->
  main_pc w = [] \/ exists ch l w', wstep ch w = Some (l, WLive w').
Proof.
  intros Hrun. pose proof Hrun as [Hpc Hcount Hbus Hprinted].
  assert (Hshare : forall b, Z.of_nat (ranging (consumers_of b w)) <= counter w).
  { intros b. destruct b; simpl; lia. }
  destruct Hpc as [[[|[b i] calls] Hcalls]|[[Hafter|Hafter] Hzero]].
  - (* at the wait *)
    simpl in Hcalls. right.
    destruct (decide (counter w = 0)) as [Hz|Hnz].
    + exists (WMain 0). simpl. unfold wstep_main. rewrite Hcalls.
      destruct (Z.eqb_spec (counter w) 0); [by eauto | done].
    + assert (exists b, ranging (consumers_of b w) <> 0%nat) as [b Hb].
      { destruct (decide (ranging (iron_consumers w) = 0%nat)).
        - exists copperBus. simpl. lia.
        - by exists ironBus. }
      destruct (inv_progress _ _ _ _ (bus_system_Inv now tr w b Hrun))
        as [[_ Hret]|(ch & l & s' & Hstep)].
      { by apply ranging_returned in Hret. }
      apply (lift_step b w ch l s' Hstep); [|done].
      destruct ch as [p r|k|p k]; [| by left; eexists |]; exfalso; simpl in Hstep.
      * unfold step_prod, bus_system in Hstep. simpl in Hstep. rewrite Hcalls in Hstep.
        by destruct b, p as [|[|p]].
      * unfold step_handoff, bus_system in Hstep. simpl in Hstep. rewrite Hcalls in Hstep.
        by destruct b, p as [|[|p]].
  - (* at a call on bus [b] *)
    right. simpl in Hcalls. unfold call_stmt in Hcalls at 1. simpl in Hcalls.
    destruct (inv_progress _ _ _ _ (bus_system_Inv now tr w b Hrun))
      as [[Hp _]|(ch & l & s' & Hstep)].
    { unfold bus_system in Hp. simpl in Hp.
      rewrite Hcalls, program_of_cons_same in Hp. done. }
    apply (lift_step b w ch l s' Hstep); [|done]. right. by eauto.
  - right. exists (WMain 0). simpl. unfold wstep_main. rewrite Hafter. by eauto.
  - by left.
Qed.

Lemma spawning_progress now tr w :
  Spawning now tr w -> exists ch l w', wstep ch w = Some (l, WLive w').
Proof.
  intros [(done & todo & Hsplit & Hne & Hpc & Hic & Hcc & Hcnt) _ _ _ _].
  destruct todo as [|st todo]; [done|].
  pose proof spawn_all_ok as Hok. rewrite <- Hsplit in Hok.
  apply Forall_app in Hok as [_ Hok]. apply Forall_cons in Hok as [Hst_ok _].
  exists (WMain 0). simpl. unfold wstep_main. rewrite Hpc. simpl.
  destruct st as [|b line| | |]; simpl in Hst_ok; try done; [|by eauto].
  pose proof (added_nonneg done).
  destruct (Z.ltb_spec (counter w + 1) 0); [lia|]. by eauto.
Qed.

(** When [main] has returned nothing is left to run. *)
Lemma running_end now tr w :
  Running now tr w -> main_pc w = [] ->
  wquiescent w /\ counter w = 0 /\ forall b, finished (bus_system b w).
Proof.
  intros [Hpc Hcount _ _] Hnil.
  assert (Hzero : counter w = 0).
  { destruct Hpc as [[calls Hcalls]|[_ Hz]]; [|done].
    rewrite Hnil in Hcalls. by destruct calls. }
  assert (Hret : forall b, Forall (fun st => st = CReturned) (consumers_of b w)).
  { intros b. apply ranging_zero. destruct b; simpl; lia. }
  split; [|split; [done|]].
  - intros [r|b k|b k]; simpl.
    + unfold wstep_main. by rewrite Hnil.
    + unfold wstep_cons. destruct (consumers_of b w !! k) as [st|] eqn:Hk; [|done].
      by rewrite (Forall_lookup_1 _ _ _ _ (Hret b) Hk).
    + unfold wstep_handoff. by rewrite Hnil.
  - intros b. split; [|apply Hret]. unfold bus_system. simpl. by rewrite Hnil.
Qed.

(** ** The program: every execution ends *)

Lemma calls_cost b h : sum_list (map stmt_cost (map (SBus b) h)) = 0%nat.
Proof. induction h as [|i h IH]; [done|]. simpl. apply IH. Qed.

Lemma ranging_snoc cs line : ranging (cs ++ [CRange line]) = S (ranging cs).
Proof. unfold ranging. rewrite filter_app, length_app. simpl. lia. Qed.

Lemma wstep_decreases ch w l w' :
  wstep ch w = Some (l, WLive w') -> (wsteps_left w' < wsteps_left w)%nat.
Proof.
  intros Hst. unfold wsteps_left.
  destruct (wstep_kind_of _ _ _ _ Hst)
    as [b ch' l' -> Hstep Hother Hcnt Hle Hpc'
       |rest -> Hhead ->|b line rest -> Hhead ->
       |rest -> Hhead Hzero ->|msg rest -> Hhead ->].
  - apply step_decreases in Hstep.
    assert (sum_list (map stmt_cost (main_pc w')) = sum_list (map stmt_cost (main_pc w)))
      as ->.
    { destruct Hpc' as [->|(i & rest & h & -> & ->)]; [done|].
      rewrite map_app, sum_list_with_app. simpl.
      pose proof (calls_cost b h) as Hc. rewrite Hc. done. }
    destruct b; simpl in Hother; rewrite Hother; lia.
  - assert (forall b, bus_system b (with_pc rest (with_counter (counter w + 1) w))
                      = bus_system b w) as Hsame.
    { intros b. unfold bus_system. simpl. rewrite Hhead. by destruct b. }
    rewrite !Hsame, Hhead. simpl. lia.
  - set (w' := with_pc rest (with_consumers b (consumers_of b w ++ [CRange line]) w)).
    assert (Hsame : bus_system (other_bus b) w' = bus_system (other_bus b) w).
    { unfold bus_system, w'. simpl. rewrite Hhead. by destruct b. }
    assert (Hmore : steps_left (bus_system b w') = S (steps_left (bus_system b w))).
    { unfold steps_left, bus_system, w'. simpl. rewrite Hhead.
      destruct b; simpl; rewrite ranging_snoc; lia. }
    assert (Hcost : sum_list (map stmt_cost (main_pc w))
                    = (2 + sum_list (map stmt_cost (main_pc w')))%nat).
    { by rewrite Hhead. }
    clearbody w'. destruct b; simpl in Hsame; rewrite Hsame, Hmore, Hcost; lia.
  - assert (forall b, bus_system b (with_pc rest w) = bus_system b w) as Hsame.
    { intros b. unfold bus_system. simpl. rewrite Hhead. by destruct b. }
    rewrite !Hsame, Hhead. simpl. lia.
  - assert (forall b, bus_system b (with_pc rest w) = bus_system b w) as Hsame.
    { intros b. unfold bus_system. simpl. rewrite Hhead. by destruct b. }
    rewrite !Hsame, Hhead. simpl. lia.
Qed.

Lemma wexec_bounded w tr w' :
  wexec (WLive w) tr (WLive w') -> (length tr + wsteps_left w' <= wsteps_left w)%nat.
Proof.
  intros Hex. remember (WLive w) as c0 eqn:Hc0. remember (WLive w') as c1 eqn:Hc1.
  revert w' Hc1. induction Hex as [|c0 tr w1 l c' ch Hex IH Hst]; intros w' Hc1; subst.
  - simplify_eq. simpl. lia.
  - specialize (IH eq_refl w1 eq_refl). apply wstep_decreases in Hst.
    rewrite length_app. simpl. lia.
Qed.

Lemma main_steps_left now w : main now = WLive w -> wsteps_left w = 88%nat.
Proof. intros [= <-]. reflexivity. Qed.

(** ** The program: what it prints *)

Lemma wstep_pc_length w l w' :
  wstep_kind w l w' -> (length (main_pc w) <= S (length (main_pc w')))%nat.
Proof.
  intros [b ch' l' -> Hstep Hother Hcnt Hle Hpc'
         |rest -> Hhead ->|b line rest -> Hhead ->
         |rest -> Hhead Hzero ->|msg rest -> Hhead ->].
  - destruct Hpc' as [->|(i & rest & h & -> & ->)]; [lia|].
    rewrite length_app. simpl. lia.
  - rewrite Hhead. simpl. lia.
  - rewrite Hhead. simpl. lia.
  - rewrite Hhead. simpl. lia.
  - rewrite Hhead. simpl. lia.
Qed.

Lemma spawning_pc now tr w :
  Spawning now tr w ->
  (25 <= length (main_pc w))%nat /\
  exists st rest, main_pc w = st :: rest /\ spawn_ok st.
Proof.
  intros [(done & todo & Hsplit & Hne & Hpc & _) _ _ _ _].
  destruct todo as [|st todo]; [done|].
  pose proof spawn_all_ok as Hok. rewrite <- Hsplit in Hok.
  apply Forall_app in Hok as [_ Hok]. apply Forall_cons in Hok as [Hst_ok _].
  split.
  - rewrite Hpc, !length_app. simpl. lia.
  - by exists st, (todo ++ produce_loop now ++ shutdown).
Qed.

(** The step that ends [main] is its last line of output. *)
Lemma wexec_last now tr w :
  wexec (main now) tr (WLive w) ->
  main_pc w = [] ->
  exists tr', tr = tr' ++ [WPrintln last_line] /\ printed tr' = [].
Proof.
  intros Hex Hnil. remember (main now) as c0 eqn:Hc0. remember (WLive w) as c1 eqn:Hc1.
  destruct Hex as [c|c0 tr0 w0 l c' ch Hex0 Hst]; subst.
  - destruct (main_starts now) as (w0 & Hw0 & Hsp). rewrite Hc1 in Hw0.
    simplify_eq. apply spawning_pc in Hsp as [Hlen _]. rewrite Hnil in Hlen. simpl in Hlen. lia.
  - pose proof (wstep_kind_of _ _ _ _ Hst) as Hkind.
    pose proof (wstep_pc_length _ _ _ Hkind) as Hlen. rewrite Hnil in Hlen. simpl in Hlen.
    destruct (wexec_inv now tr0 _ Hex0) as (w1 & [= <-] & [Hsp|Hrun]).
    { apply spawning_pc in Hsp as [Hlen' _]. lia. }
    destruct (decide (main_pc w0 = [])) as [Hnil0|Hne0].
    { destruct (running_end _ _ _ Hrun Hnil0) as [Hq _]. by rewrite Hq in Hst. }
    pose proof Hrun as [Hpc _ _ Hprinted].
    specialize (Hprinted Hne0).
    destruct Hpc as [[calls Hcalls]|[[Hafter|Hafter] _]]; [| |done].
    { rewrite Hcalls, length_app in Hlen. simpl in Hlen. lia. }
    destruct Hkind as [b ch' l' -> Hstep Hother Hcnt Hle Hpc'
                      |rest -> Hhead ->|b line rest -> Hhead ->
                      |rest -> Hhead Hzero ->|msg rest -> Hhead ->];
      rewrite Hafter in *; simplify_eq.
    + destruct Hpc' as [Hsame|(i & rest & h & [=] & _)]. congruence.
    + by exists tr0.
Qed.

Lemma wexec_trans c tr c' tr' c'' :
  wexec c tr c' -> wexec c' tr' c'' -> wexec c (tr ++ tr') c''.
Proof.
  intros H1 H2. induction H2 as [|c0 tr0 w l c2 ch _ IH Hst].
  - by rewrite app_nil_r.
  - rewrite app_assoc. econstructor; [by apply IH | done].
Qed.

Lemma wrun_wexec sched c : wexec c (wrun sched c).1 (wrun sched c).2.
Proof.
  revert c. induction sched as [|ch sched IH]; intros c.
  - destruct c; constructor.
  - destruct c as [w|p]; [|constructor]. simpl.
    destruct (wstep ch w) as [[l c']|] eqn:Hst; [|apply IH].
    specialize (IH c'). destruct (wrun sched c') as [tr c'']. simpl in *.
    change (l :: tr) with ([l] ++ tr). eapply wexec_trans; [|done].
    change [l] with ([] ++ [l]). econstructor; [constructor | done].
Qed.

Lemma returned_wquiescent w :
  main_pc w = [] ->
  Forall (fun st => st = CReturned) (iron_consumers w) ->
  Forall (fun st => st = CReturned) (copper_consumers w) ->
  wquiescent w.
Proof.
  intros Hnil Hi Hc [r|b k|b k]; simpl.
  - unfold wstep_main. by rewrite Hnil.
  - unfold wstep_cons. destruct (consumers_of b w !! k) as [st|] eqn:Hk; [|done].
    destruct b; simpl in Hk.
    + by rewrite (Forall_lookup_1 _ _ _ _ Hi Hk).
    + by rewrite (Forall_lookup_1 _ _ _ _ Hc Hk).
  - unfold wstep_handoff. by rewrite Hnil.
Qed.

(** X12: [main] never panics and never deadlocks, and it always ends: in
    every execution, whatever the draws, the clock and the schedule, both
    buses are made, no goroutine panics, at most 88 steps are taken, and as
    long as [main] has not returned some goroutine can take a step; when
    [main] has returned no goroutine is left that could. *)
Theorem main_runs_to_its_end now tr c :
  wexec (main now) tr c ->
  exists w,
    c = WLive w /\
    (length tr <= 88)%nat /\
    (main_pc w = [] \/ exists ch l w', wstep ch w = Some (l, WLive w')) /\
    (main_pc w = [] -> wquiescent w /\ counter w = 0).
Proof.
  intros Hex. destruct (wexec_inv now tr c Hex) as (w & -> & Hinv).
  exists w. split; [done|]. split; [|split].
  - destruct (main_starts now) as (w0 & Hw0 & _). rewrite Hw0 in Hex.
    apply wexec_bounded in Hex. rewrite (main_steps_left now w0 Hw0) in Hex. lia.
  - destruct Hinv as [Hsp|Hrun].
    + right. by eapply spawning_progress.
    + by eapply running_progress.
  - intros Hnil. destruct Hinv as [Hsp|Hrun].
    + apply spawning_pc in Hsp as [Hlen _]. rewrite Hnil in Hlen. simpl in Hlen. lia.
    + destruct (running_end _ _ _ Hrun Hnil) as (Hq & Hz & _). done.
Qed.

Lemma main_runs_to_its_end_witness :
  (length (wrun main_schedule (main sample_clock)).1 <= 88)%nat.
Proof.
  destruct (main_runs_to_its_end sample_clock _ _
              (wrun_wexec main_schedule (main sample_clock))) as (w & _ & Hlen & _).
  exact Hlen.
Defined.

Lemma loop_ids_sorted : StronglySorted Z.lt loop_ids.
Proof. unfold loop_ids. repeat constructor; lia. Qed.

(** X13: when [main] has come to rest, it has returned and the wait group
    is at zero; its line "All main buses completed processing." is the last
    step of the run and the only line it printed; and before that, on each
    bus, the consumers have received exactly the ten events that [main]
    produced on it, each id from 0 to 9 once, each lane delivering all that
    was sent into it with ids increasing. *)
Theorem main_prints_every_event now tr w :
  wexec (main now) tr (WLive w) ->
  wquiescent w ->
  main_pc w = [] /\ counter w = 0 /\
  (exists tr', tr = tr' ++ [WPrintln last_line] /\ printed tr' = []) /\
  forall b,
    received (length (Conveyors (bus0 b))) (bus_trace b tr) ≡ₚ events_of b now /\
    map Event.ID (received (length (Conveyors (bus0 b))) (bus_trace b tr)) ≡ₚ loop_ids /\
    forall lane,
      deqs lane (bus_trace b tr) = enqs lane (bus_trace b tr) /\
      StronglySorted Z.lt (map Event.ID (deqs lane (bus_trace b tr))).
Proof.
  intros Hex Hq.
  destruct (wexec_inv now tr _ Hex) as (w0 & [= <-] & Hinv).
  assert (Hrun : Running now tr w).
  { destruct Hinv as [Hsp|Hrun]; [|done].
    destruct (spawning_progress _ _ _ Hsp) as (ch & l & w' & Hst). by rewrite Hq in Hst. }
  assert (Hnil : main_pc w = []).
  { destruct (running_progress _ _ _ Hrun) as [?|(ch & l & w' & Hst)]; [done|].
    by rewrite Hq in Hst. }
  destruct (running_end _ _ _ Hrun Hnil) as (_ & Hz & Hfin).
  split; [done|]. split; [done|]. split; [by eapply wexec_last|].
  intros b. pose proof Hrun as [_ _ Hbus _]. specialize (Hbus b).
  pose proof (finished_quiescent _ (Hfin b)) as Hqb.
  assert (Hids : map Event.ID (events_of b now) = loop_ids) by (by destruct b).
  assert (exists name n capacity,
            bus0 b = {| Resource := name; Conveyors := replicate n (fresh capacity) |}
            /\ (0 < n)%nat /\ length (Conveyors (bus0 b)) = n)
    as (name & n & capacity & Hb0 & Hn & Hlen).
  { destruct b; eexists _, _, _; (split; [reflexivity|]); simpl; lia. }
  rewrite Hlen. rewrite Hb0 in Hbus.
  destruct (driver_run name n capacity _ _ _ Hn Hbus) as (s & [= <-] & _ & _ & _ & Hend).
  destruct (Hend Hqb) as (_ & Hall & Hperm).
  split; [done|]. split; [by rewrite Hperm, Hids|].
  intros lane. destruct (Hall lane) as [Heq Hsub]. split; [done|].
  apply (StronglySorted_sublist _ _ loop_ids); [|apply loop_ids_sorted].
  rewrite <- Hids. by apply fmap_sublist.
Qed.

Lemma main_prints_every_event_witness :
  let tr := (wrun main_schedule (main sample_clock)).1 in
  last tr = Some (WPrintln last_line) /\
  map Event.ID (received 4 (bus_trace ironBus tr)) ≡ₚ loop_ids /\
  map Event.ID (received 2 (bus_trace copperBus tr)) ≡ₚ loop_ids.
Proof.
  intros tr. split; [reflexivity|].
  pose proof (wrun_wexec main_schedule (main sample_clock)) as Hex. fold tr in Hex.
  destruct (wrun main_schedule (main sample_clock)).2 as [w|] eqn:Hw; [|by vm_compute in Hw].
  destruct (main_prints_every_event sample_clock tr w Hex) as (_ & _ & _ & Hb).
  - vm_compute in Hw. injection Hw as <-.
    apply returned_wquiescent; [reflexivity | repeat constructor..].
  - split; [apply (Hb ironBus) | apply (Hb copperBus)].
Defined.

(** X14: in [main] no call of [Produce] ever waits for room: each lane has
    room for twenty events and each bus is sent ten, so whenever [main]
    stands at the send of a call, on either bus, the send can complete at
    once, whatever the consumers have done so far. *)
Theorem main_never_waits_to_send now tr w b idx ev rest r :
  wexec (main now) tr (WLive w) ->
  main_pc w = SBus b (ISend idx ev) :: rest ->
  exists w',
    wstep (WMain r) w = Some (WStep b (LEnq 0 (Z.to_nat idx) ev), WLive w').
Proof.
  intros Hex Hpc.
  destruct (wexec_inv now tr _ Hex) as (w0 & [= <-] & [Hsp|Hrun]).
  { apply spawning_pc in Hsp as (_ & st & rest' & Hpc' & Hok).
    rewrite Hpc in Hpc'. by simplify_eq. }
  destruct Hrun as [_ _ Hbus _]. specialize (Hbus b).
  assert (Hp : producers (bus_system b w) = [ISend idx ev :: program_of b rest]).
  { unfold bus_system. simpl. by rewrite Hpc, program_of_cons_same. }
  assert (exists c, Produce_send (the_bus b w) idx ev
            = Done (set_lane (the_bus b w) (Z.to_nat idx)
                      {| buf := buf c ++ [ev]; cap := cap c; closed := false |}))
    as [c Hsend].
  { destruct b; simpl in Hbus.
    - destruct (send_finds_room "iron" 4 20 (iron_events now) _ _ idx ev _
                  ltac:(lia) ltac:(simpl; lia) Hbus Hp) as (c & _ & Hsend). by exists c.
    - destruct (send_finds_room "copper" 2 20 (copper_events now) _ _ idx ev _
                  ltac:(lia) ltac:(simpl; lia) Hbus Hp) as (c & _ & Hsend). by exists c. }
  eexists. simpl. unfold wstep_main. by rewrite Hpc, Hsend.
Qed.

Lemma main_never_waits_to_send_witness :
  let c := (wrun (replicate 13 (WMain 0)) (main sample_clock)).2 in
  exists w w', c = WLive w /\
    wstep (WMain 0) w
    = Some (WStep ironBus (LEnq 0 0 (iron_event 0 0)), WLive w').
Proof.
  intros c.
  pose proof (wrun_wexec (replicate 13 (WMain 0)) (main sample_clock)) as Hex. fold c in Hex.
  destruct c as [w|] eqn:Hc; [|by vm_compute in Hc].
  destruct (main_never_waits_to_send sample_clock _ w ironBus 0 (iron_event 0 0)
              (tail (produce_loop sample_clock) ++ shutdown) 0 Hex) as [w' Hw'].
  - vm_compute in Hc. by injection Hc as <-.
  - by exists w, w'.
Defined.

(** ** The consumers in a trace *)

Lemma returns_snoc tr l : returns (tr ++ [l]) = returns tr ++ opt_list (return_of l).
Proof. unfold returns. rewrite omap_app. simpl. by destruct (return_of l). Qed.






(** X15: the wait group counts the consumers that are still in their loop:
    after any execution it stands at its first value less the number of
    returns in the trace; no consumer returns twice; the consumers that
    returned were in their loop at the start and are marked as returned,
    and all others are as they were. *)
Theorem done_once_per_consumer s tr s' :
  exec (Live s) tr (Live s') ->
  wg s' = wg s - Z.of_nat (length (returns tr)) /\
  NoDup (returns tr) /\
  forall k,
    (k ∈ returns tr ->
       (exists line, consumers s !! k = Some (CRange line)) /\
       consumers s' !! k = Some CReturned) /\
    (k ∉ returns tr -> consumers s' !! k = consumers s !! k).
Proof.
  intros Hex. remember (Live s) as c0 eqn:Hc0. remember (Live s') as c1 eqn:Hc1.
  revert s' Hc1. induction Hex as [|c0 tr c1 l c2 Hex IH Hstep]; intros s' Hc1; subst.
  - simplify_eq. simpl. split; [lia|]. split; [constructor|].
    intros k. split; [by intros ?%elem_of_nil|done].
  - inversion Hstep as [s0 ch l0 c0 Hfn]; subst.
    destruct (IH eq_refl s0 eq_refl) as (Hwg & Hnd & Hks). rewrite returns_snoc.
    destruct (step_consumers _ _ _ _ Hfn)
      as [(Hc & Hw & Hl)|(k' & line' & _ & Hk' & -> & Hc & Hw & _)].
    + assert (return_of l = None) as ->.
      { destruct l; try done. by destruct (Hl k lane). }
      simpl. rewrite app_nil_r, Hc, Hw. done.
    + simpl. assert (Hfresh : k' ∉ returns tr).
      { intros Hin. destruct (Hks k') as [Hin' _]. destruct (Hin' Hin) as [_ Hret].
        by rewrite Hk' in Hret. }
      split; [rewrite length_app; simpl; lia|]. split.
      { apply NoDup_app. split; [done|]. split; [|apply NoDup_singleton].
        intros x Hx ->%list_elem_of_singleton. done. }
      intros k. rewrite Hc. destruct (decide (k = k')) as [->|Hne].
      * split; [|intros Hn; destruct Hn; apply elem_of_app; right; by apply list_elem_of_singleton].
        intros _. split.
        -- exists line'. destruct (Hks k') as [_ Hsame]. by rewrite <- Hsame.
        -- rewrite list_lookup_insert_eq; [done|]. by eapply lookup_lt_Some.
      * rewrite list_lookup_insert_ne by done. destruct (Hks k) as [Hin Hout]. split.
        -- intros [Hx|Hx%list_elem_of_singleton]%elem_of_app; [by apply Hin|done].
        -- intros Hn. apply Hout. intros Hx. apply Hn. apply elem_of_app. by left.
Qed.

Lemma done_once_per_consumer_witness :
  let c := run sample_schedule (Live sample_start) in
  exists s', c.2 = Live s' /\ wg s' = wg sample_start - Z.of_nat (length (returns c.1)).
Proof.
  intros c. pose proof (run_exec sample_schedule (Live sample_start)) as Hex. fold c in Hex.
  destruct c.2 as [s'|] eqn:Hc; [|by vm_compute in Hc].
  exists s'. split; [done|]. by apply (proj1 (done_once_per_consumer sample_start c.1 s' Hex)).
Defined.
